(** * Sparse kernels of DGL: SpMM on the CPU, SDDMM on the GPU

    A shallow embedding of [src/kernel/cpu/spmm.h] and of the SDDMM
    launch code and device code that follow it in the same source file,
    together with the properties the specification states about them
    and further properties of the code.

    Conventions of the embedding.
    - Index arithmetic ([IdType], [int64_t]) is carried out in [Z].
      Signed overflow is undefined behaviour in C++, so the embedding
      covers the executions in which it does not occur.  Narrowing
      conversions ([int64_t] to [int]) are written out.
    - A buffer is a [list]; a pointer is [None] (the null pointer) or a
      buffer with an offset.  Every access outside a buffer and every
      access through the null pointer is the outcome [Fault].
    - [LOG(FATAL)] and a failed [CHECK] are the outcome [Fatal].
    - The kernels are templates over the element type [DType]; here they
      are functions over any type that carries the operations the
      templates use (class [DTypeOps]).
    - The kernel functions run their [#pragma omp parallel for] loops
      in index order: they are the sequential runs.  The loop of
      [SpMMCmpCoo], whose iterations meet in a critical section, is
      also given step by step ([SpMMCmpCoo_steps]), for any order in
      which the critical sections may follow one another.
    - The null array is the absent tensor: it has no data, and its
      metadata is that of an array of one dimension of extent 0.
    - The output pointer [O] of the kernels is the state [Obuf] of the
      loops ([O] is a constructor of [nat]).
    - A kernel launch that the device accepts is a list of threads
      that run one after the other, each to its end; the statements
      about launches hold for every such list that is a permutation of
      the threads of the grid.  A launch the device refuses runs no
      thread. *)

From stdpp Require Import base tactics option list numbers strings.

Local Open Scope Z_scope.

(** ** Outcomes *)

Inductive result (A : Type) : Type :=
  | Ok (a : A)
  | Fatal (msg : string)
  | Fault.
Arguments Ok {A} a.
Arguments Fatal {A} msg.
Arguments Fault {A}.

Global Instance result_ret : MRet result := λ A a, Ok a.
Global Instance result_bind : MBind result := λ A B f m,
  match m with
  | Ok a => f a
  | Fatal msg => Fatal msg
  | Fault => Fault
  end.

Global Instance result_fmap : FMap result := λ A B f m,
  match m with
  | Ok a => Ok (f a)
  | Fatal msg => Fatal msg
  | Fault => Fault
  end.

(** ** Buffers and pointers *)

Definition load {A} (buf : list A) (i : Z) : result A :=
  if decide (0 ≤ i) then
    match buf !! Z.to_nat i with Some x => Ok x | None => Fault end
  else Fault.

Definition store {A} (buf : list A) (i : Z) (x : A) : result (list A) :=
  if decide (0 ≤ i < Z.of_nat (length buf)) then Ok (<[Z.to_nat i := x]> buf)
  else Fault.

(** Reading a cell for a statement (never for running the code): the
    cell's content, or [d] outside the buffer. *)
Definition cell {A} (d : A) (buf : list A) (i : Z) : A :=
  if decide (0 ≤ i) then default d (buf !! Z.to_nat i) else d.

Definition ptr (A : Type) : Type := option (list A * Z).
Definition nullptr {A} : ptr A := None.

(** [base +ₚ off]: pointer arithmetic on a base pointer. *)
Definition ptr_add {A} (base : option (list A)) (off : Z) : ptr A :=
  match base with
  | Some buf => Some (buf, off)
  | None => None
  end.
Infix "+ₚ" := ptr_add (at level 50, left associativity).

Definition deref {A} (p : ptr A) : result A :=
  match p with
  | Some (buf, off) => load buf off
  | None => Fault
  end.

(** ** Counted loops

    [for (i = lo; i < hi; ++i) body] threads a state through the
    iterations and stops at the first outcome that is not [Ok]. *)

Fixpoint iterM {S} (body : Z → S → result S) (l : list Z) (s : S) : result S :=
  match l with
  | [] => Ok s
  | i :: l' => s' ← body i s; iterM body l' s'
  end.

Definition for_loop {S} (lo hi : Z) (body : Z → S → result S) (s : S) : result S :=
  iterM body (seqZ lo (hi - lo)) s.

(** A list of steps of any kind, one after the other, up to the first
    outcome that is not [Ok]. *)
Fixpoint run_steps {A St} (body : A → St → result St) (l : list A) (s : St)
    : result St :=
  match l with
  | [] => Ok s
  | a :: l' => s' ← body a s; run_steps body l' s'
  end.

(** ** Tensors and sparse matrices *)

Record NDArray (A : Type) : Type := mkNDArray {
  shape : list Z;
  data : list A
}.
Arguments mkNDArray {A} shape data.
Arguments shape {A} n.
Arguments data {A} n.

(** An operand that may be the null array. *)
Definition Tensor (A : Type) : Type := option (NDArray A).

(** Modelled from the spec: [aten::IsNullArray] is declared in
    [dgl/array.h], which is not among the sources.  The data model makes
    the arrays it is applied to optional; the absent array is [None]. *)
Definition IsNullArray {A} (a : option A) : bool :=
  match a with
  | None => true
  | Some _ => false
  end.

(** [static_cast<T*>(t->data)] *)
Definition data_ptr {A} (t : Tensor A) : option (list A) := data <$> t.

Definition Numel (sh : list Z) : Z := foldl Z.mul 1 sh.

(** [dim = 1; for (i = 1; i < ndim; ++i) dim *= shape[i];] *)
Definition feat_dim (sh : list Z) : Z := foldl Z.mul 1 (drop 1 sh).

Record CSRMatrix : Type := mkCSR {
  csr_num_rows : Z;
  csr_num_cols : Z;
  csr_indptr : list Z;
  csr_indices : list Z;
  csr_data : option (list Z)
}.

Record COOMatrix : Type := mkCOO {
  coo_num_rows : Z;
  coo_num_cols : Z;
  coo_row : list Z;
  coo_col : list Z;
  coo_data : option (list Z)
}.

(** ** Element types and operators *)

Class DTypeOps (D : Type) : Type := {
  dzero : D;
  dadd : D → D → D;
  dmul : D → D → D;
  dltb : D → D → bool;
  lowest : D;
  highest : D
}.

(** The value operators of namespace [op]. *)
Inductive Op : Type := Add | Mul | CopyLhs | CopyRhs.

Definition use_lhs (op : Op) : bool :=
  match op with
  | Add | Mul | CopyLhs => true
  | CopyRhs => false
  end.

Definition use_rhs (op : Op) : bool :=
  match op with
  | Add | Mul | CopyRhs => true
  | CopyLhs => false
  end.

(** The compare operators of namespace [op]. *)
Inductive Cmp : Type := Max | Min.

(** Broadcast descriptor ([BcastInfo] of [binary_reduce.h]): the fields
    the code at hand reads. *)
Record BcastInfo : Type := mkBcastInfo {
  lhs_offset : list Z;
  rhs_offset : list Z;
  out_shape : list Z;
  lhs_shape : list Z;
  rhs_shape : list Z
}.

(** ** Integer helpers *)

(** [a / b] and [a % b] of C++: truncation toward zero; a zero divisor
    is undefined behaviour. *)
Definition c_div (a b : Z) : result Z :=
  if decide (b = 0) then Fault else Ok (Z.quot a b).
Definition c_mod (a b : Z) : result Z :=
  if decide (b = 0) then Fault else Ok (Z.rem a b).

(** Conversion of an [int64_t] to [int]: the value modulo 2^32, read as
    a signed 32-bit number. *)
Definition to_int (z : Z) : Z := (z + 2 ^ 31) `mod` 2 ^ 32 - 2 ^ 31.

(** ** Index resolver *)

(** The out-parameters [*lhs_out] and [*rhs_out] are passed in with
    their values on entry and returned with their values on exit. *)
Definition UnravelRavel (idx : Z) (ndim : Z)
    (out_shape out_stride lhs_shape lhs_stride rhs_shape rhs_stride : list Z)
    (lhs_out rhs_out : Z) : result (Z * Z) :=
  o_st0 ← load out_stride 0;
  l_st0 ← load lhs_stride 0;
  if decide (o_st0 = l_st0) then
    rhs_out ← for_loop 0 ndim (λ d rhs_out,
      o_sh ← load out_shape d;
      o_st ← load out_stride d;
      rhs_sh ← load rhs_shape d;
      rhs_st ← load rhs_stride d;
      q ← c_div idx o_st;
      i ← c_mod q o_sh;
      if decide (rhs_sh > i) then Ok (rhs_out + i * rhs_st) else Ok rhs_out) rhs_out;
    let lhs_out := idx in
    Ok (lhs_out, rhs_out)
  else
    lhs_out ← for_loop 0 ndim (λ d lhs_out,
      o_sh ← load out_shape d;
      o_st ← load out_stride d;
      lhs_sh ← load lhs_shape d;
      lhs_st ← load lhs_stride d;
      q ← c_div idx o_st;
      i ← c_mod q o_sh;
      if decide (lhs_sh > i) then Ok (lhs_out + i * lhs_st) else Ok lhs_out) lhs_out;
    let rhs_out := idx in
    Ok (lhs_out, rhs_out).

(** ** Operator dispatch *)

(** The macro [SWITCH_OP(op, Op, ...)]: the statements [__VA_ARGS__],
    which may mention the type [Op], are the function [body]. *)
Definition SWITCH_OP {A} (op : string) (body : Op → result A) : result A :=
  if String.eqb op "add" then body Add
  else if String.eqb op "mul" then body Mul
  else if String.eqb op "copy_u" then body CopyLhs
  else if String.eqb op "copy_e" then body CopyRhs
  else Fatal ("Unsupported SpMM binary operator: " +:+ op).

(** ** Source row of an edge (device code of SDDMM on CSR) *)

(** The [while (lo < hi)] loop of [BinarySearchSrc].  Each iteration
    shrinks [hi - lo], so [fuel >= hi - lo] iterations are never used
    up (lemma [BinarySearchSrc_loop_fuel]); running out of fuel is
    reported as [Fault] to keep the function total. *)
Fixpoint BinarySearchSrc_loop (fuel : nat) (array : list Z) (eid lo hi : Z)
    : result (Z * Z) :=
  if decide (lo < hi) then
    match fuel with
    | O => Fault
    | S fuel' =>
        let mid := Z.shiftr (lo + hi) 1 in
        a ← load array mid;
        if decide (a ≤ eid) then BinarySearchSrc_loop fuel' array eid (mid + 1) hi
        else BinarySearchSrc_loop fuel' array eid lo mid
    end
  else Ok (lo, hi).

Definition BinarySearchSrc (array : list Z) (length eid : Z) : result Z :=
  let lo := 0 in
  let hi := length - 1 in
  '(lo, hi) ← BinarySearchSrc_loop (Z.to_nat (hi - lo)) array eid lo hi;
  a ← load array hi;
  if decide (a = eid) then Ok hi else Ok (hi - 1).

(** ** SDDMM launch code *)

(** The binary operators of SDDMM come from [binary_reduce_impl_decl.h],
    which is not among the sources; the launch code reads these three
    compile-time flags of them. *)
Record SddmmOp : Type := mkSddmmOp {
  sddmm_use_lhs : bool;
  sddmm_use_rhs : bool;
  reduce_last_dim : bool
}.

Record dim3 : Type := mkDim3 { dim_x : Z; dim_y : Z }.

(** What a launch [Kernel<<<nblks, nthrs, 0, stream>>>(args)] is given. *)
Record Launch (D : Type) : Type := mkLaunch {
  k_ufeat : option (list D);
  k_vfeat : option (list D);
  k_out : list D;
  k_edge_map : option (list Z);
  k_N : Z;
  k_M : Z;
  k_E : Z;
  k_reduce_size : Z;
  k_ubcast_off : option (list Z);
  k_vbcast_off : option (list Z);
  k_ufeat_len : Z;
  k_vfeat_len : Z;
  k_out_len : Z;
  nblks : dim3;
  nthrs : dim3
}.
Arguments mkLaunch {D}.
Arguments k_ufeat {D} l.
Arguments k_vfeat {D} l.
Arguments k_out {D} l.
Arguments k_edge_map {D} l.
Arguments k_N {D} l.
Arguments k_M {D} l.
Arguments k_E {D} l.
Arguments k_reduce_size {D} l.
Arguments k_ubcast_off {D} l.
Arguments k_vbcast_off {D} l.
Arguments k_ufeat_len {D} l.
Arguments k_vfeat_len {D} l.
Arguments k_out_len {D} l.
Arguments nblks {D} l.
Arguments nthrs {D} l.

(** [t->shape] and [t->ndim]: metadata of a tensor.  The null array is
    an array like any other as far as its metadata goes ([ndim], [shape]
    and [ctx] can be read): it is the empty array of one dimension of
    extent 0, which is what [aten::IsNullArray] tests for.  It has no
    element. *)
Definition shape_of {A} (t : Tensor A) : result (list Z) :=
  match t with
  | Some nd => Ok (shape nd)
  | None => Ok [0]
  end.

Definition CHECK (b : bool) (msg : string) : result unit :=
  if b then Ok () else Fatal ("Check failed: " +:+ msg).

Section Kernels.
Context {D : Type} `{!DTypeOps D}.

Definition Call (op : Op) (lhs_off rhs_off : ptr D) : result D :=
  match op with
  | Add => l ← deref lhs_off; r ← deref rhs_off; Ok (dadd l r)
  | Mul => l ← deref lhs_off; r ← deref rhs_off; Ok (dmul l r)
  | CopyLhs => deref lhs_off
  | CopyRhs => deref rhs_off
  end.

Definition cmp_zero (c : Cmp) : D :=
  match c with
  | Max => lowest
  | Min => highest
  end.

(** [true] if [accum] should be replaced. *)
Definition cmp_Call (c : Cmp) (accum val : D) : bool :=
  match c with
  | Max => dltb accum val
  | Min => dltb val accum
  end.

Definition SpMMSumCsr (op : Op) (csr : CSRMatrix) (ufeat efeat : Tensor D)
    (out : NDArray D) : result (list D) :=
  let has_idx := negb (IsNullArray (csr_data csr)) in
  let indptr := csr_indptr csr in
  let indices := csr_indices csr in
  let edges := if has_idx then csr_data csr else None in
  let X := if use_lhs op then data_ptr ufeat else None in
  let W := if use_rhs op then data_ptr efeat else None in
  let dim := feat_dim (shape out) in
  for_loop 0 (csr_num_rows csr) (λ rid Obuf,
    row_start ← load indptr rid;
    row_end ← load indptr (rid + 1);
    for_loop 0 dim (λ k Obuf,
      accum ← for_loop row_start row_end (λ j accum,
        cid ← load indices j;
        eid ← (if has_idx then deref (edges +ₚ j) else Ok j);
        let lhs_off := if use_lhs op then X +ₚ (cid * dim + k) else nullptr in
        let rhs_off := if use_rhs op then W +ₚ (eid * dim + k) else nullptr in
        v ← Call op lhs_off rhs_off;
        Ok (dadd accum v)) dzero;
      store Obuf (rid * dim + k) accum) Obuf) (data out).

Definition SpMMSumCoo (op : Op) (coo : COOMatrix) (ufeat efeat : Tensor D)
    (out : NDArray D) : result (list D) :=
  let has_idx := negb (IsNullArray (coo_data coo)) in
  let row := coo_row coo in
  let col := coo_col coo in
  let edges := if has_idx then coo_data coo else None in
  let X := if use_lhs op then data_ptr ufeat else None in
  let W := if use_rhs op then data_ptr efeat else None in
  let dim := feat_dim (shape out) in
  let nnz := Z.of_nat (length (coo_row coo)) in
  (* memset(O, 0, out.GetSize()) *)
  Obuf ← for_loop 0 (Numel (shape out)) (λ i Obuf, store Obuf i dzero) (data out);
  for_loop 0 nnz (λ i Obuf,
    rid ← load row i;
    cid ← load col i;
    eid ← (if has_idx then deref (edges +ₚ i) else Ok i);
    for_loop 0 dim (λ k Obuf,
      let lhs_off := if use_lhs op then X +ₚ (rid * dim + k) else nullptr in
      let rhs_off := if use_rhs op then W +ₚ (eid * dim + k) else nullptr in
      val ← Call op lhs_off rhs_off;
      cur ← load Obuf (cid * dim + k);
      store Obuf (cid * dim + k) (dadd cur val)) Obuf) Obuf.

Definition SpMMCmpCsr (op : Op) (cmp : Cmp) (csr : CSRMatrix)
    (ufeat efeat : Tensor D) (out : NDArray D) (argu arge : list Z)
    : result (list D * list Z * list Z) :=
  let has_idx := negb (IsNullArray (csr_data csr)) in
  let indptr := csr_indptr csr in
  let indices := csr_indices csr in
  let edges := if has_idx then csr_data csr else None in
  let X := if use_lhs op then data_ptr ufeat else None in
  let W := if use_rhs op then data_ptr efeat else None in
  let dim := feat_dim (shape out) in
  for_loop 0 (csr_num_rows csr) (λ rid st,
    row_start ← load indptr rid;
    row_end ← load indptr (rid + 1);
    for_loop (S := list D * list Z * list Z) 0 dim (λ k '(Obuf, argX, argW),
      '(accum, ax, aw) ← for_loop (S := D * Z * Z) row_start row_end (λ j '(accum, ax, aw),
        cid ← load indices j;
        eid ← (if has_idx then deref (edges +ₚ j) else Ok j);
        let lhs_off := if use_lhs op then X +ₚ (cid * dim + k) else nullptr in
        let rhs_off := if use_rhs op then W +ₚ (eid * dim + k) else nullptr in
        val ← Call op lhs_off rhs_off;
        if cmp_Call cmp accum val then
          Ok (val, (if use_lhs op then cid else ax),
                   (if use_rhs op then eid else aw))
        else Ok (accum, ax, aw)) (cmp_zero cmp, 0, 0);
      Obuf ← store Obuf (rid * dim + k) accum;
      argX ← (if use_lhs op then store argX (rid * dim + k) ax else Ok argX);
      argW ← (if use_rhs op then store argW (rid * dim + k) aw else Ok argW);
      Ok (Obuf, argX, argW)) st) (data out, argu, arge).

Definition SpMMCmpCoo (op : Op) (cmp : Cmp) (coo : COOMatrix)
    (ufeat efeat : Tensor D) (out : NDArray D) (argu arge : list Z)
    : result (list D * list Z * list Z) :=
  let has_idx := negb (IsNullArray (coo_data coo)) in
  let row := coo_row coo in
  let col := coo_col coo in
  let edges := if has_idx then coo_data coo else None in
  let X := if use_lhs op then data_ptr ufeat else None in
  let W := if use_rhs op then data_ptr efeat else None in
  let dim := feat_dim (shape out) in
  let nnz := Z.of_nat (length (coo_row coo)) in
  Obuf ← for_loop 0 (Numel (shape out)) (λ i Obuf, store Obuf i (cmp_zero cmp)) (data out);
  for_loop 0 nnz (λ i st,
    rid ← load row i;
    cid ← load col i;
    eid ← (if has_idx then deref (edges +ₚ i) else Ok i);
    for_loop (S := list D * list Z * list Z) 0 dim (λ k '(Obuf, argX, argW),
      let lhs_off := if use_lhs op then X +ₚ (rid * dim + k) else nullptr in
      let rhs_off := if use_rhs op then W +ₚ (eid * dim + k) else nullptr in
      val ← Call op lhs_off rhs_off;
      cur ← load Obuf (cid * dim + k);
      if cmp_Call cmp cur val then
        Obuf ← store Obuf (cid * dim + k) val;
        argX ← (if use_lhs op then store argX (cid * dim + k) rid else Ok argX);
        argW ← (if use_rhs op then store argW (cid * dim + k) eid else Ok argW);
        Ok (Obuf, argX, argW)
      else Ok (Obuf, argX, argW)) st) (Obuf, argu, arge).

(** ** The parallel loop of [SpMMCmpCoo], step by step

    [#pragma omp parallel for] hands the iterations [i] of the loop
    over the nonzeros to threads, and [#pragma omp critical] lets one
    thread at a time compare and update.  A step [(i, k)] is what the
    iteration [i] does for the feature index [k], up to the end of its
    critical section; an execution of the loop is a list of steps, one
    after the other.  [SpMMCmpCoo] above is the execution
    [loop_steps], in index order. *)
Definition SpMMCmpCoo_step (op : Op) (cmp : Cmp) (coo : COOMatrix)
    (ufeat efeat : Tensor D) (dim : Z) (step : Z * Z)
    (st : list D * list Z * list Z) : result (list D * list Z * list Z) :=
  let has_idx := negb (IsNullArray (coo_data coo)) in
  let row := coo_row coo in
  let col := coo_col coo in
  let edges := if has_idx then coo_data coo else None in
  let X := if use_lhs op then data_ptr ufeat else None in
  let W := if use_rhs op then data_ptr efeat else None in
  let '(Obuf, argX, argW) := st in
  let i := step.1 in
  let k := step.2 in
  rid ← load row i;
  cid ← load col i;
  eid ← (if has_idx then deref (edges +ₚ i) else Ok i);
  let lhs_off := if use_lhs op then X +ₚ (rid * dim + k) else nullptr in
  let rhs_off := if use_rhs op then W +ₚ (eid * dim + k) else nullptr in
  val ← Call op lhs_off rhs_off;
  cur ← load Obuf (cid * dim + k);
  if cmp_Call cmp cur val then
    Obuf ← store Obuf (cid * dim + k) val;
    argX ← (if use_lhs op then store argX (cid * dim + k) rid else Ok argX);
    argW ← (if use_rhs op then store argW (cid * dim + k) eid else Ok argW);
    Ok (Obuf, argX, argW)
  else Ok (Obuf, argX, argW).

(** The steps of the loop, in index order. *)
Definition loop_steps (nnz dim : Z) : list (Z * Z) :=
  i ← seqZ 0 nnz; k ← seqZ 0 dim; [(i, k)].

(** [SpMMCmpCoo] with its parallel loop executed as the list [steps]. *)
Definition SpMMCmpCoo_steps (op : Op) (cmp : Cmp) (coo : COOMatrix)
    (ufeat efeat : Tensor D) (out : NDArray D) (argu arge : list Z)
    (steps : list (Z * Z)) : result (list D * list Z * list Z) :=
  let dim := feat_dim (shape out) in
  Obuf ← for_loop 0 (Numel (shape out)) (λ i Obuf, store Obuf i (cmp_zero cmp)) (data out);
  run_steps (SpMMCmpCoo_step op cmp coo ufeat efeat dim) steps (Obuf, argu, arge).

(** ** Unimplemented paths

    The two functions take the buffers they could write to as a state
    and return it with the outcome. *)

Definition SpMMBcastSumCsr (op : Op) (info : BcastInfo) (csr : CSRMatrix)
    (ufeat efeat : Tensor D) (out : list D) : result unit * list D :=
  (Fatal "not implemented", out).

Definition SpMMBcastCmpCsr (op : Op) (cmp : Cmp) (info : BcastInfo)
    (csr : CSRMatrix) (ufeat efeat : Tensor D)
    (out : list D) (argu arge : list Z)
    : result unit * (list D * list Z * list Z) :=
  (Fatal "not implemented", (out, argu, arge)).

(** ** SDDMM entry points

    [utils::FindNumThreads] is declared in [utils.h], which is not
    among the sources: it is a parameter of the launch code. *)
Variable FindNumThreads : Z → Z → Z.

(** [ufeat->shape[ufeat->ndim - 1]] *)
Definition last_extent (t : Tensor D) : result Z :=
  sh ← shape_of t;
  load sh (Z.of_nat (length sh) - 1).

(** [reduce_dim = 1; if (Op::reduce_last_dim) { CHECK(...); reduce_dim =
    ufeat->shape[ufeat->ndim - 1]; }], which the four entry points
    share. *)
Definition reduce_dim_of (Op : SddmmOp) (ufeat : Tensor D) : result Z :=
  if reduce_last_dim Op then
    _ ← CHECK (negb (IsNullArray ufeat)) "!aten::IsNullArray(ufeat)";
    last_extent ufeat
  else Ok 1.

Definition SDDMMCoo (Op : SddmmOp) (coo : COOMatrix)
    (ufeat vfeat : Tensor D) (out : NDArray D) : result (Launch D) :=
  let edge_map := if IsNullArray (coo_data coo) then None else coo_data coo in
  let ufeat_data := if IsNullArray ufeat then None else data_ptr ufeat in
  let vfeat_data := if IsNullArray vfeat then None else data_ptr vfeat in
  let out_data := data out in
  let ubcast_off := None in
  let vbcast_off := None in
  let len := feat_dim (shape out) in
  reduce_dim ← reduce_dim_of Op ufeat;
  let nnz := Z.of_nat (length (coo_row coo)) in
  let ntx := FindNumThreads len 1024 in
  nty ← to_int <$> c_div 1024 ntx;
  nbx ← to_int <$> c_div (len + ntx - 1) ntx;
  nby ← to_int <$> c_div (nnz + nty - 1) nty;
  Ok (mkLaunch ufeat_data vfeat_data out_data edge_map
        (coo_num_rows coo) (coo_num_cols coo) nnz reduce_dim
        ubcast_off vbcast_off len len len
        (mkDim3 nbx nby) (mkDim3 ntx nty)).

Definition SDDMMBcastCoo (Op : SddmmOp) (info : BcastInfo) (coo : COOMatrix)
    (ufeat vfeat : Tensor D) (out : NDArray D) : result (Launch D) :=
  let edge_map := if IsNullArray (coo_data coo) then None else coo_data coo in
  let ufeat_data := if IsNullArray ufeat then None else data_ptr ufeat in
  let vfeat_data := if IsNullArray vfeat then None else data_ptr vfeat in
  let out_data := data out in
  (* DLContext ctx = ufeat->ctx *)
  _ ← shape_of ufeat;
  let ubcast_off := Some (lhs_offset info) in
  let vbcast_off := Some (rhs_offset info) in
  let len := feat_dim (out_shape info) in
  lhs_len ← for_loop 1 (Z.of_nat (length (out_shape info)))
    (λ i lhs_len, x ← load (lhs_shape info) i; Ok (lhs_len * x)) 1;
  rhs_len ← for_loop 1 (Z.of_nat (length (out_shape info)))
    (λ i rhs_len, x ← load (rhs_shape info) i; Ok (rhs_len * x)) 1;
  reduce_dim ← reduce_dim_of Op ufeat;
  let nnz := Z.of_nat (length (coo_row coo)) in
  let ntx := FindNumThreads len 1024 in
  nty ← to_int <$> c_div 1024 ntx;
  nbx ← to_int <$> c_div (len + ntx - 1) ntx;
  nby ← to_int <$> c_div (nnz + nty - 1) nty;
  Ok (mkLaunch ufeat_data vfeat_data out_data edge_map
        (coo_num_rows coo) (coo_num_cols coo) nnz reduce_dim
        ubcast_off vbcast_off lhs_len rhs_len len
        (mkDim3 nbx nby) (mkDim3 ntx nty)).

Definition SDDMMCsr (Op : SddmmOp) (csr : CSRMatrix)
    (ufeat vfeat : Tensor D) (out : NDArray D) : result (Launch D) :=
  let edge_map := if IsNullArray (csr_data csr) then None else csr_data csr in
  let ufeat_data := if IsNullArray ufeat then None else data_ptr ufeat in
  let vfeat_data := if IsNullArray vfeat then None else data_ptr vfeat in
  let out_data := data out in
  let N := csr_num_rows csr in
  let M := csr_num_cols csr in
  let E := Z.of_nat (length (csr_indices csr)) in
  let ubcast_off := None in
  let vbcast_off := None in
  (* for (i = 1; i < ufeat->ndim; ++i) len *= ufeat->shape[i]; *)
  ush ← shape_of ufeat;
  let len := feat_dim ush in
  reduce_dim ← reduce_dim_of Op ufeat;
  Ok (mkLaunch ufeat_data vfeat_data out_data edge_map
        N M E reduce_dim
        ubcast_off vbcast_off len len len
        (mkDim3 E 1) (mkDim3 1 (if decide (128 < len) then 128 else len))).

Definition SDDMMBcastCsr (Op : SddmmOp) (info : BcastInfo) (csr : CSRMatrix)
    (ufeat vfeat : Tensor D) (out : NDArray D) : result (Launch D) :=
  let edge_map := if IsNullArray (csr_data csr) then None else csr_data csr in
  let ufeat_data := if IsNullArray ufeat then None else data_ptr ufeat in
  let vfeat_data := if IsNullArray vfeat then None else data_ptr vfeat in
  let out_data := data out in
  let N := csr_num_rows csr in
  let M := csr_num_cols csr in
  let E := Z.of_nat (length (csr_indices csr)) in
  (* DLContext ctx = ufeat->ctx *)
  _ ← shape_of ufeat;
  let ubcast_off := Some (lhs_offset info) in
  let vbcast_off := Some (rhs_offset info) in
  let len := feat_dim (out_shape info) in
  lhs_len ← for_loop 1 (Z.of_nat (length (out_shape info)))
    (λ i lhs_len, x ← load (lhs_shape info) i; Ok (lhs_len * x)) 1;
  rhs_len ← for_loop 1 (Z.of_nat (length (out_shape info)))
    (λ i rhs_len, x ← load (rhs_shape info) i; Ok (rhs_len * x)) 1;
  reduce_dim ← reduce_dim_of Op ufeat;
  Ok (mkLaunch ufeat_data vfeat_data out_data edge_map
        N M E reduce_dim
        ubcast_off vbcast_off lhs_len rhs_len len
        (mkDim3 E 1) (mkDim3 1 (if decide (128 < len) then 128 else len))).

(** The source row [SDDMMCsrKernel] computes for the edge position
    [ty]: [BinarySearchSrc<Idx>(indptr, N, ty)], with the [indptr] and
    the [N] that [SDDMMCsr] passes to the launch. *)
Definition SDDMMCsrKernel_src (csr : CSRMatrix) (ty : Z) : result Z :=
  let indptr := csr_indptr csr in
  let N := csr_num_rows csr in
  BinarySearchSrc indptr N ty.

End Kernels.

Global Instance Z_dtype : DTypeOps Z := {|
  dzero := 0; dadd := Z.add; dmul := Z.mul; dltb := Z.ltb;
  lowest := - 2 ^ 63; highest := 2 ^ 63 - 1
|}.


(** ** SDDMM device code *)

(** [p + off] for a pointer that may already carry an offset.  Adding
    to the null pointer gives no pointer that can be read. *)
Definition ptr_shift {A} (p : ptr A) (off : Z) : ptr A :=
  match p with
  | Some (buf, o) => Some (buf, o + off)
  | None => None
  end.

(** [_ldg(addr)]: [__ldg(addr)] or [*addr], a read of [*addr] in both
    cases. *)
Definition _ldg {A} (addr : ptr A) : result A := deref addr.

(** The components of [blockIdx], [blockDim], [threadIdx] and [gridDim]
    are [unsigned int]: their arithmetic wraps around at 2^32. *)
Definition to_uint (z : Z) : Z := z `mod` 2 ^ 32.

(** The index type [Idx] of the device code is a 32-bit or a 64-bit
    signed integer. *)
Inductive IdxType : Type := Idx32 | Idx64.

(** Conversion of an [unsigned int], an [int] or an [int64_t] to
    [Idx]. *)
Definition to_Idx (T : IdxType) (z : Z) : Z :=
  match T with
  | Idx32 => to_int z
  | Idx64 => z
  end.

(** The coordinates of one thread of a launch. *)
Record ThreadCtx : Type := mkThreadCtx {
  gridDim : dim3;
  blockDim : dim3;
  blockIdx : dim3;
  threadIdx : dim3
}.

(** [while (i < bound) { body; i += stride; }].  With a positive
    [stride] the loop ends within [bound - i] iterations (lemma
    [strided_loop_fuel]); a loop that does not end uses up the fuel and
    is reported as [Fault]. *)
Fixpoint strided_loop {St} (fuel : nat) (bound stride : Z)
    (body : Z → St → result St) (i : Z) (s : St) : result St :=
  if decide (i < bound) then
    match fuel with
    | O => Fault
    | S fuel' =>
        s' ← body i s;
        strided_loop fuel' bound stride body (i + stride) s'
    end
  else Ok s.

Section DeviceCode.
Context {D : Type}.

(** [BinaryOp::Call] is declared in [binary_reduce_impl_decl.h], which
    is not among the sources: it is a parameter of the device code, a
    function of the two operand pointers and the two lengths that reads
    memory through the pointers only. *)
Variable BCall : ptr D → ptr D → Z → Z → result D.

(** The inner loop the two kernels share, for the thread's first
    feature position [tx] and its stride:
    [while (tx < out_len) { ...; outoff[tx] = val; tx += stride_x; }] *)
Definition feature_loop (T : IdxType) (lhsoff rhsoff : ptr D) (outoff : Z)
    (reduce_size : Z) (ubcast_off vbcast_off : option (list Z)) (out_len : Z)
    (tx stride_x : Z) (out : list D) : result (list D) :=
  strided_loop (Z.to_nat (out_len - tx)) out_len stride_x (λ tx out,
    lhs_add ← match ubcast_off with
              | Some off => to_Idx T <$> load off tx
              | None => Ok (to_Idx T tx)
              end;
    rhs_add ← match vbcast_off with
              | Some off => to_Idx T <$> load off tx
              | None => Ok (to_Idx T tx)
              end;
    val ← BCall (ptr_shift lhsoff (lhs_add * reduce_size))
                (ptr_shift rhsoff (rhs_add * reduce_size))
                reduce_size reduce_size;
    store out (outoff + tx) val) tx out.

(** One thread of [SDDMMCooKernel]; the buffer behind [out] is the
    state. *)
Definition SDDMMCooKernel (T : IdxType) (Op : SddmmOp) (tc : ThreadCtx)
    (ufeat vfeat : option (list D)) (out : list D)
    (row col : list Z) (edge_map : option (list Z))
    (N M E reduce_size : Z) (ubcast_off vbcast_off : option (list Z))
    (ufeat_len vfeat_len out_len : Z) : result (list D) :=
  let ty := to_Idx T (to_uint (dim_y (blockIdx tc) * dim_y (blockDim tc)
                               + dim_y (threadIdx tc))) in
  let stride_y := to_Idx T (to_uint (dim_y (blockDim tc) * dim_y (gridDim tc))) in
  strided_loop (Z.to_nat (E - ty)) E stride_y (λ ty out,
    src ← _ldg (Some row +ₚ ty);
    dst ← _ldg (Some col +ₚ ty);
    eid ← match edge_map with
          | Some _ => _ldg (edge_map +ₚ ty)
          | None => Ok ty
          end;
    let lhsoff := if sddmm_use_lhs Op
                  then ufeat +ₚ (src * ufeat_len * reduce_size) else nullptr in
    let rhsoff := if sddmm_use_rhs Op
                  then vfeat +ₚ (dst * vfeat_len * reduce_size) else nullptr in
    let outoff := eid * out_len in
    (* int tx; const int stride_x *)
    let tx := to_int (to_uint (dim_x (blockIdx tc) * dim_x (blockDim tc)
                               + dim_x (threadIdx tc))) in
    let stride_x := to_int (to_uint (dim_x (blockDim tc) * dim_x (gridDim tc))) in
    feature_loop T lhsoff rhsoff outoff reduce_size ubcast_off vbcast_off out_len
      tx stride_x out) ty out.

(** One thread of [SDDMMCsrKernel]. *)
Definition SDDMMCsrKernel (T : IdxType) (Op : SddmmOp) (tc : ThreadCtx)
    (ufeat vfeat : option (list D)) (out : list D)
    (indptr indices : list Z) (edge_map : option (list Z))
    (N M E reduce_size : Z) (ubcast_off vbcast_off : option (list Z))
    (ufeat_len vfeat_len out_len : Z) : result (list D) :=
  let has_idx := match edge_map with Some _ => true | None => false end in
  let ty := to_Idx T (to_uint (dim_y (blockIdx tc) * dim_y (blockDim tc)
                               + dim_y (threadIdx tc))) in
  let stride_y := to_Idx T (to_uint (dim_y (blockDim tc) * dim_y (gridDim tc))) in
  strided_loop (Z.to_nat (E - ty)) E stride_y (λ ty out,
    src ← BinarySearchSrc indptr (to_Idx T N) ty;
    dst ← _ldg (Some indices +ₚ ty);
    eid ← (if has_idx then _ldg (edge_map +ₚ ty) else Ok ty);
    (* int64_t tx; const int64_t stride_x *)
    let tx := to_uint (dim_x (blockIdx tc) * dim_x (blockDim tc)
                       + dim_x (threadIdx tc)) in
    let stride_x := to_uint (dim_x (blockDim tc) * dim_x (gridDim tc)) in
    let lhsoff := if sddmm_use_lhs Op then ufeat +ₚ (src * ufeat_len) else nullptr in
    let rhsoff := if sddmm_use_rhs Op then vfeat +ₚ (dst * vfeat_len) else nullptr in
    let outoff := eid * out_len in
    feature_loop T lhsoff rhsoff outoff reduce_size ubcast_off vbcast_off out_len
      tx stride_x out) ty out.

(** The threads of a launch [<<<nblks, nthrs>>>] (the z components of
    the two [dim3] are 1). *)
Definition grid_threads (nblks nthrs : dim3) : list ThreadCtx :=
  by_ ← seqZ 0 (dim_y nblks);
  bx ← seqZ 0 (dim_x nblks);
  ty ← seqZ 0 (dim_y nthrs);
  tx ← seqZ 0 (dim_x nthrs);
  [mkThreadCtx nblks nthrs (mkDim3 bx by_) (mkDim3 tx ty)].

(** The execution configurations the device accepts, by the limits of
    the CUDA programming guide: no dimension of the grid or of the
    block is 0, [gridDim.x] is at most [2^31 - 1] and [gridDim.y] at
    most 65535, [blockDim.x] and [blockDim.y] are at most 1024 and a
    block has at most 1024 threads. *)
Definition launch_accepted (nblks nthrs : dim3) : bool :=
  bool_decide (1 ≤ dim_x nblks ≤ 2 ^ 31 - 1)
  && bool_decide (1 ≤ dim_y nblks ≤ 65535)
  && bool_decide (1 ≤ dim_x nthrs ≤ 1024)
  && bool_decide (1 ≤ dim_y nthrs ≤ 1024)
  && bool_decide (dim_x nthrs * dim_y nthrs ≤ 1024).

(** The threads of a launch under a sequential schedule: the threads of
    [schedule] run one after the other, each to its end, on the output
    buffer. *)
Fixpoint run_threads (kernel : ThreadCtx → list D → result (list D))
    (schedule : list ThreadCtx) (out : list D) : result (list D) :=
  match schedule with
  | [] => Ok out
  | tc :: rest => out' ← kernel tc out; run_threads kernel rest out'
  end.

(** The launch of [SDDMMCoo] and [SDDMMBcastCoo]:
    [SDDMMCooKernel<<<nblks, nthrs, 0, stream>>>(ufeat_data, ...)].
    The device runs the threads of a configuration it accepts; it
    refuses any other, no thread runs, and the entry points, which do
    not look at the outcome of the launch, return with [out] as it
    was. *)
Definition launch_SDDMMCooKernel (T : IdxType) (Op : SddmmOp) (coo : COOMatrix)
    (l : Launch D) (schedule : list ThreadCtx) : result (list D) :=
  if launch_accepted (nblks l) (nthrs l) then
    run_threads (λ tc out,
      SDDMMCooKernel T Op tc (k_ufeat l) (k_vfeat l) out
        (coo_row coo) (coo_col coo) (k_edge_map l)
        (k_N l) (k_M l) (k_E l) (k_reduce_size l)
        (k_ubcast_off l) (k_vbcast_off l)
        (k_ufeat_len l) (k_vfeat_len l) (k_out_len l)) schedule (k_out l)
  else Ok (k_out l).

(** The launch of [SDDMMCsr] and [SDDMMBcastCsr]. *)
Definition launch_SDDMMCsrKernel (T : IdxType) (Op : SddmmOp) (csr : CSRMatrix)
    (l : Launch D) (schedule : list ThreadCtx) : result (list D) :=
  if launch_accepted (nblks l) (nthrs l) then
    run_threads (λ tc out,
      SDDMMCsrKernel T Op tc (k_ufeat l) (k_vfeat l) out
        (csr_indptr csr) (csr_indices csr) (k_edge_map l)
        (k_N l) (k_M l) (k_E l) (k_reduce_size l)
        (k_ubcast_off l) (k_vbcast_off l)
        (k_ufeat_len l) (k_vfeat_len l) (k_out_len l)) schedule (k_out l)
  else Ok (k_out l).

End DeviceCode.


(** * Specification-level definitions *)

(** A nonzero of a sparse matrix, as the SpMM kernels see it: the output
    row it is aggregated into, the node whose feature row is the left
    operand, and the edge whose feature row is the right operand. *)
Record nonzero : Type := mkNz {
  nz_target : Z;
  nz_neighbor : Z;
  nz_eid : Z
}.

Definition csr_eid (csr : CSRMatrix) (j : Z) : Z :=
  match csr_data csr with
  | Some d => cell 0 d j
  | None => j
  end.

Definition csr_row_start (csr : CSRMatrix) (r : Z) : Z := cell 0 (csr_indptr csr) r.
Definition csr_row_end (csr : CSRMatrix) (r : Z) : Z := cell 0 (csr_indptr csr) (r + 1).

(** The nonzero positions [j] of row [r]: [indptr[r] <= j < indptr[r+1]]. *)
Definition csr_row_positions (csr : CSRMatrix) (r : Z) : list Z :=
  seqZ (csr_row_start csr r) (csr_row_end csr r - csr_row_start csr r).

Definition csr_nonzero (csr : CSRMatrix) (r j : Z) : nonzero :=
  mkNz r (cell 0 (csr_indices csr) j) (csr_eid csr j).

Definition csr_row_entries (csr : CSRMatrix) (r : Z) : list nonzero :=
  csr_nonzero csr r <$> csr_row_positions csr r.

Definition csr_entries (csr : CSRMatrix) : list nonzero :=
  seqZ 0 (csr_num_rows csr) ≫= csr_row_entries csr.

Definition coo_eid (coo : COOMatrix) (i : Z) : Z :=
  match coo_data coo with
  | Some d => cell 0 d i
  | None => i
  end.

(** The COO kernels aggregate into [col[i]] and read the left operand at
    [row[i]]. *)
Definition coo_nonzero (coo : COOMatrix) (i : Z) : nonzero :=
  mkNz (cell 0 (coo_col coo) i) (cell 0 (coo_row coo) i) (coo_eid coo i).

Definition coo_entries (coo : COOMatrix) : list nonzero :=
  coo_nonzero coo <$> seqZ 0 (Z.of_nat (length (coo_row coo))).

Global Instance nonzero_eq_dec : EqDecision nonzero.
Proof. solve_decision. Defined.

(** The coordinate of the flattened output index [idx] along the
    dimension [d]: [(idx / out_stride[d]) % out_shape[d]]. *)
Definition coord (idx : Z) (out_shape out_stride : list Z) (d : Z) : Z :=
  (idx `div` cell 0 out_stride d) `mod` cell 0 out_shape d.

(** The sum over the dimensions [d] of
    [min(coord_d, shape[d] - 1) * stride[d]] for an operand. *)
Definition ravel_min (idx ndim : Z) (out_shape out_stride op_shape op_stride : list Z)
    : Z :=
  foldl (λ acc d,
           acc + Z.min (coord idx out_shape out_stride d) (cell 0 op_shape d - 1)
                 * cell 0 op_stride d)
        0 (seqZ 0 ndim).

(** The row-major contiguous strides of a shape. *)
Fixpoint strides_of (sh : list Z) : list Z :=
  match sh with
  | [] => []
  | _ :: rest => Numel rest :: strides_of rest
  end.

(** The product of the extents of the dimensions [m], [m+1], ... *)
Definition tail_numel (sh : list Z) (m : Z) : Z := Numel (drop (Z.to_nat m) sh).

(** The output has [ndim] dimensions of positive extent and row-major
    contiguous strides. *)
Definition out_wf (ndim : Z) (out_shape out_stride : list Z) : bool :=
  bool_decide (Z.of_nat (length out_shape) = ndim)
  && bool_decide (out_stride = strides_of out_shape)
  && forallb (λ x, bool_decide (0 < x)) out_shape.

(** An operand has [ndim] dimensions, each of the extent of the output
    or of extent 1. *)
Definition operand_wf (ndim : Z) (out_shape op_shape op_stride : list Z) : bool :=
  bool_decide (Z.of_nat (length op_shape) = ndim)
  && bool_decide (Z.of_nat (length op_stride) = ndim)
  && forallb (λ d, bool_decide (cell 0 op_shape d = cell 0 out_shape d
                                ∨ cell 0 op_shape d = 1))
       (seqZ 0 ndim).

(** The iterations whose step for the feature index [k] reaches the
    cell [(c, k)], in the order of the list of steps. *)
Definition hits (coo : COOMatrix) (c k : Z) (steps : list (Z * Z)) : list Z :=
  fst <$> filter (λ p : Z * Z, cell 0 (coo_col coo) p.1 = c ∧ p.2 = k) steps.

(** [a / b] rounded up. *)
Definition ceil_div (a b : Z) : Z := - ((- a) `div` b).

(** The nonzeros aggregated into output row [c], in list order. *)
Definition entries_for (c : Z) (es : list nonzero) : list nonzero :=
  filter (λ e, nz_target e = c) es.

(** Well-formed CSR: [indptr] has [num_rows + 1] entries, starts at 0,
    is monotonically non-decreasing and ends at the length of [indices];
    a permutation array, when present, is as long as [indices]. *)
Definition csr_wf (csr : CSRMatrix) : bool :=
  bool_decide (0 ≤ csr_num_rows csr)
  && bool_decide (Z.of_nat (length (csr_indptr csr)) = csr_num_rows csr + 1)
  && bool_decide (csr_row_start csr 0 = 0)
  && bool_decide (csr_row_start csr (csr_num_rows csr) = Z.of_nat (length (csr_indices csr)))
  && forallb (λ r, bool_decide (csr_row_start csr r ≤ csr_row_end csr r))
       (seqZ 0 (csr_num_rows csr))
  && match csr_data csr with
     | Some d => bool_decide (length d = length (csr_indices csr))
     | None => true
     end.

Definition coo_wf (coo : COOMatrix) : bool :=
  bool_decide (length (coo_col coo) = length (coo_row coo))
  && match coo_data coo with
     | Some d => bool_decide (length d = length (coo_row coo))
     | None => true
     end.

Section Specs.
Context {D : Type} `{!DTypeOps D}.

(** What a value operator computes from the two operand values. *)
Definition combine (op : Op) (l r : D) : D :=
  match op with
  | Add => dadd l r
  | Mul => dmul l r
  | CopyLhs => l
  | CopyRhs => r
  end.

Definition tdata (t : Tensor D) : list D :=
  match t with
  | Some nd => data nd
  | None => []
  end.

(** [combine(ufeat[nbr * dim + k], efeat[eid * dim + k])] *)
Definition contrib (op : Op) (ufeat efeat : Tensor D) (dim k : Z) (e : nonzero) : D :=
  combine op (cell dzero (tdata ufeat) (nz_neighbor e * dim + k))
             (cell dzero (tdata efeat) (nz_eid e * dim + k)).

(** The sum of a list of values, accumulated from 0 in list order. *)
Definition sum_of (vals : list D) : D := foldl dadd dzero vals.

(** One compare-and-replace step on (value, left argument, right
    argument). *)
Definition cmp_step (op : Op) (cmp : Cmp) (ufeat efeat : Tensor D) (dim k : Z)
    (st : D * Z * Z) (e : nonzero) : D * Z * Z :=
  let val := contrib op ufeat efeat dim k e in
  if cmp_Call cmp st.1.1 val then
    (val, (if use_lhs op then nz_neighbor e else st.1.2),
          (if use_rhs op then nz_eid e else st.2))
  else st.

Definition cmp_reduce (op : Op) (cmp : Cmp) (ufeat efeat : Tensor D) (dim k : Z)
    (init : D * Z * Z) (es : list nonzero) : D * Z * Z :=
  foldl (cmp_step op cmp ufeat efeat dim k) init es.

(** The feature row [id] of an operand the operator uses lies inside
    the operand's buffer. *)
Definition fits (used : bool) (t : Tensor D) (dim id : Z) : bool :=
  if used then
    match t with
    | Some nd => bool_decide (0 ≤ id ∧ (id + 1) * dim ≤ Z.of_nat (length (data nd)))
    | None => false
    end
  else true.

Definition operands_ok (op : Op) (ufeat efeat : Tensor D) (dim : Z)
    (es : list nonzero) : bool :=
  forallb (λ e, fits (use_lhs op) ufeat dim (nz_neighbor e)
                && fits (use_rhs op) efeat dim (nz_eid e)) es.

(** The output tensor has [rows] rows of [dim] features each and its
    buffer holds exactly its elements. *)
Definition out_ok (rows : Z) (out : NDArray D) : bool :=
  bool_decide (0 ≤ feat_dim (shape out))
  && bool_decide (head (shape out) = Some rows)
  && bool_decide (Z.of_nat (length (data out)) = Numel (shape out)).

(** A conditional store [if (used) buf[i] = x;] *)
Definition upd (used : bool) (buf : list Z) (i x : Z) : list Z :=
  if used then <[Z.to_nat i := x]> buf else buf.

(** An argument tensor the operator uses has room for [n] entries. *)
Definition arg_ok (used : bool) (n : Z) (arg : list Z) : bool :=
  if used then bool_decide (n ≤ Z.of_nat (length arg)) else true.

(** Exact arithmetic: addition is associative and commutative. *)
Record SumLaws : Prop := {
  dadd_assoc : ∀ a b c : D, dadd (dadd a b) c = dadd a (dadd b c);
  dadd_comm : ∀ a b : D, dadd a b = dadd b a
}.

(** [<] of the element type is irreflexive and transitive.  It is so
    on the integer types and on the floating-point types, where a NaN
    is below and above nothing and the two zeros are neither below the
    other. *)
Record StrictLaws : Prop := {
  strict_irrefl : ∀ a : D, dltb a a = false;
  strict_trans : ∀ a b c : D, dltb a b = true → dltb b c = true → dltb a c = true
}.

(** [<] of the element type is a strict total order: two values
    neither of which is below the other are the same value.  It is so
    on the integer types, and not on the floating-point types. *)
Record OrderLaws : Prop := {
  dltb_irrefl : ∀ a : D, dltb a a = false;
  dltb_trans : ∀ a b c : D, dltb a b = true → dltb b c = true → dltb a c = true;
  dltb_total : ∀ a b : D, dltb a b = false → dltb b a = false → a = b
}.

(** The cell [i] of the output buffer and of the two argument
    buffers. *)
Definition cells3 (st : list D * list Z * list Z) (i : Z) : D * Z * Z :=
  (cell dzero st.1.1 i, cell 0 st.1.2 i, cell 0 st.2 i).

(** Every nonzero is aggregated into one of the [rows] output rows. *)
Definition targets_ok (rows : Z) (es : list nonzero) : bool :=
  forallb (λ e, bool_decide (0 ≤ nz_target e < rows)) es.

End Specs.

(** * Sample inputs

    Element type: the integers with their exact arithmetic and the
    limits of [int64_t]. *)

Definition csr1 : CSRMatrix := mkCSR 3 3 [0; 2; 2; 4] [1; 2; 0; 2] None.
Definition coo1 : COOMatrix :=
  mkCOO 3 3 [2; 1; 0; 2] [2; 0; 2; 0] (Some [3; 0; 2; 1]).
Definition uf1 : Tensor Z := Some (mkNDArray [3; 2] [1; 2; 10; 20; 100; 200]).
Definition ef1 : Tensor Z := Some (mkNDArray [4; 2] [1; 1; 2; 2; 3; 3; 4; 4]).
Definition out1 : NDArray Z := mkNDArray [3; 2] [7; 7; 7; 7; 7; 7].
Definition arg1 : list Z := [9; 9; 9; 9; 9; 9].

(** Row 0 has one neighbour, node 1, whose feature is the lowest value
    of the element type; row 1 has no neighbour. *)
Definition csr2 : CSRMatrix := mkCSR 2 2 [0; 1; 1] [1] None.
Definition uf2 : Tensor Z := Some (mkNDArray [2; 1] [5; - 2 ^ 63]).
Definition out2 : NDArray Z := mkNDArray [2; 1] [0; 0].
Definition arg2 : list Z := [7; 7].

(** SDDMM operators: one that uses both operands, one that uses the
    right operand only; neither reduces over the last dimension. *)
Definition sop_both : SddmmOp := mkSddmmOp true true false.
Definition sop_rhs : SddmmOp := mkSddmmOp false true false.
Definition uf3 : Tensor Z :=
  Some (mkNDArray [3; 5] [0; 0; 0; 0; 0; 0; 0; 0; 0; 0; 0; 0; 0; 0; 0]).

(** A stand-in for [utils::FindNumThreads] in examples: the largest
    power of two that is at most [max_nthrs] and at most [dim], and at
    least 1. *)
Definition sample_FindNumThreads (dim max_nthrs : Z) : Z :=
  Z.max 1 (Z.min (2 ^ Z.log2 dim) (2 ^ Z.log2 max_nthrs)).

(** ** Statements about the device code *)

Definition is_ok {A} (r : result A) : bool :=
  match r with
  | Ok _ => true
  | _ => false
  end.

(** The positions [i], [i + stride], ... below [bound] that a strided
    loop visits. *)
Fixpoint strided (fuel : nat) (bound stride i : Z) : list Z :=
  if decide (i < bound) then
    match fuel with
    | O => []
    | S fuel' => i :: strided fuel' bound stride (i + stride)
    end
  else [].

(** A list of writes [(index, value)], carried out from left to
    right. *)
Definition apply_writes {A} (ws : list (Z * A)) (buf : list A) : list A :=
  foldl (λ b w, <[Z.to_nat w.1 := w.2]> b) buf ws.

Definition ok_or {A} (d : A) (r : result A) : A :=
  match r with
  | Ok a => a
  | _ => d
  end.

(** The first position of a thread along the two axes, and its
    strides. *)
Definition first_x (tc : ThreadCtx) : Z :=
  dim_x (blockIdx tc) * dim_x (blockDim tc) + dim_x (threadIdx tc).
Definition first_y (tc : ThreadCtx) : Z :=
  dim_y (blockIdx tc) * dim_y (blockDim tc) + dim_y (threadIdx tc).
Definition stride_x (tc : ThreadCtx) : Z := dim_x (blockDim tc) * dim_x (gridDim tc).
Definition stride_y (tc : ThreadCtx) : Z := dim_y (blockDim tc) * dim_y (gridDim tc).

(** The writes [w ty tx] of a thread for the edge positions [ty] below
    [E] and the feature positions [tx] below [out_len] it visits, in
    the order of the two nested loops. *)
Definition thread_writes {A} (E out_len : Z) (w : Z → Z → Z * A) (tc : ThreadCtx)
    : list (Z * A) :=
  ty ← strided (Z.to_nat (E - first_y tc)) E (stride_y tc) (first_y tc);
  tx ← strided (Z.to_nat (out_len - first_x tc)) out_len (stride_x tc) (first_x tc);
  [w ty tx].

(** [edge_map ? edge_map[ty] : ty] *)
Definition edge_id (edge_map : option (list Z)) (ty : Z) : Z :=
  match edge_map with
  | Some m => cell 0 m ty
  | None => ty
  end.

(** [bcast_off ? bcast_off[tx] : tx], as an [Idx]. *)
Definition bcast_add (T : IdxType) (bcast_off : option (list Z)) (tx : Z) : Z :=
  to_Idx T (match bcast_off with
            | Some off => cell 0 off tx
            | None => tx
            end).

(** The operand pointer the kernels pass to [BinaryOp::Call] for the
    feature position [tx] of an operand whose feature rows start at
    [base]. *)
Definition operand_ptr {D} (T : IdxType) (used : bool) (feat : option (list D))
    (base reduce_size : Z) (bcast_off : option (list Z)) (tx : Z) : ptr D :=
  ptr_shift (if used then feat +ₚ base else nullptr)
            (bcast_add T bcast_off tx * reduce_size).

(** A launch geometry without an empty dimension and without
    wrap-around of the thread numbering. *)
Definition geometry_ok (nblks nthrs : dim3) : bool :=
  bool_decide (0 < dim_x nblks) && bool_decide (0 < dim_y nblks)
  && bool_decide (0 < dim_x nthrs) && bool_decide (0 < dim_y nthrs)
  && bool_decide (dim_x nblks * dim_x nthrs < 2 ^ 31)
  && bool_decide (dim_y nblks * dim_y nthrs < 2 ^ 31).

(** An optional index array has at least [n] entries. *)
Definition covers (a : option (list Z)) (n : Z) : bool :=
  match a with
  | Some l => bool_decide (n ≤ Z.of_nat (length l))
  | None => true
  end.

Section DeviceSpecs.
Context {D : Type} `{!DTypeOps D}.
Variable BCall : ptr D → ptr D → Z → Z → result D.

(** The write of [SDDMMCooKernel] for the edge position [ty] and the
    feature position [tx]: the cell [out[eid * out_len + tx]] and the
    value of [BinaryOp::Call] (0 stands in for a call that returns no
    value). *)
Definition coo_write (T : IdxType) (Op : SddmmOp)
    (ufeat vfeat : option (list D)) (row col : list Z) (edge_map : option (list Z))
    (reduce_size : Z) (ubcast_off vbcast_off : option (list Z))
    (ufeat_len vfeat_len out_len : Z) (ty tx : Z) : Z * D :=
  (edge_id edge_map ty * out_len + tx,
   ok_or dzero (BCall
     (operand_ptr T (sddmm_use_lhs Op) ufeat
        (cell 0 row ty * ufeat_len * reduce_size) reduce_size ubcast_off tx)
     (operand_ptr T (sddmm_use_rhs Op) vfeat
        (cell 0 col ty * vfeat_len * reduce_size) reduce_size vbcast_off tx)
     reduce_size reduce_size)).

(** What the arguments of [SDDMMCooKernel] have to satisfy: the index
    arrays have [E] entries, the offset arrays [out_len] entries, the
    edge ids of the [E] positions are different and address feature
    rows inside [out], and [BinaryOp::Call] returns a value for the
    operand pointers of every position. *)
Definition coo_kernel_ok (T : IdxType) (Op : SddmmOp)
    (ufeat vfeat : option (list D)) (out : list D)
    (row col : list Z) (edge_map : option (list Z))
    (E reduce_size : Z) (ubcast_off vbcast_off : option (list Z))
    (ufeat_len vfeat_len out_len : Z) : bool :=
  bool_decide (E ≤ Z.of_nat (length row))
  && bool_decide (E ≤ Z.of_nat (length col))
  && covers edge_map E
  && covers ubcast_off out_len
  && covers vbcast_off out_len
  && bool_decide (NoDup (edge_id edge_map <$> seqZ 0 E))
  && forallb (λ ty,
       bool_decide (0 ≤ edge_id edge_map ty
                    ∧ (edge_id edge_map ty + 1) * out_len ≤ Z.of_nat (length out))
       && forallb (λ tx,
            is_ok (BCall
              (operand_ptr T (sddmm_use_lhs Op) ufeat
                 (cell 0 row ty * ufeat_len * reduce_size) reduce_size ubcast_off tx)
              (operand_ptr T (sddmm_use_rhs Op) vfeat
                 (cell 0 col ty * vfeat_len * reduce_size) reduce_size vbcast_off tx)
              reduce_size reduce_size))
            (seqZ 0 out_len))
       (seqZ 0 E).

(** The source row [SDDMMCsrKernel] computes for the position [ty], or
    -1 if the search faults. *)
Definition csr_src (T : IdxType) (indptr : list Z) (N ty : Z) : Z :=
  match BinarySearchSrc indptr (to_Idx T N) ty with
  | Ok src => src
  | _ => -1
  end.

(** The write of [SDDMMCsrKernel] for [ty] and [tx]. *)
Definition csr_write (T : IdxType) (Op : SddmmOp)
    (ufeat vfeat : option (list D)) (indptr indices : list Z)
    (edge_map : option (list Z)) (N reduce_size : Z)
    (ubcast_off vbcast_off : option (list Z))
    (ufeat_len vfeat_len out_len : Z) (ty tx : Z) : Z * D :=
  (edge_id edge_map ty * out_len + tx,
   ok_or dzero (BCall
     (operand_ptr T (sddmm_use_lhs Op) ufeat
        (csr_src T indptr N ty * ufeat_len) reduce_size ubcast_off tx)
     (operand_ptr T (sddmm_use_rhs Op) vfeat
        (cell 0 indices ty * vfeat_len) reduce_size vbcast_off tx)
     reduce_size reduce_size)).

Definition csr_kernel_ok (T : IdxType) (Op : SddmmOp)
    (ufeat vfeat : option (list D)) (out : list D)
    (indptr indices : list Z) (edge_map : option (list Z))
    (N E reduce_size : Z) (ubcast_off vbcast_off : option (list Z))
    (ufeat_len vfeat_len out_len : Z) : bool :=
  bool_decide (E ≤ Z.of_nat (length indices))
  && covers edge_map E
  && covers ubcast_off out_len
  && covers vbcast_off out_len
  && bool_decide (NoDup (edge_id edge_map <$> seqZ 0 E))
  && forallb (λ ty,
       is_ok (BinarySearchSrc indptr (to_Idx T N) ty)
       && bool_decide (0 ≤ edge_id edge_map ty
                       ∧ (edge_id edge_map ty + 1) * out_len ≤ Z.of_nat (length out))
       && forallb (λ tx,
            is_ok (BCall
              (operand_ptr T (sddmm_use_lhs Op) ufeat
                 (csr_src T indptr N ty * ufeat_len) reduce_size ubcast_off tx)
              (operand_ptr T (sddmm_use_rhs Op) vfeat
                 (cell 0 indices ty * vfeat_len) reduce_size vbcast_off tx)
              reduce_size reduce_size))
            (seqZ 0 out_len))
       (seqZ 0 E).

End DeviceSpecs.

(** ** More sample inputs *)

Definition out1z : NDArray Z := mkNDArray [3; 2] [0; 0; 0; 0; 0; 0].
Definition argz : list Z := [0; 0; 0; 0; 0; 0].

(** The nonzeros of [csr1] in the order of [csr1], as a COO matrix. *)
Definition coo1s : COOMatrix := mkCOO 3 3 [1; 2; 0; 2] [0; 0; 2; 2] None.

(** A stand-in for [BinaryOp::Call] in examples: the dot product of
    [len] elements behind the two pointers. *)
Definition sample_dot (lhs rhs : ptr Z) (len rhs_len : Z) : result Z :=
  for_loop 0 len (λ i acc,
    x ← deref (ptr_shift lhs i);
    y ← deref (ptr_shift rhs i);
    Ok (acc + x * y)) 0.

(** Node features for the SDDMM examples: 3 nodes, 2 features. *)
Definition nodes1 : option (list Z) := Some [1; 2; 10; 20; 100; 200].

(** An output buffer for 4 edges with 2 features each. *)
Definition edges_out1 : list Z := [0; 0; 0; 0; 0; 0; 0; 0].
Definition edges_nd1 : NDArray Z := mkNDArray [4; 2] edges_out1.

(** What [SDDMMCoo] and [SDDMMCsr] launch for the sample matrices, node
    features [uf1] on both sides and the output [edges_nd1]. *)
Definition launch_coo1 : Launch Z :=
  mkLaunch nodes1 nodes1 edges_out1 (Some [3; 0; 2; 1]) 3 3 4 1 None None 2 2 2
    (mkDim3 1 1) (mkDim3 2 512).
Definition launch_csr1 : Launch Z :=
  mkLaunch nodes1 nodes1 edges_out1 None 3 3 4 1 None None 2 2 2
    (mkDim3 4 1) (mkDim3 1 2).

(** A broadcast descriptor whose right operand has one dimension fewer
    than its output. *)
Definition info_short : BcastInfo := mkBcastInfo [0; 0] [0; 1] [4; 2] [3; 1] [3].

(** A second element type for examples, with what the floating-point
    types have and the integers lack: a NaN, which is below and above
    nothing, and a negative zero, which is neither below nor above the
    zero [Num 0] and is not the same value. *)
Inductive fnum : Type := NaN | NegZero | Num (z : Z).

Definition fnum_val (a : fnum) : option Z :=
  match a with
  | NaN => None
  | NegZero => Some 0
  | Num z => Some z
  end.

Definition fnum_ltb (a b : fnum) : bool :=
  match fnum_val a, fnum_val b with
  | Some x, Some y => x <? y
  | _, _ => false
  end.

Definition fnum_add (a b : fnum) : fnum :=
  match a, b with
  | NaN, _ | _, NaN => NaN
  | NegZero, NegZero => NegZero
  | NegZero, Num z | Num z, NegZero => Num z
  | Num x, Num y => Num (x + y)
  end.

Definition fnum_mul (a b : fnum) : fnum :=
  match a, b with
  | NaN, _ | _, NaN => NaN
  | NegZero, NegZero => Num 0
  | NegZero, Num z | Num z, NegZero => if z <? 0 then Num 0 else NegZero
  | Num x, Num y => Num (x * y)
  end.

Global Instance fnum_dtype : DTypeOps fnum := {|
  dzero := Num 0; dadd := fnum_add; dmul := fnum_mul; dltb := fnum_ltb;
  lowest := Num (- 2 ^ 63); highest := Num (2 ^ 63 - 1)
|}.

(** One row with the two neighbours 0 and 1, as a CSR matrix and as a
    COO matrix that lists the two nonzeros in the other order, with
    their edge ids; the features of the two nodes are the two zeros. *)
Definition csrF : CSRMatrix := mkCSR 1 2 [0; 2] [0; 1] None.
Definition cooF : COOMatrix := mkCOO 1 2 [1; 0] [0; 0] (Some [1; 0]).
Definition ufF : Tensor fnum := Some (mkNDArray [2; 1] [Num 0; NegZero]).
Definition outF : NDArray fnum := mkNDArray [1; 1] [Num 0].

(** * Buffers and loops *)

Section BufferLemmas.
Context {A : Type}.
Implicit Types (buf : list A) (i j : Z) (x d : A).

Lemma load_in_range d buf i :
  0 ≤ i < Z.of_nat (length buf) → load buf i = Ok (cell d buf i).
Proof.
  intros Hi. unfold load, cell. case_decide; [|lia].
  destruct (lookup_lt_is_Some_2 buf (Z.to_nat i)) as [x Hx]; [lia|].
  by rewrite Hx.
Qed.

Lemma load_Ok buf i x :
  load buf i = Ok x → 0 ≤ i < Z.of_nat (length buf) ∧ ∀ d, cell d buf i = x.
Proof.
  unfold load, cell. case_decide; [|done].
  destruct (buf !! Z.to_nat i) as [y|] eqn:Hy; [|done].
  intros [= ->]. apply lookup_lt_Some in Hy. split; [lia|done].
Qed.

Lemma store_in_range buf i x :
  0 ≤ i < Z.of_nat (length buf) → store buf i x = Ok (<[Z.to_nat i := x]> buf).
Proof. intros Hi. unfold store. by case_decide. Qed.

Lemma cell_insert_eq d buf i x :
  0 ≤ i < Z.of_nat (length buf) → cell d (<[Z.to_nat i := x]> buf) i = x.
Proof.
  intros Hi. unfold cell. case_decide; [|lia].
  rewrite list_lookup_insert_eq; [done|lia].
Qed.

Lemma cell_insert_ne d buf i j x :
  0 ≤ i → i ≠ j → cell d (<[Z.to_nat i := x]> buf) j = cell d buf j.
Proof.
  intros Hi Hne. unfold cell. case_decide; [|done].
  rewrite list_lookup_insert_ne; [done|lia].
Qed.

Lemma cell_lookup d buf i :
  0 ≤ i < Z.of_nat (length buf) → buf !! Z.to_nat i = Some (cell d buf i).
Proof.
  intros Hi. unfold cell. case_decide; [|lia].
  destruct (lookup_lt_is_Some_2 buf (Z.to_nat i)) as [x Hx]; [lia|].
  by rewrite Hx.
Qed.

(** Two buffers of one length with equal cells are equal. *)
Lemma cells_eq d buf1 buf2 :
  length buf1 = length buf2 →
  (∀ i, 0 ≤ i < Z.of_nat (length buf1) → cell d buf1 i = cell d buf2 i) →
  buf1 = buf2.
Proof.
  intros Hlen Hc. apply list_eq. intros n.
  destruct (decide (n < length buf1)%nat) as [Hn|Hn].
  - specialize (Hc (Z.of_nat n) ltac:(lia)).
    rewrite <- (Nat2Z.id n).
    rewrite (cell_lookup d buf1), (cell_lookup d buf2) by lia.
    by rewrite Hc.
  - rewrite !lookup_ge_None_2; [done|lia..].
Qed.
End BufferLemmas.

Section LoopLemmas.
Context {St : Type}.
Implicit Types (body : Z → St → result St) (s : St) (l : list Z).

Lemma iterM_app body l1 l2 s :
  iterM body (l1 ++ l2) s = s' ← iterM body l1 s; iterM body l2 s'.
Proof.
  revert s. induction l1 as [|i l1 IH]; intros s; simpl; [done|].
  destruct (body i s); simpl; auto.
Qed.

Lemma for_loop_none lo hi body s : hi ≤ lo → for_loop lo hi body s = Ok s.
Proof. intros. unfold for_loop. rewrite seqZ_nil; [done|lia]. Qed.

(** The invariant rule of a counted loop. *)
Lemma for_loop_inv (P : Z → St → Prop) lo hi body s :
  lo ≤ hi →
  P lo s →
  (∀ i s, lo ≤ i < hi → P i s → ∃ s', body i s = Ok s' ∧ P (i + 1) s') →
  ∃ s', for_loop lo hi body s = Ok s' ∧ P hi s'.
Proof.
  intros Hle H0 Hstep. unfold for_loop.
  assert (∀ n : nat, Z.of_nat n ≤ hi - lo →
    ∃ s', iterM body (seqZ lo (Z.of_nat n)) s = Ok s' ∧ P (lo + Z.of_nat n) s') as Hn.
  { induction n as [|n IH]; intros Hb.
    - exists s. simpl. by rewrite Z.add_0_r.
    - destruct IH as (s1 & Hrun & HP); [lia|].
      destruct (Hstep (lo + Z.of_nat n) s1) as (s2 & Hb2 & HP2); [lia|done|].
      exists s2. rewrite seqZ_S, iterM_app, Hrun. simpl. rewrite Hb2. simpl.
      split; [done|]. by replace (lo + Z.of_nat (S n)) with (lo + Z.of_nat n + 1) by lia. }
  destruct (Hn (Z.to_nat (hi - lo))) as (s' & Hrun & HP); [lia|].
  exists s'. rewrite Z2Nat.id in Hrun, HP by lia.
  split; [done|]. by replace hi with (lo + (hi - lo)) by lia.
Qed.

(** A loop whose body always succeeds with a value computed by [f] is
    a left fold of [f]. *)
Lemma iterM_pure body (f : St → Z → St) l s :
  (∀ i s, i ∈ l → body i s = Ok (f s i)) →
  iterM body l s = Ok (foldl f s l).
Proof.
  revert s. induction l as [|i l IH]; intros s Hb; simpl; [done|].
  rewrite Hb by left. simpl. apply IH. intros. apply Hb. by right.
Qed.

Lemma for_loop_pure body (f : St → Z → St) lo hi s :
  (∀ i s, lo ≤ i < hi → body i s = Ok (f s i)) →
  for_loop lo hi body s = Ok (foldl f s (seqZ lo (hi - lo))).
Proof.
  intros Hb. apply iterM_pure. intros i s' Hi. apply Hb.
  apply elem_of_seqZ in Hi. lia.
Qed.
End LoopLemmas.

Lemma seqZ_snoc m n : 0 ≤ n → seqZ m (n + 1) = seqZ m n ++ [m + n].
Proof.
  intros Hn. rewrite seqZ_app by lia. f_equal.
Qed.

Lemma foldl_mul_scale (a : Z) (l : list Z) : foldl Z.mul a l = a * foldl Z.mul 1 l.
Proof.
  revert a. induction l as [|x l IH]; intros a; simpl; [lia|].
  rewrite (IH (a * x)), (IH (1 * x)). ring.
Qed.

Lemma Numel_head sh r : head sh = Some r → Numel sh = r * feat_dim sh.
Proof.
  destruct sh as [|x sh]; [done|]. intros [= ->].
  change (foldl Z.mul (1 * r) sh = r * foldl Z.mul 1 sh).
  rewrite foldl_mul_scale. ring.
Qed.

(** The fill loops ([memset] to zero, initialisation to the identity of
    a compare operator). *)
Lemma fill_loop {A} (d x : A) (n : Z) (buf : list A) :
  n ≤ Z.of_nat (length buf) →
  ∃ buf', for_loop 0 n (λ i Obuf, store Obuf i x) buf = Ok buf'
    ∧ length buf' = length buf
    ∧ (∀ i, 0 ≤ i < n → cell d buf' i = x)
    ∧ (∀ i, n ≤ i → cell d buf' i = cell d buf i).
Proof.
  intros Hn. destruct (decide (0 ≤ n)) as [Hn0|Hn0]; last first.
  { rewrite for_loop_none by lia. exists buf. repeat split; try done; intros; lia. }
  apply (for_loop_inv (λ m b, length b = length buf
    ∧ (∀ i, 0 ≤ i < m → cell d b i = x)
    ∧ (∀ i, m ≤ i → cell d b i = cell d buf i))); [done| |].
  - repeat split; try done; intros; lia.
  - intros i b Hi (Hl & Hlo & Hhi).
    rewrite store_in_range by lia. eexists; split; [done|].
    split; [by rewrite length_insert|]. split.
    + intros j Hj. destruct (decide (j = i)) as [->|Hne].
      * apply cell_insert_eq. lia.
      * rewrite cell_insert_ne by lia. apply Hlo. lia.
    + intros j Hj. rewrite cell_insert_ne by lia. apply Hhi. lia.
Qed.

(** * Facts about well-formed sparse matrices *)

Lemma csr_wf_unpack csr :
  csr_wf csr = true →
  0 ≤ csr_num_rows csr
  ∧ Z.of_nat (length (csr_indptr csr)) = csr_num_rows csr + 1
  ∧ csr_row_start csr 0 = 0
  ∧ csr_row_start csr (csr_num_rows csr) = Z.of_nat (length (csr_indices csr))
  ∧ (∀ r, 0 ≤ r < csr_num_rows csr → csr_row_start csr r ≤ csr_row_end csr r)
  ∧ (∀ d, csr_data csr = Some d → length d = length (csr_indices csr)).
Proof.
  unfold csr_wf. rewrite !andb_true_iff, !bool_decide_eq_true.
  intros [[[[[? ?] ?] ?] Hmono] Hdata]. repeat split; try done.
  - intros r Hr. apply Is_true_true_2, forallb_True in Hmono.
    rewrite Forall_forall in Hmono.
    specialize (Hmono r). rewrite elem_of_seqZ, bool_decide_spec in Hmono.
    apply Hmono. lia.
  - intros d Hd. rewrite Hd in Hdata. by apply bool_decide_eq_true in Hdata.
Qed.

Lemma csr_row_end_start csr r : csr_row_end csr r = csr_row_start csr (r + 1).
Proof. done. Qed.

Lemma csr_start_mono csr r r' :
  csr_wf csr = true → 0 ≤ r ≤ r' → r' ≤ csr_num_rows csr →
  csr_row_start csr r ≤ csr_row_start csr r'.
Proof.
  intros Hwf [Hr Hrr'] Hn.
  destruct (csr_wf_unpack csr Hwf) as (_ & _ & _ & _ & Hmono & _).
  assert (∀ n : nat, r + Z.of_nat n ≤ csr_num_rows csr →
    csr_row_start csr r ≤ csr_row_start csr (r + Z.of_nat n)) as Hind.
  { induction n as [|n IH]; intros Hb.
    - by rewrite Z.add_0_r.
    - etrans; [apply IH; lia|].
      replace (r + Z.of_nat (S n)) with (r + Z.of_nat n + 1) by lia.
      rewrite <- csr_row_end_start. apply Hmono. lia. }
  replace r' with (r + Z.of_nat (Z.to_nat (r' - r))) by lia.
  apply Hind. lia.
Qed.

(** The range of a row lies inside [indices]. *)
Lemma csr_row_bounds csr r :
  csr_wf csr = true → 0 ≤ r < csr_num_rows csr →
  0 ≤ csr_row_start csr r ≤ csr_row_end csr r
  ∧ csr_row_end csr r ≤ Z.of_nat (length (csr_indices csr)).
Proof.
  intros Hwf Hr.
  destruct (csr_wf_unpack csr Hwf) as (_ & _ & H0 & Hn & Hmono & _).
  pose proof (csr_start_mono csr 0 r Hwf ltac:(lia) ltac:(lia)).
  pose proof (csr_start_mono csr (r + 1) (csr_num_rows csr) Hwf ltac:(lia) ltac:(lia)).
  rewrite csr_row_end_start in *. specialize (Hmono r Hr).
  rewrite csr_row_end_start in Hmono. lia.
Qed.

Lemma csr_load_indptr csr r :
  csr_wf csr = true → 0 ≤ r ≤ csr_num_rows csr →
  load (csr_indptr csr) r = Ok (csr_row_start csr r).
Proof.
  intros Hwf Hr. destruct (csr_wf_unpack csr Hwf) as (_ & Hlen & _).
  apply load_in_range. lia.
Qed.

Lemma csr_load_indices csr j :
  0 ≤ j < Z.of_nat (length (csr_indices csr)) →
  load (csr_indices csr) j = Ok (cell 0 (csr_indices csr) j).
Proof. apply load_in_range. Qed.

(** Edge id resolution on the CSR path. *)
Lemma csr_load_eid csr j :
  csr_wf csr = true → 0 ≤ j < Z.of_nat (length (csr_indices csr)) →
  (if negb (IsNullArray (csr_data csr))
   then deref ((if negb (IsNullArray (csr_data csr)) then csr_data csr else None) +ₚ j)
   else Ok j) = Ok (csr_eid csr j).
Proof.
  intros Hwf Hj. destruct (csr_wf_unpack csr Hwf) as (_ & _ & _ & _ & _ & Hd).
  unfold csr_eid. destruct (csr_data csr) as [d|]; simpl; [|done].
  apply load_in_range. rewrite (Hd d eq_refl). lia.
Qed.

Lemma csr_row_positions_spec csr r j :
  j ∈ csr_row_positions csr r ↔ csr_row_start csr r ≤ j < csr_row_end csr r.
Proof. unfold csr_row_positions. rewrite elem_of_seqZ. lia. Qed.

Lemma csr_nonzero_in csr r j :
  0 ≤ r < csr_num_rows csr → j ∈ csr_row_positions csr r →
  csr_nonzero csr r j ∈ csr_entries csr.
Proof.
  intros Hr Hj. unfold csr_entries. apply list_elem_of_bind.
  exists r. split.
  - unfold csr_row_entries. apply list_elem_of_fmap. eauto.
  - apply elem_of_seqZ. lia.
Qed.

Lemma coo_load_eid coo i :
  coo_wf coo = true → 0 ≤ i < Z.of_nat (length (coo_row coo)) →
  (if negb (IsNullArray (coo_data coo))
   then deref ((if negb (IsNullArray (coo_data coo)) then coo_data coo else None) +ₚ i)
   else Ok i) = Ok (coo_eid coo i).
Proof.
  unfold coo_wf. rewrite andb_true_iff. intros [_ Hd] Hi.
  unfold coo_eid. destruct (coo_data coo) as [d|]; simpl; [|done].
  apply bool_decide_eq_true in Hd. apply load_in_range. lia.
Qed.

Lemma coo_load_col coo i :
  coo_wf coo = true → 0 ≤ i < Z.of_nat (length (coo_row coo)) →
  load (coo_col coo) i = Ok (cell 0 (coo_col coo) i).
Proof.
  unfold coo_wf. rewrite andb_true_iff, bool_decide_eq_true. intros [Hc _] Hi.
  apply load_in_range. lia.
Qed.

Section KernelLemmas.
Context {D : Type} `{!DTypeOps D}.
Implicit Types (op : Op) (cmp : Cmp) (ufeat efeat : Tensor D) (e : nonzero).

Lemma operands_ok_elem op ufeat efeat dim es e :
  operands_ok op ufeat efeat dim es = true → e ∈ es →
  fits (use_lhs op) ufeat dim (nz_neighbor e) = true
  ∧ fits (use_rhs op) efeat dim (nz_eid e) = true.
Proof.
  unfold operands_ok. intros Hall He.
  apply Is_true_true_2, forallb_True in Hall. rewrite Forall_forall in Hall.
  specialize (Hall e He). apply Is_true_true_1 in Hall.
  by apply andb_true_iff in Hall.
Qed.

Lemma fits_deref (used : bool) (t : Tensor D) dim id k :
  used = true → fits used t dim id = true → 0 ≤ k < dim →
  deref ((if used then data_ptr t else None) +ₚ (id * dim + k))
  = Ok (cell dzero (tdata t) (id * dim + k)).
Proof.
  intros -> Hf Hk. unfold fits in Hf. destruct t as [nd|]; [|done].
  apply bool_decide_eq_true in Hf. simpl. apply load_in_range. nia.
Qed.

(** The operand fetch and combine step shared by the four SpMM
    kernels. *)
Lemma Call_contrib op ufeat efeat dim k tgt nbr eid :
  fits (use_lhs op) ufeat dim nbr = true →
  fits (use_rhs op) efeat dim eid = true →
  0 ≤ k < dim →
  Call op
    (if use_lhs op
     then (if use_lhs op then data_ptr ufeat else None) +ₚ (nbr * dim + k)
     else nullptr)
    (if use_rhs op
     then (if use_rhs op then data_ptr efeat else None) +ₚ (eid * dim + k)
     else nullptr)
  = Ok (contrib op ufeat efeat dim k (mkNz tgt nbr eid)).
Proof.
  intros Hl Hr Hk. unfold contrib.
  destruct op; simpl in *;
    rewrite ?(fits_deref true ufeat dim _ k eq_refl Hl Hk),
            ?(fits_deref true efeat dim _ k eq_refl Hr Hk); done.
Qed.

Lemma csr_position_ok op csr ufeat efeat dim r j :
  csr_wf csr = true →
  operands_ok op ufeat efeat dim (csr_entries csr) = true →
  0 ≤ r < csr_num_rows csr →
  csr_row_start csr r ≤ j < csr_row_end csr r →
  0 ≤ j < Z.of_nat (length (csr_indices csr))
  ∧ fits (use_lhs op) ufeat dim (nz_neighbor (csr_nonzero csr r j)) = true
  ∧ fits (use_rhs op) efeat dim (nz_eid (csr_nonzero csr r j)) = true.
Proof.
  intros Hwf Hok Hr Hj.
  pose proof (csr_row_bounds csr r Hwf Hr). split; [lia|].
  apply (operands_ok_elem op ufeat efeat dim _ _ Hok).
  apply csr_nonzero_in; [done|]. by apply csr_row_positions_spec.
Qed.

(** The accumulation loop of one output cell of [SpMMSumCsr]. *)
Lemma SpMMSumCsr_cell op csr ufeat efeat dim r k :
  csr_wf csr = true →
  operands_ok op ufeat efeat dim (csr_entries csr) = true →
  0 ≤ r < csr_num_rows csr → 0 ≤ k < dim →
  for_loop (csr_row_start csr r) (csr_row_end csr r) (λ j accum,
    cid ← load (csr_indices csr) j;
    eid ← (if negb (IsNullArray (csr_data csr))
           then deref ((if negb (IsNullArray (csr_data csr))
                        then csr_data csr else None) +ₚ j)
           else Ok j);
    v ← Call op
          (if use_lhs op
           then (if use_lhs op then data_ptr ufeat else None) +ₚ (cid * dim + k)
           else nullptr)
          (if use_rhs op
           then (if use_rhs op then data_ptr efeat else None) +ₚ (eid * dim + k)
           else nullptr);
    Ok (dadd accum v)) dzero
  = Ok (sum_of (contrib op ufeat efeat dim k <$> csr_row_entries csr r)).
Proof.
  intros Hwf Hok Hr Hk.
  rewrite (for_loop_pure _
    (λ accum j, dadd accum (contrib op ufeat efeat dim k (csr_nonzero csr r j)))).
  - unfold sum_of, csr_row_entries, csr_row_positions.
    by rewrite <- list_fmap_compose, foldl_fmap.
  - intros j accum Hj.
    destruct (csr_position_ok op csr ufeat efeat dim r j Hwf Hok Hr Hj)
      as (Hjr & Hl & Hrr).
    rewrite (csr_load_indices csr j Hjr). simpl.
    rewrite (csr_load_eid csr j Hwf Hjr). simpl.
    by rewrite (Call_contrib op ufeat efeat dim k r
                 (cell 0 (csr_indices csr) j) (csr_eid csr j) Hl Hrr Hk).
Qed.

(** What [SpMMSumCsr] leaves in the output buffer. *)
Lemma SpMMSumCsr_spec op csr ufeat efeat out :
  let dim := feat_dim (shape out) in
  csr_wf csr = true →
  operands_ok op ufeat efeat dim (csr_entries csr) = true →
  csr_num_rows csr * dim ≤ Z.of_nat (length (data out)) →
  ∃ Obuf, SpMMSumCsr op csr ufeat efeat out = Ok Obuf
    ∧ length Obuf = length (data out)
    ∧ (∀ r k, 0 ≤ r < csr_num_rows csr → 0 ≤ k < dim →
         cell dzero Obuf (r * dim + k)
         = sum_of (contrib op ufeat efeat dim k <$> csr_row_entries csr r)).
Proof.
  intros dim Hwf Hok Hlen.
  destruct (csr_wf_unpack csr Hwf) as (Hn & _).
  unfold SpMMSumCsr. cbv zeta. fold dim.
  pose (Prow := λ (r : Z) (Obuf : list D),
    length Obuf = length (data out)
    ∧ (∀ r' k, 0 ≤ r' < r → 0 ≤ k < dim →
         cell dzero Obuf (r' * dim + k)
         = sum_of (contrib op ufeat efeat dim k <$> csr_row_entries csr r'))).
  match goal with |- ∃ s', for_loop _ _ ?b _ = _ ∧ _ =>
    destruct (for_loop_inv Prow 0 (csr_num_rows csr) b (data out))
      as (Obuf & Hrun & HP) end; [done| |..].
  - unfold Prow. split; [done|]. intros; lia.
  - intros r O1 Hr (Hl1 & Hdone).
    rewrite (csr_load_indptr csr r Hwf) by lia. simpl.
    rewrite (csr_load_indptr csr (r + 1) Hwf) by lia. simpl.
    rewrite <- csr_row_end_start.
    destruct (decide (0 ≤ dim)) as [Hdim|Hdim]; last first.
    { rewrite for_loop_none by lia. eexists; split; [done|].
      split; [done|]. intros; lia. }
    pose (Pk := λ (k : Z) (Obuf : list D),
      length Obuf = length (data out)
      ∧ (∀ r' k', 0 ≤ r' < r → 0 ≤ k' < dim →
           cell dzero Obuf (r' * dim + k')
           = sum_of (contrib op ufeat efeat dim k' <$> csr_row_entries csr r'))
      ∧ (∀ k', 0 ≤ k' < k →
           cell dzero Obuf (r * dim + k')
           = sum_of (contrib op ufeat efeat dim k' <$> csr_row_entries csr r))).
    match goal with |- ∃ s', for_loop 0 dim ?b O1 = _ ∧ _ =>
      destruct (for_loop_inv Pk 0 dim b O1) as (O2 & Hrun2 & HP2) end; [done| |..].
    + unfold Pk. split; [done|]. split; [done|]. intros; lia.
    + intros k O3 Hk (Hl3 & Hprev & Hcur).
      rewrite (SpMMSumCsr_cell op csr ufeat efeat dim r k Hwf Hok Hr Hk). simpl.
      assert (0 ≤ r * dim + k < Z.of_nat (length O3)) as Hin by (rewrite Hl3; nia).
      rewrite store_in_range by done. eexists; split; [done|].
      split; [by rewrite length_insert|]. split.
      * intros r' k' Hr' Hk'. rewrite cell_insert_ne by nia. by apply Hprev.
      * intros k' Hk'. destruct (decide (k' = k)) as [->|Hne].
        -- by rewrite cell_insert_eq.
        -- rewrite cell_insert_ne by lia. apply Hcur. lia.
    + exists O2. split; [done|]. destruct HP2 as (Hl2 & Hprev & Hcur).
      split; [done|].
      intros r' k' Hr' Hk'. destruct (decide (r' = r)) as [->|Hne].
      * by apply Hcur.
      * apply Hprev; [lia|done].
  - exists Obuf. by destruct HP as (Hl & Hdone).
Qed.

Lemma targets_ok_elem rows es e :
  targets_ok rows es = true → e ∈ es → 0 ≤ nz_target e < rows.
Proof.
  unfold targets_ok. intros Hall He.
  apply Is_true_true_2, forallb_True in Hall. rewrite Forall_forall in Hall.
  specialize (Hall e He). by apply bool_decide_spec in Hall.
Qed.

Lemma out_ok_unpack rows (out : NDArray D) :
  out_ok rows out = true →
  0 ≤ feat_dim (shape out)
  ∧ Numel (shape out) = rows * feat_dim (shape out)
  ∧ Z.of_nat (length (data out)) = rows * feat_dim (shape out).
Proof.
  unfold out_ok. rewrite !andb_true_iff, !bool_decide_eq_true.
  intros [[Hd Hh] Hl]. apply Numel_head in Hh. rewrite Hl. done.
Qed.

(** The scatter of one nonzero by [SpMMSumCoo]: the [k] loop. *)
Lemma SpMMSumCoo_scatter op ufeat efeat dim tgt nbr eid (O1 : list D) :
  fits (use_lhs op) ufeat dim nbr = true →
  fits (use_rhs op) efeat dim eid = true →
  0 ≤ tgt → (tgt + 1) * dim ≤ Z.of_nat (length O1) →
  ∃ O2,
    for_loop 0 dim (λ k Obuf,
      val ← Call op
              (if use_lhs op
               then (if use_lhs op then data_ptr ufeat else None) +ₚ (nbr * dim + k)
               else nullptr)
              (if use_rhs op
               then (if use_rhs op then data_ptr efeat else None) +ₚ (eid * dim + k)
               else nullptr);
      cur ← load Obuf (tgt * dim + k);
      store Obuf (tgt * dim + k) (dadd cur val)) O1 = Ok O2
    ∧ length O2 = length O1
    ∧ (∀ k, 0 ≤ k < dim →
         cell dzero O2 (tgt * dim + k)
         = dadd (cell dzero O1 (tgt * dim + k))
                (contrib op ufeat efeat dim k (mkNz tgt nbr eid)))
    ∧ (∀ i, ¬ (tgt * dim ≤ i < tgt * dim + dim) → cell dzero O2 i = cell dzero O1 i).
Proof.
  intros Hl Hr Ht Hlen.
  destruct (decide (0 ≤ dim)) as [Hdim|Hdim]; last first.
  { rewrite for_loop_none by lia. exists O1. repeat split; try done; intros; lia. }
  apply (for_loop_inv (λ k Obuf, length Obuf = length O1
    ∧ (∀ k', 0 ≤ k' < k →
         cell dzero Obuf (tgt * dim + k')
         = dadd (cell dzero O1 (tgt * dim + k'))
                (contrib op ufeat efeat dim k' (mkNz tgt nbr eid)))
    ∧ (∀ i, ¬ (tgt * dim ≤ i < tgt * dim + k) → cell dzero Obuf i = cell dzero O1 i)));
    [done| |].
  - repeat split; try done; intros; lia.
  - intros k Ob Hk (HlO & Hlo & Hrest).
    rewrite (Call_contrib op ufeat efeat dim k tgt nbr eid Hl Hr Hk). simpl.
    assert (0 ≤ tgt * dim + k < Z.of_nat (length Ob)) as Hin by (rewrite HlO; nia).
    rewrite (load_in_range dzero) by done. simpl.
    rewrite store_in_range by done. eexists; split; [done|].
    split; [by rewrite length_insert|]. split.
    + intros k' Hk'. destruct (decide (k' = k)) as [->|Hne].
      * rewrite cell_insert_eq by done. f_equal. apply Hrest. lia.
      * rewrite cell_insert_ne by lia. apply Hlo. lia.
    + intros i Hi. rewrite cell_insert_ne by lia. apply Hrest. lia.
Qed.

Lemma sum_of_snoc (vals : list D) (v : D) : sum_of (vals ++ [v]) = dadd (sum_of vals) v.
Proof. unfold sum_of. by rewrite foldl_app. Qed.

Lemma entries_for_snoc c es e :
  entries_for c (es ++ [e])
  = if decide (nz_target e = c) then entries_for c es ++ [e] else entries_for c es.
Proof.
  unfold entries_for. rewrite filter_app.
  case_decide.
  - by rewrite filter_cons_True.
  - rewrite filter_cons_False by done. by rewrite app_nil_r.
Qed.

Lemma coo_prefix_snoc coo i :
  0 ≤ i →
  coo_nonzero coo <$> seqZ 0 (i + 1)
  = (coo_nonzero coo <$> seqZ 0 i) ++ [coo_nonzero coo i].
Proof. intros Hi. by rewrite seqZ_snoc, fmap_app by done. Qed.

Lemma coo_nonzero_in coo i :
  0 ≤ i < Z.of_nat (length (coo_row coo)) → coo_nonzero coo i ∈ coo_entries coo.
Proof.
  intros Hi. unfold coo_entries. apply list_elem_of_fmap_2, elem_of_seqZ. lia.
Qed.

(** What [SpMMSumCoo] leaves in the output buffer. *)
Lemma SpMMSumCoo_spec op coo ufeat efeat out rows :
  let dim := feat_dim (shape out) in
  coo_wf coo = true →
  operands_ok op ufeat efeat dim (coo_entries coo) = true →
  targets_ok rows (coo_entries coo) = true →
  out_ok rows out = true →
  ∃ Obuf, SpMMSumCoo op coo ufeat efeat out = Ok Obuf
    ∧ length Obuf = length (data out)
    ∧ (∀ c k, 0 ≤ c < rows → 0 ≤ k < dim →
         cell dzero Obuf (c * dim + k)
         = sum_of (contrib op ufeat efeat dim k <$> entries_for c (coo_entries coo))).
Proof.
  intros dim Hwf Hok Htg Hout.
  destruct (out_ok_unpack rows out Hout) as (Hdim & Hnumel & Hlen). fold dim in Hdim, Hnumel, Hlen.
  unfold SpMMSumCoo. cbv zeta. fold dim.
  destruct (fill_loop dzero dzero (Numel (shape out)) (data out)) as (O0 & Hfill & Hl0 & Hz & _);
    [lia|].
  rewrite Hfill. simpl.
  pose (P := λ (i : Z) (Obuf : list D),
    length Obuf = length (data out)
    ∧ (∀ c k, 0 ≤ c < rows → 0 ≤ k < dim →
         cell dzero Obuf (c * dim + k)
         = sum_of (contrib op ufeat efeat dim k
                     <$> entries_for c (coo_nonzero coo <$> seqZ 0 i)))).
  match goal with |- ∃ s', for_loop _ ?n ?b _ = _ ∧ _ =>
    destruct (for_loop_inv P 0 n b O0) as (Obuf & Hrun & HP) end; [lia| |..].
  - split; [done|]. intros c k Hc Hk. apply Hz. nia.
  - intros i O1 Hi (Hl1 & Hcells).
    pose proof (coo_nonzero_in coo i Hi) as Hin.
    destruct (operands_ok_elem op ufeat efeat dim _ _ Hok Hin) as (Hfl & Hfr).
    pose proof (targets_ok_elem rows _ _ Htg Hin) as Ht.
    rewrite (load_in_range 0 (coo_row coo) i Hi). simpl.
    rewrite (coo_load_col coo i Hwf Hi). simpl.
    rewrite (coo_load_eid coo i Hwf Hi). simpl.
    destruct (SpMMSumCoo_scatter op ufeat efeat dim
                (cell 0 (coo_col coo) i) (cell 0 (coo_row coo) i) (coo_eid coo i) O1
                Hfl Hfr) as (O2 & Hsc & Hl2 & Hnew & Hold).
    { apply Ht. }
    { rewrite Hl1. simpl in Ht. nia. }
    exists O2. split; [done|]. split; [congruence|].
    intros c k Hc Hk. rewrite coo_prefix_snoc, entries_for_snoc by lia.
    change (mkNz (cell 0 (coo_col coo) i) (cell 0 (coo_row coo) i) (coo_eid coo i))
      with (coo_nonzero coo i) in Hnew.
    case_decide as Hcase.
    + rewrite fmap_app.
      change (contrib op ufeat efeat dim k <$> [coo_nonzero coo i])
        with [contrib op ufeat efeat dim k (coo_nonzero coo i)].
      rewrite sum_of_snoc. simpl in Hcase. rewrite <- Hcase.
      rewrite Hnew by done. f_equal. rewrite Hcase. by apply Hcells.
    + rewrite Hold; [by apply Hcells|]. simpl in Hcase. nia.
  - exists Obuf. by destruct HP.
Qed.

Lemma cond_store (used : bool) (buf : list Z) i x :
  (used = true → 0 ≤ i < Z.of_nat (length buf)) →
  (if used then store buf i x else Ok buf) = Ok (upd used buf i x).
Proof. intros Hi. destruct used; simpl; [|done]. by rewrite store_in_range by auto. Qed.

Lemma upd_length used buf i x : length (upd used buf i x) = length buf.
Proof. destruct used; simpl; [apply length_insert|done]. Qed.

Lemma cell_upd_eq used buf i x :
  0 ≤ i < Z.of_nat (length buf) →
  cell 0 (upd used buf i x) i = if used then x else cell 0 buf i.
Proof. intros Hi. destruct used; simpl; [by apply cell_insert_eq|done]. Qed.

Lemma cell_upd_ne used buf i j x :
  0 ≤ i → i ≠ j → cell 0 (upd used buf i x) j = cell 0 buf j.
Proof. intros Hi Hne. destruct used; simpl; [by apply cell_insert_ne|done]. Qed.

Lemma upd_unused buf i x : upd false buf i x = buf.
Proof. done. Qed.

Lemma arg_ok_bound used n arg i :
  arg_ok used n arg = true → 0 ≤ i < n → used = true → 0 ≤ i < Z.of_nat (length arg).
Proof. intros Ha Hi ->. simpl in Ha. apply bool_decide_eq_true in Ha. lia. Qed.

(** The compare loop of one output cell of [SpMMCmpCsr]. *)
Lemma SpMMCmpCsr_cell op cmp csr ufeat efeat dim r k :
  csr_wf csr = true →
  operands_ok op ufeat efeat dim (csr_entries csr) = true →
  0 ≤ r < csr_num_rows csr → 0 ≤ k < dim →
  for_loop (S := D * Z * Z) (csr_row_start csr r) (csr_row_end csr r)
    (λ j '(accum, ax, aw),
      cid ← load (csr_indices csr) j;
      eid ← (if negb (IsNullArray (csr_data csr))
             then deref ((if negb (IsNullArray (csr_data csr))
                          then csr_data csr else None) +ₚ j)
             else Ok j);
      val ← Call op
              (if use_lhs op
               then (if use_lhs op then data_ptr ufeat else None) +ₚ (cid * dim + k)
               else nullptr)
              (if use_rhs op
               then (if use_rhs op then data_ptr efeat else None) +ₚ (eid * dim + k)
               else nullptr);
      if cmp_Call cmp accum val then
        Ok (val, (if use_lhs op then cid else ax),
                 (if use_rhs op then eid else aw))
      else Ok (accum, ax, aw)) (cmp_zero cmp, 0, 0)
  = Ok (cmp_reduce op cmp ufeat efeat dim k (cmp_zero cmp, 0, 0)
          (csr_row_entries csr r)).
Proof.
  intros Hwf Hok Hr Hk.
  rewrite (for_loop_pure _
    (λ st j, cmp_step op cmp ufeat efeat dim k st (csr_nonzero csr r j))).
  - unfold cmp_reduce, csr_row_entries, csr_row_positions.
    by rewrite foldl_fmap.
  - intros j [[accum ax] aw] Hj.
    destruct (csr_position_ok op csr ufeat efeat dim r j Hwf Hok Hr Hj)
      as (Hjr & Hl & Hrr).
    rewrite (csr_load_indices csr j Hjr). simpl.
    rewrite (csr_load_eid csr j Hwf Hjr). simpl.
    rewrite (Call_contrib op ufeat efeat dim k r
               (cell 0 (csr_indices csr) j) (csr_eid csr j) Hl Hrr Hk). simpl.
    unfold cmp_step. simpl.
    by destruct (cmp_Call cmp accum _).
Qed.

(** What [SpMMCmpCsr] leaves in the output and argument buffers. *)
Lemma SpMMCmpCsr_spec op cmp csr ufeat efeat out argu arge :
  let dim := feat_dim (shape out) in
  csr_wf csr = true →
  operands_ok op ufeat efeat dim (csr_entries csr) = true →
  csr_num_rows csr * dim ≤ Z.of_nat (length (data out)) →
  arg_ok (use_lhs op) (csr_num_rows csr * dim) argu = true →
  arg_ok (use_rhs op) (csr_num_rows csr * dim) arge = true →
  ∃ Obuf argX argW,
    SpMMCmpCsr op cmp csr ufeat efeat out argu arge = Ok (Obuf, argX, argW)
    ∧ length Obuf = length (data out)
    ∧ length argX = length argu
    ∧ length argW = length arge
    ∧ (∀ r k, 0 ≤ r < csr_num_rows csr → 0 ≤ k < dim →
         let res := cmp_reduce op cmp ufeat efeat dim k (cmp_zero cmp, 0, 0)
                      (csr_row_entries csr r) in
         cell dzero Obuf (r * dim + k) = res.1.1
         ∧ (use_lhs op = true → cell 0 argX (r * dim + k) = res.1.2)
         ∧ (use_rhs op = true → cell 0 argW (r * dim + k) = res.2))
    ∧ (use_lhs op = false → argX = argu)
    ∧ (use_rhs op = false → argW = arge).
Proof.
  intros dim Hwf Hok Hlen Hau Hae.
  destruct (csr_wf_unpack csr Hwf) as (Hn & _).
  unfold SpMMCmpCsr. cbv zeta. fold dim.
  pose (cell_ok := λ (st : list D * list Z * list Z) (r k : Z),
    let res := cmp_reduce op cmp ufeat efeat dim k (cmp_zero cmp, 0, 0)
                 (csr_row_entries csr r) in
    cell dzero st.1.1 (r * dim + k) = res.1.1
    ∧ (use_lhs op = true → cell 0 st.1.2 (r * dim + k) = res.1.2)
    ∧ (use_rhs op = true → cell 0 st.2 (r * dim + k) = res.2)).
  pose (frame_ok := λ (st : list D * list Z * list Z),
    length st.1.1 = length (data out)
    ∧ length st.1.2 = length argu
    ∧ length st.2 = length arge
    ∧ (use_lhs op = false → st.1.2 = argu)
    ∧ (use_rhs op = false → st.2 = arge)).
  pose (Prow := λ (r : Z) (st : list D * list Z * list Z),
    frame_ok st
    ∧ (∀ r' k, 0 ≤ r' < r → 0 ≤ k < dim → cell_ok st r' k)).
  match goal with |- ∃ _ _ _, for_loop _ _ ?b ?s0 = _ ∧ _ =>
    destruct (for_loop_inv Prow 0 (csr_num_rows csr) b s0)
      as ([[Obuf argX] argW] & Hrun & HP) end; [done| |..].
  - split; [by unfold frame_ok|]. intros; lia.
  - intros r st1 Hr (Hf1 & Hdone).
    rewrite (csr_load_indptr csr r Hwf) by lia. simpl.
    rewrite (csr_load_indptr csr (r + 1) Hwf) by lia. simpl.
    rewrite <- csr_row_end_start.
    destruct (decide (0 ≤ dim)) as [Hdim|Hdim]; last first.
    { rewrite for_loop_none by lia. eexists; split; [done|].
      split; [done|]. intros; lia. }
    pose (Pk := λ (k : Z) (st : list D * list Z * list Z),
      frame_ok st
      ∧ (∀ r' k', 0 ≤ r' < r → 0 ≤ k' < dim → cell_ok st r' k')
      ∧ (∀ k', 0 ≤ k' < k → cell_ok st r k')).
    match goal with |- ∃ s', for_loop 0 dim ?b st1 = _ ∧ _ =>
      destruct (for_loop_inv Pk 0 dim b st1) as (st2 & Hrun2 & HP2) end; [done| |..].
    + split; [done|]. split; [done|]. intros; lia.
    + intros k [[O3 X3] W3] Hk ((Hl3 & HlX & HlW & HuX & HuW) & Hprev & Hcur).
      simpl in Hl3, HlX, HlW, HuX, HuW.
      rewrite (SpMMCmpCsr_cell op cmp csr ufeat efeat dim r k Hwf Hok Hr Hk). simpl.
      destruct (cmp_reduce op cmp ufeat efeat dim k (cmp_zero cmp, 0, 0)
                  (csr_row_entries csr r)) as [[v ax] aw] eqn:Hres.
      assert (0 ≤ r * dim + k < csr_num_rows csr * dim) as Hin by nia.
      assert (0 ≤ r * dim + k < Z.of_nat (length O3)) as HinO by (rewrite Hl3; nia).
      rewrite (store_in_range O3) by done. simpl.
      rewrite (cond_store (use_lhs op) X3)
        by (intros; rewrite HlX; eapply arg_ok_bound; [apply Hau|done..]).
      simpl.
      rewrite (cond_store (use_rhs op) W3)
        by (intros; rewrite HlW; eapply arg_ok_bound; [apply Hae|done..]).
      simpl. eexists; split; [done|].
      split; [|split].
      * unfold frame_ok. simpl. rewrite length_insert, !upd_length.
        repeat split; try done.
        -- intros Hu. rewrite Hu. by apply HuX.
        -- intros Hu. rewrite Hu. by apply HuW.
      * intros r' k' Hr' Hk'. specialize (Hprev r' k' Hr' Hk').
        unfold cell_ok in *. simpl in *.
        rewrite cell_insert_ne, !cell_upd_ne by nia. done.
      * intros k' Hk'. destruct (decide (k' = k)) as [->|Hne].
        -- unfold cell_ok. simpl. rewrite Hres. simpl.
           rewrite cell_insert_eq by done.
           split; [done|]. split; intros Hu.
           ++ rewrite cell_upd_eq, Hu; [done|].
              rewrite HlX. eapply arg_ok_bound; [apply Hau|done..].
           ++ rewrite cell_upd_eq, Hu; [done|].
              rewrite HlW. eapply arg_ok_bound; [apply Hae|done..].
        -- specialize (Hcur k' ltac:(lia)). unfold cell_ok in *. simpl in *.
           rewrite cell_insert_ne, !cell_upd_ne by lia. done.
    + exists st2. split; [done|]. destruct HP2 as (Hf2 & Hprev & Hcur).
      split; [done|].
      intros r' k' Hr' Hk'. destruct (decide (r' = r)) as [->|Hne].
      * by apply Hcur.
      * apply Hprev; [lia|done].
  - exists Obuf, argX, argW. destruct HP as ((? & ? & ? & ? & ?) & Hcells).
    repeat split; try done; by apply Hcells.
Qed.

Lemma cell_upd_used used buf i x :
  (used = true → 0 ≤ i < Z.of_nat (length buf)) →
  cell 0 (upd used buf i x) i = if used then x else cell 0 buf i.
Proof. intros Hi. destruct used; simpl; [by apply cell_insert_eq, Hi|done]. Qed.

Lemma cmp_reduce_snoc op cmp ufeat efeat dim k init es e :
  cmp_reduce op cmp ufeat efeat dim k init (es ++ [e])
  = cmp_step op cmp ufeat efeat dim k (cmp_reduce op cmp ufeat efeat dim k init es) e.
Proof. unfold cmp_reduce. by rewrite foldl_app. Qed.

(** The scatter of one nonzero by [SpMMCmpCoo]: the [k] loop. *)
Lemma SpMMCmpCoo_scatter op cmp ufeat efeat dim tgt nbr eid
    (st1 : list D * list Z * list Z) :
  fits (use_lhs op) ufeat dim nbr = true →
  fits (use_rhs op) efeat dim eid = true →
  0 ≤ tgt → (tgt + 1) * dim ≤ Z.of_nat (length st1.1.1) →
  arg_ok (use_lhs op) ((tgt + 1) * dim) st1.1.2 = true →
  arg_ok (use_rhs op) ((tgt + 1) * dim) st1.2 = true →
  ∃ st2,
    for_loop (S := list D * list Z * list Z) 0 dim (λ k '(Obuf, argX, argW),
      val ← Call op
              (if use_lhs op
               then (if use_lhs op then data_ptr ufeat else None) +ₚ (nbr * dim + k)
               else nullptr)
              (if use_rhs op
               then (if use_rhs op then data_ptr efeat else None) +ₚ (eid * dim + k)
               else nullptr);
      cur ← load Obuf (tgt * dim + k);
      if cmp_Call cmp cur val then
        Obuf ← store Obuf (tgt * dim + k) val;
        argX ← (if use_lhs op then store argX (tgt * dim + k) nbr else Ok argX);
        argW ← (if use_rhs op then store argW (tgt * dim + k) eid else Ok argW);
        Ok (Obuf, argX, argW)
      else Ok (Obuf, argX, argW)) st1 = Ok st2
    ∧ (length st2.1.1 = length st1.1.1
       ∧ length st2.1.2 = length st1.1.2
       ∧ length st2.2 = length st1.2)
    ∧ (∀ k, 0 ≤ k < dim →
         cells3 st2 (tgt * dim + k)
         = cmp_step op cmp ufeat efeat dim k (cells3 st1 (tgt * dim + k))
             (mkNz tgt nbr eid))
    ∧ (∀ i, ¬ (tgt * dim ≤ i < tgt * dim + dim) → cells3 st2 i = cells3 st1 i).
Proof.
  intros Hl Hr Ht Hlen Hax Haw.
  destruct (decide (0 ≤ dim)) as [Hdim|Hdim]; last first.
  { rewrite for_loop_none by lia. exists st1. repeat split; try done; intros; lia. }
  apply (for_loop_inv (λ k st,
    (length st.1.1 = length st1.1.1
     ∧ length st.1.2 = length st1.1.2
     ∧ length st.2 = length st1.2)
    ∧ (∀ k', 0 ≤ k' < k →
         cells3 st (tgt * dim + k')
         = cmp_step op cmp ufeat efeat dim k' (cells3 st1 (tgt * dim + k'))
             (mkNz tgt nbr eid))
    ∧ (∀ i, ¬ (tgt * dim ≤ i < tgt * dim + k) → cells3 st i = cells3 st1 i)));
    [done| |].
  - repeat split; try done; intros; lia.
  - intros k [[Ob Xb] Wb] Hk ((HlO & HlX & HlW) & Hlo & Hrest).
    simpl in HlO, HlX, HlW.
    rewrite (Call_contrib op ufeat efeat dim k tgt nbr eid Hl Hr Hk). simpl.
    assert (0 ≤ tgt * dim + k < (tgt + 1) * dim) as Hin by nia.
    assert (0 ≤ tgt * dim + k < Z.of_nat (length Ob)) as HinO by (rewrite HlO; lia).
    assert (use_lhs op = true → 0 ≤ tgt * dim + k < Z.of_nat (length Xb)) as HinX.
    { intros Hu. rewrite HlX. eapply arg_ok_bound; [apply Hax|done..]. }
    assert (use_rhs op = true → 0 ≤ tgt * dim + k < Z.of_nat (length Wb)) as HinW.
    { intros Hu. rewrite HlW. eapply arg_ok_bound; [apply Haw|done..]. }
    rewrite (load_in_range dzero Ob) by done. simpl.
    pose proof (Hrest (tgt * dim + k) ltac:(lia)) as Hsame.
    unfold cells3 in Hsame. simpl in Hsame.
    injection Hsame as HsO HsX HsW.
    destruct (cmp_Call cmp (cell dzero Ob (tgt * dim + k))
                (contrib op ufeat efeat dim k (mkNz tgt nbr eid))) eqn:Hcmp.
    + rewrite (store_in_range Ob) by done. simpl.
      rewrite (cond_store (use_lhs op) Xb) by done. simpl.
      rewrite (cond_store (use_rhs op) Wb) by done. simpl.
      eexists; split; [done|]. simpl.
      split; [by rewrite length_insert, !upd_length|]. split.
      * intros k' Hk'. destruct (decide (k' = k)) as [->|Hne].
        -- unfold cells3, cmp_step. simpl.
           rewrite <- HsO, Hcmp.
           rewrite cell_insert_eq, !cell_upd_used by done.
           by rewrite HsX, HsW.
        -- rewrite <- Hlo by lia. unfold cells3. simpl.
           by rewrite cell_insert_ne, !cell_upd_ne by lia.
      * intros i Hi. rewrite <- Hrest by lia. unfold cells3. simpl.
        by rewrite cell_insert_ne, !cell_upd_ne by lia.
    + eexists; split; [done|]. simpl. split; [done|]. split.
      * intros k' Hk'. destruct (decide (k' = k)) as [->|Hne].
        -- unfold cells3, cmp_step. simpl. rewrite <- HsO, Hcmp.
           by rewrite HsX, HsW.
        -- apply Hlo. lia.
      * intros i Hi. apply Hrest. lia.
Qed.

Lemma arg_ok_mono used n m (arg arg' : list Z) :
  arg_ok used n arg = true → m ≤ n → length arg' = length arg →
  arg_ok used m arg' = true.
Proof.
  intros Ha Hm Hl. destruct used; simpl in *; [|done].
  apply bool_decide_eq_true in Ha. apply bool_decide_eq_true. lia.
Qed.

(** What [SpMMCmpCoo] leaves in the output and argument buffers. *)
Lemma SpMMCmpCoo_spec op cmp coo ufeat efeat out argu arge rows :
  let dim := feat_dim (shape out) in
  coo_wf coo = true →
  operands_ok op ufeat efeat dim (coo_entries coo) = true →
  targets_ok rows (coo_entries coo) = true →
  out_ok rows out = true →
  arg_ok (use_lhs op) (rows * dim) argu = true →
  arg_ok (use_rhs op) (rows * dim) arge = true →
  ∃ Obuf argX argW,
    SpMMCmpCoo op cmp coo ufeat efeat out argu arge = Ok (Obuf, argX, argW)
    ∧ (length Obuf = length (data out)
       ∧ length argX = length argu
       ∧ length argW = length arge)
    ∧ (∀ c k, 0 ≤ c < rows → 0 ≤ k < dim →
         cells3 (Obuf, argX, argW) (c * dim + k)
         = cmp_reduce op cmp ufeat efeat dim k
             (cmp_zero cmp, cell 0 argu (c * dim + k), cell 0 arge (c * dim + k))
             (entries_for c (coo_entries coo)))
    ∧ (∀ i, rows * dim ≤ i →
         cell 0 argX i = cell 0 argu i ∧ cell 0 argW i = cell 0 arge i).
Proof.
  intros dim Hwf Hok Htg Hout Hau Hae.
  destruct (out_ok_unpack rows out Hout) as (Hdim & Hnumel & Hlen).
  fold dim in Hdim, Hnumel, Hlen.
  unfold SpMMCmpCoo. cbv zeta. fold dim.
  destruct (fill_loop dzero (cmp_zero cmp) (Numel (shape out)) (data out))
    as (O0 & Hfill & Hl0 & Hz & _); [lia|].
  rewrite Hfill. simpl.
  pose (P := λ (i : Z) (st : list D * list Z * list Z),
    (length st.1.1 = length (data out)
     ∧ length st.1.2 = length argu
     ∧ length st.2 = length arge)
    ∧ (∀ c k, 0 ≤ c < rows → 0 ≤ k < dim →
         cells3 st (c * dim + k)
         = cmp_reduce op cmp ufeat efeat dim k
             (cmp_zero cmp, cell 0 argu (c * dim + k), cell 0 arge (c * dim + k))
             (entries_for c (coo_nonzero coo <$> seqZ 0 i)))
    ∧ (∀ i, rows * dim ≤ i →
         cell 0 st.1.2 i = cell 0 argu i ∧ cell 0 st.2 i = cell 0 arge i)).
  match goal with |- ∃ _ _ _, for_loop _ ?n ?b ?s0 = _ ∧ _ =>
    destruct (for_loop_inv P 0 n b s0) as ([[Obuf argX] argW] & Hrun & HP) end;
    [lia| |..].
  - split; [done|]. split; [|done].
    intros c k Hc Hk. unfold cells3. simpl. rewrite Hz by nia. done.
  - intros i [[O1 X1] W1] Hi ((Hl1 & HlX & HlW) & Hcells & Hframe).
    simpl in Hl1, HlX, HlW, Hframe.
    pose proof (coo_nonzero_in coo i Hi) as Hin.
    destruct (operands_ok_elem op ufeat efeat dim _ _ Hok Hin) as (Hfl & Hfr).
    pose proof (targets_ok_elem rows _ _ Htg Hin) as Ht. simpl in Ht.
    rewrite (load_in_range 0 (coo_row coo) i Hi). simpl.
    rewrite (coo_load_col coo i Hwf Hi). simpl.
    rewrite (coo_load_eid coo i Hwf Hi). simpl.
    destruct (SpMMCmpCoo_scatter op cmp ufeat efeat dim
                (cell 0 (coo_col coo) i) (cell 0 (coo_row coo) i) (coo_eid coo i)
                (O1, X1, W1) Hfl Hfr)
      as ([[O2 X2] W2] & Hsc & (Hl2 & HlX2 & HlW2) & Hnew & Hold).
    { apply Ht. }
    { simpl. rewrite Hl1. nia. }
    { apply (arg_ok_mono _ (rows * dim) _ argu); [done|nia|done]. }
    { apply (arg_ok_mono _ (rows * dim) _ arge); [done|nia|done]. }
    simpl in Hl2, HlX2, HlW2.
    exists (O2, X2, W2). split; [done|]. split; [simpl; split_and!; congruence|].
    change (mkNz (cell 0 (coo_col coo) i) (cell 0 (coo_row coo) i) (coo_eid coo i))
      with (coo_nonzero coo i) in Hnew.
    split.
    + intros c k Hc Hk. rewrite coo_prefix_snoc, entries_for_snoc by lia.
      case_decide as Hcase; simpl in Hcase.
      * rewrite cmp_reduce_snoc, <- Hcase, Hnew by done.
        f_equal. rewrite Hcase. by apply Hcells.
      * rewrite Hold by nia. by apply Hcells.
    + intros j Hj. specialize (Hold j ltac:(nia)). unfold cells3 in Hold.
      simpl in Hold. injection Hold as _ HX HW. simpl. rewrite HX, HW.
      by apply Hframe.
  - exists Obuf, argX, argW. destruct HP as (? & ? & ?). done.
Qed.

(** ** Rows of a CSR matrix among all its nonzeros *)

Lemma entries_for_row_same csr r :
  entries_for r (csr_row_entries csr r) = csr_row_entries csr r.
Proof.
  unfold entries_for, csr_row_entries.
  induction (csr_row_positions csr r) as [|j l IH]; [done|].
  rewrite fmap_cons, filter_cons_True by done. by rewrite IH.
Qed.

Lemma entries_for_row_other csr r r' :
  r' ≠ r → entries_for r (csr_row_entries csr r') = [].
Proof.
  intros Hne. unfold entries_for, csr_row_entries.
  induction (csr_row_positions csr r') as [|j l IH]; [done|].
  rewrite fmap_cons, filter_cons_False by done. by rewrite IH.
Qed.

Lemma entries_for_rows_other csr r (rows : list Z) :
  r ∉ rows → entries_for r (rows ≫= csr_row_entries csr) = [].
Proof.
  induction rows as [|r' rows IH]; intros Hnin; [done|].
  apply not_elem_of_cons in Hnin as [Hne Hnin].
  change ((r' :: rows) ≫= csr_row_entries csr)
    with (csr_row_entries csr r' ++ (rows ≫= csr_row_entries csr)).
  unfold entries_for. rewrite filter_app.
  fold (entries_for r (csr_row_entries csr r')).
  fold (entries_for r (rows ≫= csr_row_entries csr)).
  by rewrite entries_for_row_other, IH by done.
Qed.

(** The nonzeros of a CSR matrix aggregated into row [r] are the
    nonzeros of the range of [r]. *)
Lemma entries_for_csr csr r :
  0 ≤ r < csr_num_rows csr →
  entries_for r (csr_entries csr) = csr_row_entries csr r.
Proof.
  intros Hr. unfold csr_entries.
  replace (csr_num_rows csr) with (r + (1 + (csr_num_rows csr - r - 1))) by lia.
  rewrite seqZ_app, (seqZ_app (0 + r)) by lia.
  rewrite !bind_app. unfold entries_for. rewrite !filter_app.
  fold (entries_for r (seqZ 0 r ≫= csr_row_entries csr)).
  fold (entries_for r (seqZ (0 + r + 1) (csr_num_rows csr - r - 1)
                         ≫= csr_row_entries csr)).
  rewrite !entries_for_rows_other by (rewrite elem_of_seqZ; lia).
  rewrite (seqZ_cons (0 + r) 1), (seqZ_nil _ (Z.pred 1)) by lia.
  change ([0 + r] ≫= csr_row_entries csr) with (csr_row_entries csr (0 + r) ++ []).
  rewrite !app_nil_r, app_nil_l, Z.add_0_l.
  apply entries_for_row_same.
Qed.

Lemma csr_entries_target csr e :
  e ∈ csr_entries csr → 0 ≤ nz_target e < csr_num_rows csr.
Proof.
  unfold csr_entries. rewrite list_elem_of_bind.
  intros (r & He & Hr). apply elem_of_seqZ in Hr.
  unfold csr_row_entries in He. apply list_elem_of_fmap in He as (j & -> & _).
  simpl. lia.
Qed.

Lemma operands_ok_perm op ufeat efeat dim es es' :
  es ≡ₚ es' → operands_ok op ufeat efeat dim es' = true →
  operands_ok op ufeat efeat dim es = true.
Proof.
  unfold operands_ok. intros Hp H. apply Is_true_true_1, forallb_True.
  apply Is_true_true_2, forallb_True in H. by rewrite Hp.
Qed.

Lemma targets_ok_csr_perm csr es :
  es ≡ₚ csr_entries csr → targets_ok (csr_num_rows csr) es = true.
Proof.
  intros Hp. unfold targets_ok. apply Is_true_true_1, forallb_True.
  rewrite Hp. apply Forall_forall. intros e He.
  apply bool_decide_spec. by apply csr_entries_target.
Qed.

(** ** Reductions do not depend on the order of the nonzeros *)

Lemma foldl_dadd_perm (l1 l2 : list D) (a : D) :
  SumLaws → l1 ≡ₚ l2 → foldl dadd a l1 = foldl dadd a l2.
Proof.
  intros [Hassoc Hcomm] Hp. revert a.
  induction Hp as [|x l1 l2 _ IH|x y l|l1 l2 l3 _ IH1 _ IH2]; intros a; simpl.
  - done.
  - apply IH.
  - f_equal. by rewrite !Hassoc, (Hcomm y x).
  - by rewrite IH1.
Qed.

Lemma sum_of_perm (l1 l2 : list D) : SumLaws → l1 ≡ₚ l2 → sum_of l1 = sum_of l2.
Proof. intros. by apply foldl_dadd_perm. Qed.

End KernelLemmas.

(** * SpMM with sum reduction on CSR *)

Section SumCsr.
Context {D : Type} `{!DTypeOps D}.

(** C1.  For a CSR matrix whose [indptr] is monotonically
    non-decreasing and spans [indices], operands that hold the feature
    rows the matrix refers to and an output buffer with room for
    [num_rows] rows, [SpMMSumCsr] runs to completion and leaves in
    [out[r,k]] the sum, accumulated from 0 over the positions [j] of
    [indptr[r] <= j < indptr[r+1]] in increasing order, of
    [combine(ufeat[indices[j]*dim + k], efeat[eid*dim + k])], where
    [eid] is [csr.data[j]] when the permutation array is present and
    [j] otherwise.  A row whose range is empty gets 0 at every feature
    position. *)
Theorem SpMMSumCsr_correct (op : Op) (csr : CSRMatrix) (ufeat efeat : Tensor D)
    (out : NDArray D) :
  let dim := feat_dim (shape out) in
  csr_wf csr = true →
  operands_ok op ufeat efeat dim (csr_entries csr) = true →
  csr_num_rows csr * dim ≤ Z.of_nat (length (data out)) →
  ∃ Obuf,
    SpMMSumCsr op csr ufeat efeat out = Ok Obuf
    ∧ length Obuf = length (data out)
    ∧ ∀ r k, 0 ≤ r < csr_num_rows csr → 0 ≤ k < dim →
        load Obuf (r * dim + k)
        = Ok (sum_of ((λ j,
                combine op
                  (cell dzero (tdata ufeat) (cell 0 (csr_indices csr) j * dim + k))
                  (cell dzero (tdata efeat) (csr_eid csr j * dim + k)))
              <$> seqZ (cell 0 (csr_indptr csr) r)
                    (cell 0 (csr_indptr csr) (r + 1) - cell 0 (csr_indptr csr) r)))
        ∧ (cell 0 (csr_indptr csr) r = cell 0 (csr_indptr csr) (r + 1) →
           load Obuf (r * dim + k) = Ok dzero).
Proof.
  cbv zeta. intros Hwf Hok Hlen.
  destruct (SpMMSumCsr_spec op csr ufeat efeat out Hwf Hok Hlen)
    as (Obuf & Hrun & Hl & Hcells).
  exists Obuf. split; [done|]. split; [done|].
  intros r k Hr Hk.
  rewrite (load_in_range dzero Obuf) by (rewrite Hl; nia).
  rewrite (Hcells r k Hr Hk).
  unfold csr_row_entries, csr_row_positions, csr_row_start, csr_row_end.
  rewrite <- list_fmap_compose. split; [done|].
  intros ->. by rewrite Z.sub_diag.
Qed.

End SumCsr.

Lemma SpMMSumCsr_correct_witness :
  ∃ Obuf, SpMMSumCsr Add csr1 uf1 ef1 out1 = Ok Obuf
    ∧ load Obuf (0 * 2 + 1) = Ok 223 ∧ load Obuf (1 * 2 + 0) = Ok 0.
Proof.
  destruct (SpMMSumCsr_correct Add csr1 uf1 ef1 out1) as (Obuf & Hrun & _ & Hcells).
  - reflexivity.
  - reflexivity.
  - by vm_compute.
  - exists Obuf. split; [exact Hrun|]. split.
    + exact (proj1 (Hcells 0 1 ltac:(by vm_compute) ltac:(by vm_compute))).
    + exact (proj2 (Hcells 1 0 ltac:(by vm_compute) ltac:(by vm_compute)) eq_refl).
Defined.

(** * The laws of the integers; cells of a flattened buffer *)

Lemma Z_SumLaws : SumLaws (D := Z).
Proof. split; simpl; intros; lia. Qed.

Lemma Z_OrderLaws : OrderLaws (D := Z).
Proof.
  split; simpl.
  - intros a. apply Z.ltb_irrefl.
  - intros a b c. rewrite !Z.ltb_lt. lia.
  - intros a b. rewrite !Z.ltb_ge. lia.
Qed.

Lemma Z_StrictLaws : StrictLaws (D := Z).
Proof.
  split; simpl.
  - intros a. apply Z.ltb_irrefl.
  - intros a b c. rewrite !Z.ltb_lt. lia.
Qed.

Section FlatIndex.

(** Every cell of a buffer of [rows * dim] elements is a cell [r,k]. *)
Lemma flat_index (rows dim i : Z) :
  0 ≤ dim → 0 ≤ i < rows * dim →
  ∃ r k, 0 ≤ r < rows ∧ 0 ≤ k < dim ∧ i = r * dim + k.
Proof.
  intros Hd Hi.
  assert (0 < dim) by (destruct (decide (dim = 0)) as [->|]; lia).
  exists (i `div` dim), (i `mod` dim).
  pose proof (Z.mod_pos_bound i dim ltac:(done)).
  pose proof (Z.div_mod i dim ltac:(lia)).
  split; [|split; [done|lia]].
  split; [apply Z.div_pos; lia|].
  apply Z.div_lt_upper_bound; lia.
Qed.

End FlatIndex.

(** * Compare reductions *)

Section CmpLemmas.
Context {D : Type} `{!DTypeOps D}.
Implicit Types (op : Op) (cmp : Cmp) (ufeat efeat : Tensor D) (e : nonzero).

Lemma OrderLaws_strict : OrderLaws → StrictLaws.
Proof. intros [Hirr Htr _]. by split. Qed.

Lemma cmp_Call_irrefl cmp (a : D) : StrictLaws → cmp_Call cmp a a = false.
Proof. intros [Hirr _]. destruct cmp; apply Hirr. Qed.

Lemma cmp_Call_trans cmp (a b c : D) :
  StrictLaws → cmp_Call cmp a b = true → cmp_Call cmp b c = true →
  cmp_Call cmp a c = true.
Proof. intros [_ Htr]. destruct cmp; simpl; eauto. Qed.

Lemma cmp_Call_total cmp (a b : D) :
  OrderLaws → cmp_Call cmp a b = false → cmp_Call cmp b a = false → a = b.
Proof. intros [_ _ Htot]. destruct cmp; simpl; auto. Qed.

(** A reduction none of whose candidates beats the value in hand
    changes nothing. *)
Lemma cmp_reduce_no_replace op cmp ufeat efeat dim k init es :
  (∀ e, e ∈ es → cmp_Call cmp init.1.1 (contrib op ufeat efeat dim k e) = false) →
  cmp_reduce op cmp ufeat efeat dim k init es = init.
Proof.
  unfold cmp_reduce. induction es as [|e es IH]; intros Hno; simpl; [done|].
  unfold cmp_step at 2. rewrite (Hno e) by left.
  apply IH. intros e' He'. apply Hno. by right.
Qed.

(** The state of a compare reduction started from the identity with
    both arguments 0. *)
Lemma cmp_reduce_char op cmp ufeat efeat dim k es :
  StrictLaws →
  let val := contrib op ufeat efeat dim k in
  let z := cmp_zero cmp in
  let res := cmp_reduce op cmp ufeat efeat dim k (z, 0, 0) es in
  (∀ e, e ∈ es → cmp_Call cmp res.1.1 (val e) = false)
  ∧ ((res = (z, 0, 0) ∧ ∀ e, e ∈ es → cmp_Call cmp z (val e) = false)
     ∨ (∃ (i : nat) e,
          es !! i = Some e
          ∧ val e = res.1.1
          ∧ cmp_Call cmp z res.1.1 = true
          ∧ (∀ (i' : nat) e', (i' < i)%nat → es !! i' = Some e' → val e' ≠ res.1.1)
          ∧ res.1.2 = (if use_lhs op then nz_neighbor e else 0)
          ∧ res.2 = (if use_rhs op then nz_eid e else 0))).
Proof.
  intros Hord val z. induction es as [|e es IH] using rev_ind.
  - simpl. split; [intros e He; by apply elem_of_nil in He|].
    left. split; [done|]. intros e He. by apply elem_of_nil in He.
  - cbv zeta. rewrite cmp_reduce_snoc.
    destruct IH as (Hub & Hcase).
    set (res := cmp_reduce op cmp ufeat efeat dim k (z, 0, 0) es) in *.
    unfold cmp_step. fold val.
    destruct (cmp_Call cmp res.1.1 (val e)) eqn:Hcmp.
    + (* [e] replaces the value in hand *)
      simpl. split.
      * intros e' [He'| ->%list_elem_of_singleton]%elem_of_app.
        -- destruct (cmp_Call cmp (val e) (val e')) eqn:Hc; [|done].
           pose proof (cmp_Call_trans cmp _ _ _ Hord Hcmp Hc) as Hbad.
           rewrite (Hub e' He') in Hbad. done.
        -- by apply cmp_Call_irrefl.
      * right. exists (length es), e.
        split; [by rewrite lookup_app_r, Nat.sub_diag by done|].
        split; [done|]. split.
        { destruct Hcase as [(Hres & _)|(i & e0 & _ & _ & Hz & _)].
          - rewrite Hres in Hcmp. done.
          - by apply (cmp_Call_trans cmp _ _ _ Hord Hz). }
        split.
        { intros i' e' Hi' He' Heq. rewrite lookup_app_l in He' by done.
          apply list_elem_of_lookup_2 in He'.
          pose proof (Hub e' He') as Hno. rewrite Heq, Hcmp in Hno. done. }
        destruct Hcase as [(Hres & _)|(i & e0 & _ & _ & _ & _ & Hx & Hw)].
        -- rewrite Hres. simpl. by destruct (use_lhs op), (use_rhs op).
        -- rewrite Hx, Hw. by destruct (use_lhs op), (use_rhs op).
    + (* the value in hand stays *)
      split.
      * intros e' [He'| ->%list_elem_of_singleton]%elem_of_app; [by apply Hub|done].
      * destruct Hcase as [(Hres & Hno)|(i & e0 & Hi & Hv & Hz & Hfirst & Hx & Hw)].
        -- left. split; [done|].
           intros e' [He'| ->%list_elem_of_singleton]%elem_of_app; [by apply Hno|].
           by rewrite Hres in Hcmp.
        -- right. exists i, e0.
           pose proof (lookup_lt_Some _ _ _ Hi) as Hlt.
           split; [by rewrite lookup_app_l|].
           split; [done|]. split; [done|]. split; [|done].
           intros i' e' Hi' He'. rewrite lookup_app_l in He' by lia.
           by apply (Hfirst i' e').
Qed.

(** The argument of an operand the operator does not use is never
    replaced. *)
Lemma cmp_reduce_unused op cmp ufeat efeat dim k init es :
  (use_lhs op = false →
     (cmp_reduce op cmp ufeat efeat dim k init es).1.2 = init.1.2)
  ∧ (use_rhs op = false →
     (cmp_reduce op cmp ufeat efeat dim k init es).2 = init.2).
Proof.
  unfold cmp_reduce. revert init.
  induction es as [|e es IH]; intros init; simpl; [done|].
  destruct (IH (cmp_step op cmp ufeat efeat dim k init e)) as (IHx & IHw).
  unfold cmp_step in *.
  destruct (cmp_Call cmp init.1.1 _); simpl in *; [|done].
  split; intros Hu; rewrite Hu in *; auto.
Qed.

(** The state of a compare reduction started from the identity with
    the arguments [a] and [b] in hand. *)
Lemma cmp_reduce_char_from op cmp ufeat efeat dim k (a b : Z) es :
  StrictLaws →
  let val := contrib op ufeat efeat dim k in
  let z := cmp_zero cmp in
  let res := cmp_reduce op cmp ufeat efeat dim k (z, a, b) es in
  (∀ e, e ∈ es → cmp_Call cmp res.1.1 (val e) = false)
  ∧ ((res = (z, a, b) ∧ ∀ e, e ∈ es → cmp_Call cmp z (val e) = false)
     ∨ (∃ (i : nat) e,
          es !! i = Some e
          ∧ val e = res.1.1
          ∧ cmp_Call cmp z res.1.1 = true
          ∧ (∀ (i' : nat) e', (i' < i)%nat → es !! i' = Some e' → val e' ≠ res.1.1)
          ∧ res.1.2 = (if use_lhs op then nz_neighbor e else a)
          ∧ res.2 = (if use_rhs op then nz_eid e else b))).
Proof.
  intros Hord val z. induction es as [|e es IH] using rev_ind.
  - simpl. split; [intros e He; by apply elem_of_nil in He|].
    left. split; [done|]. intros e He. by apply elem_of_nil in He.
  - cbv zeta. rewrite cmp_reduce_snoc.
    destruct IH as (Hub & Hcase).
    set (res := cmp_reduce op cmp ufeat efeat dim k (z, a, b) es) in *.
    unfold cmp_step. fold val.
    destruct (cmp_Call cmp res.1.1 (val e)) eqn:Hcmp.
    + simpl. split.
      * intros e' [He'| ->%list_elem_of_singleton]%elem_of_app.
        -- destruct (cmp_Call cmp (val e) (val e')) eqn:Hc; [|done].
           pose proof (cmp_Call_trans cmp _ _ _ Hord Hcmp Hc) as Hbad.
           rewrite (Hub e' He') in Hbad. done.
        -- by apply cmp_Call_irrefl.
      * right. exists (length es), e.
        split; [by rewrite lookup_app_r, Nat.sub_diag by done|].
        split; [done|]. split.
        { destruct Hcase as [(Hres & _)|(i & e0 & _ & _ & Hz & _)].
          - rewrite Hres in Hcmp. done.
          - by apply (cmp_Call_trans cmp _ _ _ Hord Hz). }
        split.
        { intros i' e' Hi' He' Heq. rewrite lookup_app_l in He' by done.
          apply list_elem_of_lookup_2 in He'.
          pose proof (Hub e' He') as Hno. rewrite Heq, Hcmp in Hno. done. }
        destruct Hcase as [(Hres & _)|(i & e0 & _ & _ & _ & _ & Hx & Hw)].
        -- rewrite Hres. simpl. by destruct (use_lhs op), (use_rhs op).
        -- rewrite Hx, Hw. by destruct (use_lhs op), (use_rhs op).
    + split.
      * intros e' [He'| ->%list_elem_of_singleton]%elem_of_app; [by apply Hub|done].
      * destruct Hcase as [(Hres & Hno)|(i & e0 & Hi & Hv & Hz & Hfirst & Hx & Hw)].
        -- left. split; [done|].
           intros e' [He'| ->%list_elem_of_singleton]%elem_of_app; [by apply Hno|].
           by rewrite Hres in Hcmp.
        -- right. exists i, e0.
           pose proof (lookup_lt_Some _ _ _ Hi) as Hlt.
           split; [by rewrite lookup_app_l|].
           split; [done|]. split; [done|]. split; [|done].
           intros i' e' Hi' He'. rewrite lookup_app_l in He' by lia.
           by apply (Hfirst i' e').
Qed.

(** Two compare reductions over the same candidates, in any two
    orders: neither value is better than the other. *)
Lemma cmp_reduce_perm_tied op cmp ufeat efeat dim k (a b a' b' : Z) es es' :
  StrictLaws → es ≡ₚ es' →
  let v := (cmp_reduce op cmp ufeat efeat dim k (cmp_zero cmp, a, b) es).1.1 in
  let v' := (cmp_reduce op cmp ufeat efeat dim k (cmp_zero cmp, a', b') es').1.1 in
  cmp_Call cmp v v' = false ∧ cmp_Call cmp v' v = false.
Proof.
  intros Hord Hperm.
  destruct (cmp_reduce_char_from op cmp ufeat efeat dim k a b es Hord)
    as (Hub & Hcase).
  destruct (cmp_reduce_char_from op cmp ufeat efeat dim k a' b' es' Hord)
    as (Hub' & Hcase').
  cbv zeta in *.
  set (res := cmp_reduce op cmp ufeat efeat dim k (cmp_zero cmp, a, b) es) in *.
  set (res' := cmp_reduce op cmp ufeat efeat dim k (cmp_zero cmp, a', b') es') in *.
  destruct Hcase as [(Hres & Hno)|(i & e & Hi & Hval & Hz & _)];
    destruct Hcase' as [(Hres' & Hno')|(i' & e' & Hi' & Hval' & Hz' & _)].
  - rewrite Hres, Hres'. simpl. split; by apply cmp_Call_irrefl.
  - apply list_elem_of_lookup_2 in Hi'. rewrite <- Hperm in Hi'.
    rewrite <- Hval', (Hno e' Hi') in Hz'. done.
  - apply list_elem_of_lookup_2 in Hi. rewrite Hperm in Hi.
    rewrite <- Hval, (Hno' e Hi) in Hz. done.
  - apply list_elem_of_lookup_2 in Hi, Hi'. split.
    + rewrite <- Hval'. apply Hub. by rewrite Hperm.
    + rewrite <- Hval. apply Hub'. by rewrite <- Hperm.
Qed.

Lemma csr_row_entries_elem csr r e :
  e ∈ csr_row_entries csr r
  ↔ ∃ j, csr_row_start csr r ≤ j < csr_row_end csr r ∧ e = csr_nonzero csr r j.
Proof.
  unfold csr_row_entries. rewrite list_elem_of_fmap. split.
  - intros (j & -> & Hj). exists j. by rewrite <- csr_row_positions_spec.
  - intros (j & Hj & ->). exists j. by rewrite csr_row_positions_spec.
Qed.

Lemma csr_row_entries_lookup csr r (i : nat) e :
  csr_row_entries csr r !! i = Some e
  ↔ e = csr_nonzero csr r (csr_row_start csr r + Z.of_nat i)
    ∧ csr_row_start csr r + Z.of_nat i < csr_row_end csr r.
Proof.
  unfold csr_row_entries, csr_row_positions.
  rewrite list_lookup_fmap_Some. setoid_rewrite lookup_seqZ. split.
  - intros (j & -> & -> & Hj). split; [done|lia].
  - intros (-> & Hi). eexists. split; [done|]. split; [done|lia].
Qed.

(** C4, as the code has it.  [SpMMCmpCsr] starts every accumulator at
    the identity of the compare operator (the lowest value for [Max],
    the highest for [Min]) with both arguments 0 and replaces them
    only at a candidate that is strictly better.  For an element type
    whose [<] is irreflexive and transitive, for every row [r] and
    feature index [k]:
    - no candidate is strictly better than the stored value;
    - if no candidate is strictly better than the identity (so for a
      row without neighbours, but also for a row all of whose
      candidates equal the identity), the stored value is the
      identity and the argument entry of every operand the operator
      uses is 0;
    - if some candidate is strictly better than the identity, the
      stored value is the value of a candidate, and the argument
      entries of the operands the operator uses are the neighbour and
      the edge id of the first position of the row that attains it;
    - if moreover [<] is total (two values neither of which is below
      the other are the same value), no candidate is worse than the
      identity and the row has a neighbour, the stored value is the
      value of a candidate.
    The argument buffer of an operand the operator does not use is
    returned as it was passed. *)
Theorem SpMMCmpCsr_semantics op cmp (csr : CSRMatrix) ufeat efeat
    (out : NDArray D) (argu arge : list Z) :
  let dim := feat_dim (shape out) in
  StrictLaws →
  csr_wf csr = true →
  operands_ok op ufeat efeat dim (csr_entries csr) = true →
  csr_num_rows csr * dim ≤ Z.of_nat (length (data out)) →
  arg_ok (use_lhs op) (csr_num_rows csr * dim) argu = true →
  arg_ok (use_rhs op) (csr_num_rows csr * dim) arge = true →
  ∃ Obuf argX argW,
    SpMMCmpCsr op cmp csr ufeat efeat out argu arge = Ok (Obuf, argX, argW)
    ∧ (use_lhs op = false → argX = argu)
    ∧ (use_rhs op = false → argW = arge)
    ∧ ∀ r k, 0 ≤ r < csr_num_rows csr → 0 ≤ k < dim →
        let val := λ j, contrib op ufeat efeat dim k (csr_nonzero csr r j) in
        let in_row := λ j, csr_row_start csr r ≤ j < csr_row_end csr r in
        let v := cell dzero Obuf (r * dim + k) in
        let ax := cell 0 argX (r * dim + k) in
        let aw := cell 0 argW (r * dim + k) in
        (∀ j, in_row j → cmp_Call cmp v (val j) = false)
        ∧ ((∀ j, in_row j → cmp_Call cmp (cmp_zero cmp) (val j) = false) →
             v = cmp_zero cmp
             ∧ (use_lhs op = true → ax = 0)
             ∧ (use_rhs op = true → aw = 0))
        ∧ ((∃ j, in_row j ∧ cmp_Call cmp (cmp_zero cmp) (val j) = true) →
             ∃ j, in_row j ∧ val j = v
               ∧ (∀ j', csr_row_start csr r ≤ j' < j → val j' ≠ v)
               ∧ (use_lhs op = true → ax = cell 0 (csr_indices csr) j)
               ∧ (use_rhs op = true → aw = csr_eid csr j))
        ∧ (OrderLaws →
           (∀ j, in_row j → cmp_Call cmp (val j) (cmp_zero cmp) = false) →
           csr_row_start csr r < csr_row_end csr r →
           ∃ j, in_row j ∧ val j = v).
Proof.
  cbv zeta. intros Hord Hwf Hok Hlen Hau Hae.
  destruct (SpMMCmpCsr_spec op cmp csr ufeat efeat out argu arge
              Hwf Hok Hlen Hau Hae)
    as (Obuf & argX & argW & Hrun & _ & _ & _ & Hcells & HuX & HuW).
  exists Obuf, argX, argW. split; [done|]. split; [done|]. split; [done|].
  intros r k Hr Hk. destruct (Hcells r k Hr Hk) as (Hv & Hx & Hw). clear Hcells.
  destruct (cmp_reduce_char op cmp ufeat efeat (feat_dim (shape out)) k
              (csr_row_entries csr r) Hord) as (Hub & Hcase).
  cbv zeta in Hub, Hcase.
  set (res := cmp_reduce op cmp ufeat efeat (feat_dim (shape out)) k
                (cmp_zero cmp, 0, 0) (csr_row_entries csr r)) in *.
  rewrite Hv.
  assert (∀ j, csr_row_start csr r ≤ j < csr_row_end csr r →
            cmp_Call cmp res.1.1
              (contrib op ufeat efeat (feat_dim (shape out)) k (csr_nonzero csr r j))
            = false) as Hub'.
  { intros j Hj. apply Hub, csr_row_entries_elem. eauto. }
  assert ((∃ j, (csr_row_start csr r ≤ j < csr_row_end csr r)
             ∧ cmp_Call cmp (cmp_zero cmp)
                 (contrib op ufeat efeat (feat_dim (shape out)) k (csr_nonzero csr r j))
               = true) →
          ∃ j, (csr_row_start csr r ≤ j < csr_row_end csr r)
            ∧ contrib op ufeat efeat (feat_dim (shape out)) k (csr_nonzero csr r j)
              = res.1.1
            ∧ (∀ j', csr_row_start csr r ≤ j' < j →
                 contrib op ufeat efeat (feat_dim (shape out)) k (csr_nonzero csr r j')
                 ≠ res.1.1)
            ∧ (use_lhs op = true →
                 cell 0 argX (r * feat_dim (shape out) + k) = cell 0 (csr_indices csr) j)
            ∧ (use_rhs op = true →
                 cell 0 argW (r * feat_dim (shape out) + k) = csr_eid csr j)) as Hbest.
  { intros (j0 & Hj0 & Hb0).
    destruct Hcase as [(_ & Hno)|(i & e & Hi & Hval & _ & Hfirst & Hax & Haw)].
    { rewrite Hno in Hb0; [done|]. apply csr_row_entries_elem. eauto. }
    apply csr_row_entries_lookup in Hi as (-> & Hi).
    exists (csr_row_start csr r + Z.of_nat i).
    split; [lia|]. split; [done|]. split; [|split].
    - intros j' Hj'.
      apply (Hfirst (Z.to_nat (j' - csr_row_start csr r))); [lia|].
      apply csr_row_entries_lookup. rewrite Z2Nat.id by lia.
      replace (csr_row_start csr r + (j' - csr_row_start csr r)) with j' by lia.
      split; [done|lia].
    - intros Hu. rewrite (Hx Hu), Hax, Hu. done.
    - intros Hu. rewrite (Hw Hu), Haw, Hu. done. }
  split; [done|]. split; [|split; [done|]].
  - intros Hno.
    destruct Hcase as [(Hres & _)|(i & e & Hi & Hval & Hz & _)].
    + rewrite Hres in *. simpl. split; [done|]. split; intros Hu; auto.
    + apply csr_row_entries_lookup in Hi as (-> & Hi).
      rewrite <- Hval, Hno in Hz; [done|lia].
  - intros Htot Hlow Hne.
    destruct Hcase as [(Hres & Hno)|(i & e & Hi & Hval & _)].
    + exists (csr_row_start csr r). split; [lia|].
      rewrite Hres. simpl. symmetry. apply (cmp_Call_total cmp); [done| |].
      * apply Hno, csr_row_entries_elem. exists (csr_row_start csr r).
        split; [lia|done].
      * apply Hlow. lia.
    + apply csr_row_entries_lookup in Hi as (-> & Hi). eexists. split; [|done]. lia.
Qed.

End CmpLemmas.

Lemma SpMMCmpCsr_semantics_witness :
  ∃ Obuf argX argW,
    SpMMCmpCsr Add Max csr1 uf1 ef1 out1 arg1 arg1 = Ok (Obuf, argX, argW)
    ∧ cell 0 Obuf (1 * 2 + 0) = - 2 ^ 63
    ∧ cell 0 argX (1 * 2 + 0) = 0.
Proof.
  destruct (SpMMCmpCsr_semantics Add Max csr1 uf1 ef1 out1 arg1 arg1)
    as (Obuf & argX & argW & Hrun & _ & _ & Hcells).
  - exact Z_StrictLaws.
  - reflexivity.
  - reflexivity.
  - by vm_compute.
  - reflexivity.
  - reflexivity.
  - exists Obuf, argX, argW. split; [exact Hrun|].
    destruct (Hcells 1 0 ltac:(by vm_compute) ltac:(by vm_compute))
      as (_ & Hempty & _).
    destruct Hempty as (Hv & Hx & _).
    + intros j Hj. change (2 ≤ j < 2) in Hj. lia.
    + split; [exact Hv|]. by apply Hx.
Defined.

(** C4, as the claim states it, fails: in row 0 of [csr2] the only
    candidate has the value of the identity of [Max], so it attains the
    stored value, yet the argument entry is 0 and not its neighbour
    id 1; and row 1 has no neighbour, yet the entry of the argument
    buffer of the operand [CopyLhs] does not use is not 0. *)
Lemma SpMMCmpCsr_first_candidate_counterexample :
  ∃ Obuf argX argW,
    SpMMCmpCsr CopyLhs Max csr2 uf2 None out2 arg2 arg2 = Ok (Obuf, argX, argW)
    ∧ csr_row_positions csr2 0 = [0]
    ∧ cell 0 Obuf 0 = contrib CopyLhs uf2 None 1 0 (csr_nonzero csr2 0 0)
    ∧ cell 0 argX 0 ≠ nz_neighbor (csr_nonzero csr2 0 0)
    ∧ csr_row_positions csr2 1 = []
    ∧ cell 0 argW 1 ≠ 0.
Proof.
  exists [- 2 ^ 63; - 2 ^ 63], [0; 0], [7; 7].
  split; [by vm_compute|]. by vm_compute.
Qed.

(** * CSR and COO presentations of one matrix *)

Section CsrCoo.
Context {D : Type} `{!DTypeOps D}.

(** C3, as the code has it.  Let a COO matrix list the nonzeros of a
    CSR matrix in any order: one entry per nonzero, with the
    aggregation target in [col], the neighbour in [row] and the same
    edge id.  Under an associative and commutative addition the
    sequential runs of [SpMMSumCsr] and [SpMMSumCoo] end with equal
    output buffers.  The runs of [SpMMCmpCsr] and [SpMMCmpCoo] end with
    value buffers of one length that agree up to ties when [<] is
    irreflexive and transitive: in no cell is the value of one run
    strictly better than the value of the other.  They end with equal
    value buffers when [<] is moreover total.  Nothing is said of the
    argument buffers. *)
Theorem csr_coo_equiv (op : Op) (cmp : Cmp) (csr : CSRMatrix) (coo : COOMatrix)
    (ufeat efeat : Tensor D) (out : NDArray D) (argu arge : list Z) :
  let dim := feat_dim (shape out) in
  csr_wf csr = true → coo_wf coo = true →
  coo_entries coo ≡ₚ csr_entries csr →
  operands_ok op ufeat efeat dim (csr_entries csr) = true →
  out_ok (csr_num_rows csr) out = true →
  arg_ok (use_lhs op) (csr_num_rows csr * dim) argu = true →
  arg_ok (use_rhs op) (csr_num_rows csr * dim) arge = true →
  (SumLaws →
     ∃ Obuf,
       SpMMSumCsr op csr ufeat efeat out = Ok Obuf
       ∧ SpMMSumCoo op coo ufeat efeat out = Ok Obuf)
  ∧ (∃ Obuf argX argW Obuf' argX' argW',
       SpMMCmpCsr op cmp csr ufeat efeat out argu arge = Ok (Obuf, argX, argW)
       ∧ SpMMCmpCoo op cmp coo ufeat efeat out argu arge = Ok (Obuf', argX', argW')
       ∧ length Obuf' = length Obuf
       ∧ (StrictLaws →
            ∀ i, cmp_Call cmp (cell dzero Obuf i) (cell dzero Obuf' i) = false
                 ∧ cmp_Call cmp (cell dzero Obuf' i) (cell dzero Obuf i) = false)
       ∧ (OrderLaws → Obuf' = Obuf)).
Proof.
  cbv zeta. intros Hwf Hcwf Hperm Hok Hout Hau Hae.
  destruct (out_ok_unpack _ _ Hout) as (Hdim & _ & Hlen).
  pose proof (operands_ok_perm op ufeat efeat _ _ _ Hperm Hok) as Hok'.
  pose proof (targets_ok_csr_perm csr _ Hperm) as Htg.
  assert (∀ r, 0 ≤ r < csr_num_rows csr →
    entries_for r (coo_entries coo) ≡ₚ csr_row_entries csr r) as Hrow.
  { intros r Hr. rewrite <- (entries_for_csr csr r Hr).
    unfold entries_for. by rewrite Hperm. }
  split.
  - intros Hsum.
    destruct (SpMMSumCsr_spec op csr ufeat efeat out Hwf Hok ltac:(lia))
      as (O1 & Hrun1 & Hl1 & Hc1).
    destruct (SpMMSumCoo_spec op coo ufeat efeat out _ Hcwf Hok' Htg Hout)
      as (O2 & Hrun2 & Hl2 & Hc2).
    exists O1. split; [done|]. rewrite Hrun2. f_equal.
    apply (cells_eq dzero); [congruence|].
    intros i Hi. rewrite Hl2 in Hi.
    destruct (flat_index (csr_num_rows csr) (feat_dim (shape out)) i)
      as (r & k & Hr & Hk & ->); [done|lia|].
    rewrite Hc1, Hc2 by done.
    apply sum_of_perm; [done|]. by rewrite Hrow.
  - destruct (SpMMCmpCsr_spec op cmp csr ufeat efeat out argu arge
                Hwf Hok ltac:(lia) Hau Hae)
      as (O1 & X1 & W1 & Hrun1 & Hl1 & _ & _ & Hc1 & _).
    destruct (SpMMCmpCoo_spec op cmp coo ufeat efeat out argu arge _
                Hcwf Hok' Htg Hout Hau Hae)
      as (O2 & X2 & W2 & Hrun2 & (Hl2 & _ & _) & Hc2 & _).
    exists O1, X1, W1, O2, X2, W2. split; [done|]. split; [done|].
    split; [congruence|].
    assert (StrictLaws →
      ∀ i, 0 ≤ i < Z.of_nat (length O1) →
           cmp_Call cmp (cell dzero O1 i) (cell dzero O2 i) = false
           ∧ cmp_Call cmp (cell dzero O2 i) (cell dzero O1 i) = false) as Htied.
    { intros Hord i Hi. rewrite Hl1 in Hi.
      destruct (flat_index (csr_num_rows csr) (feat_dim (shape out)) i)
        as (r & k & Hr & Hk & ->); [done|lia|].
      destruct (Hc1 r k Hr Hk) as (-> & _).
      pose proof (f_equal (λ t, t.1.1) (Hc2 r k Hr Hk)) as Hv. simpl in Hv.
      rewrite Hv.
      apply (cmp_reduce_perm_tied op cmp ufeat efeat _ k); [done|].
      symmetry. by apply Hrow. }
    split.
    + intros Hord i.
      destruct (decide (0 ≤ i < Z.of_nat (length O1))) as [Hi|Hi];
        [by apply Htied|].
      assert (cell dzero O1 i = dzero ∧ cell dzero O2 i = dzero) as [-> ->].
      { unfold cell. case_decide; [|done].
        rewrite !lookup_ge_None_2 by lia. done. }
      split; by apply cmp_Call_irrefl.
    + intros Hord. apply (cells_eq dzero); [congruence|].
      intros i Hi. rewrite Hl2, <- Hl1 in Hi.
      destruct (Htied (OrderLaws_strict Hord) i Hi) as [H12 H21].
      by apply (cmp_Call_total cmp).
Qed.

End CsrCoo.

Lemma csr_coo_equiv_witness :
  (∃ Obuf,
     SpMMSumCsr Mul csr1 uf1 ef1 out1 = Ok Obuf
     ∧ SpMMSumCoo Mul coo1 uf1 ef1 out1 = Ok Obuf)
  ∧ (∃ Obuf argX argW argX' argW',
       SpMMCmpCsr Mul Min csr1 uf1 ef1 out1 arg1 arg1 = Ok (Obuf, argX, argW)
       ∧ SpMMCmpCoo Mul Min coo1 uf1 ef1 out1 arg1 arg1 = Ok (Obuf, argX', argW')).
Proof.
  destruct (csr_coo_equiv Mul Min csr1 coo1 uf1 ef1 out1 arg1 arg1)
    as (Hsum & O1 & X1 & W1 & O2 & X2 & W2 & Hrun1 & Hrun2 & _ & _ & Heq).
  - reflexivity.
  - reflexivity.
  - apply (bool_decide_unpack _). by vm_compute.
  - reflexivity.
  - reflexivity.
  - reflexivity.
  - reflexivity.
  - split; [exact (Hsum Z_SumLaws)|].
    exists O1, X1, W1, X2, W2. split; [exact Hrun1|].
    rewrite <- (Heq Z_OrderLaws). exact Hrun2.
Defined.

Lemma fnum_StrictLaws : StrictLaws (D := fnum).
Proof.
  split; simpl.
  - intros a. unfold fnum_ltb. destruct (fnum_val a); [apply Z.ltb_irrefl|done].
  - intros a b c. unfold fnum_ltb.
    destruct (fnum_val a), (fnum_val b), (fnum_val c); try done.
    rewrite !Z.ltb_lt. lia.
Qed.

(** C3, as the claim states it, fails for the compare kernels: on an
    element type with two zeros, the one row of [csrF] has the two
    candidates [Num 0] and [NegZero], neither of which is better than
    the other.  [SpMMCmpCsr] meets [Num 0] first and keeps it;
    [SpMMCmpCoo], given the same two nonzeros in the other order, meets
    [NegZero] first and keeps it.  The two value buffers differ. *)
Lemma csr_coo_tie_counterexample :
  StrictLaws (D := fnum)
  ∧ csr_wf csrF = true ∧ coo_wf cooF = true
  ∧ coo_entries cooF ≡ₚ csr_entries csrF
  ∧ SpMMCmpCsr CopyLhs Max csrF ufF None outF [0] [0] = Ok ([Num 0], [0], [0])
  ∧ SpMMCmpCoo CopyLhs Max cooF ufF None outF [0] [0] = Ok ([NegZero], [1], [0])
  ∧ [Num 0] ≠ [NegZero].
Proof.
  split; [exact fnum_StrictLaws|].
  split; [reflexivity|]. split; [reflexivity|].
  split; [apply (Permutation_swap (mkNz 0 0 0) (mkNz 0 1 1) [])|].
  split; [by vm_compute|]. split; [by vm_compute|]. discriminate.
Qed.

(** * Argument buffers: what the COO kernel leaves alone *)

Section ArgFrame.
Context {D : Type} `{!DTypeOps D}.

Lemma coo_entries_for_elem coo c e :
  e ∈ entries_for c (coo_entries coo)
  ↔ ∃ i, 0 ≤ i < Z.of_nat (length (coo_row coo))
      ∧ cell 0 (coo_col coo) i = c ∧ e = coo_nonzero coo i.
Proof.
  unfold entries_for, coo_entries.
  rewrite list_elem_of_filter, list_elem_of_fmap. split.
  - intros (Hc & i & -> & Hi). apply elem_of_seqZ in Hi.
    exists i. split; [lia|]. done.
  - intros (i & Hi & Hc & ->). split; [done|].
    exists i. split; [done|]. apply elem_of_seqZ. lia.
Qed.

(** C10.  [SpMMCmpCoo] sets every element of the value output to the
    identity of the compare operator and then scatters.  An argument
    cell [c,k] is written only when a nonzero with column [c] triggers
    a replacement there: if no nonzero has column [c], or none of
    those that have is strictly better than the identity at [k], the
    value stays the identity and both argument cells keep what the
    caller passed.  [SpMMCmpCsr] instead writes, for a row without
    neighbours, the identity and argument 0 (into the argument buffer
    of every operand the operator uses). *)
Theorem SpMMCmpCoo_argument_frame (op : Op) (cmp : Cmp) (coo : COOMatrix)
    (csr : CSRMatrix) (ufeat efeat : Tensor D) (out : NDArray D)
    (argu arge : list Z) (rows : Z) :
  let dim := feat_dim (shape out) in
  let nnz := Z.of_nat (length (coo_row coo)) in
  coo_wf coo = true →
  operands_ok op ufeat efeat dim (coo_entries coo) = true →
  targets_ok rows (coo_entries coo) = true →
  out_ok rows out = true →
  arg_ok (use_lhs op) (rows * dim) argu = true →
  arg_ok (use_rhs op) (rows * dim) arge = true →
  csr_wf csr = true →
  csr_num_rows csr = rows →
  operands_ok op ufeat efeat dim (csr_entries csr) = true →
  (∃ Obuf argX argW,
     SpMMCmpCoo op cmp coo ufeat efeat out argu arge = Ok (Obuf, argX, argW)
     ∧ ∀ c k, 0 ≤ c < rows → 0 ≤ k < dim →
         let kept :=
           cell dzero Obuf (c * dim + k) = cmp_zero cmp
           ∧ cell 0 argX (c * dim + k) = cell 0 argu (c * dim + k)
           ∧ cell 0 argW (c * dim + k) = cell 0 arge (c * dim + k) in
         ((∀ i, 0 ≤ i < nnz → cell 0 (coo_col coo) i ≠ c) → kept)
         ∧ ((∀ i, 0 ≤ i < nnz → cell 0 (coo_col coo) i = c →
               cmp_Call cmp (cmp_zero cmp)
                 (contrib op ufeat efeat dim k (coo_nonzero coo i)) = false) → kept))
  ∧ (∃ Obuf argX argW,
       SpMMCmpCsr op cmp csr ufeat efeat out argu arge = Ok (Obuf, argX, argW)
       ∧ ∀ r k, 0 ≤ r < rows → 0 ≤ k < dim →
           cell 0 (csr_indptr csr) r = cell 0 (csr_indptr csr) (r + 1) →
           cell dzero Obuf (r * dim + k) = cmp_zero cmp
           ∧ (use_lhs op = true → cell 0 argX (r * dim + k) = 0)
           ∧ (use_rhs op = true → cell 0 argW (r * dim + k) = 0)).
Proof.
  cbv zeta. intros Hcwf Hok Htg Hout Hau Hae Hwf Hrows Hokc.
  destruct (out_ok_unpack _ _ Hout) as (Hdim & _ & Hlen).
  split.
  - destruct (SpMMCmpCoo_spec op cmp coo ufeat efeat out argu arge rows
                Hcwf Hok Htg Hout Hau Hae)
      as (Obuf & argX & argW & Hrun & _ & Hcells & _).
    exists Obuf, argX, argW. split; [done|].
    intros c k Hc Hk.
    assert ((∀ i, 0 ≤ i < Z.of_nat (length (coo_row coo)) →
               cell 0 (coo_col coo) i = c →
               cmp_Call cmp (cmp_zero cmp)
                 (contrib op ufeat efeat (feat_dim (shape out)) k (coo_nonzero coo i))
               = false) →
            cell dzero Obuf (c * feat_dim (shape out) + k) = cmp_zero cmp
            ∧ cell 0 argX (c * feat_dim (shape out) + k)
              = cell 0 argu (c * feat_dim (shape out) + k)
            ∧ cell 0 argW (c * feat_dim (shape out) + k)
              = cell 0 arge (c * feat_dim (shape out) + k)) as Hkept.
    { intros Hno. specialize (Hcells c k Hc Hk).
      rewrite cmp_reduce_no_replace in Hcells.
      - unfold cells3 in Hcells. simpl in Hcells. by injection Hcells as -> -> ->.
      - intros e (i & Hi & Hci & ->)%coo_entries_for_elem. by apply Hno. }
    split; [|done].
    intros Hnone. apply Hkept. intros i Hi Hci. by destruct (Hnone i Hi).
  - subst rows.
    destruct (SpMMCmpCsr_spec op cmp csr ufeat efeat out argu arge
                Hwf Hokc ltac:(lia) Hau Hae)
      as (Obuf & argX & argW & Hrun & _ & _ & _ & Hcells & _).
    exists Obuf, argX, argW. split; [done|].
    intros r k Hr Hk Hempty.
    destruct (Hcells r k Hr Hk) as (Hv & Hx & Hw).
    unfold csr_row_entries, csr_row_positions, csr_row_start, csr_row_end in *.
    rewrite <- Hempty, Z.sub_diag in *. simpl in *. done.
Qed.

End ArgFrame.

Lemma SpMMCmpCoo_argument_frame_witness :
  (∃ Obuf argX argW,
     SpMMCmpCoo Add Max coo1 uf1 ef1 out1 arg1 arg1 = Ok (Obuf, argX, argW)
     ∧ cell 0 argX (1 * 2 + 0) = 9)
  ∧ (∃ Obuf argX argW,
       SpMMCmpCsr Add Max csr1 uf1 ef1 out1 arg1 arg1 = Ok (Obuf, argX, argW)
       ∧ cell 0 argX (1 * 2 + 0) = 0).
Proof.
  destruct (SpMMCmpCoo_argument_frame Add Max coo1 csr1 uf1 ef1 out1 arg1 arg1 3)
    as [(O1 & X1 & W1 & Hrun1 & Hc1) (O2 & X2 & W2 & Hrun2 & Hc2)];
    try reflexivity.
  split.
  - exists O1, X1, W1. split; [exact Hrun1|].
    destruct (Hc1 1 0 ltac:(by vm_compute) ltac:(by vm_compute)) as ((_ & Hx & _) & _).
    + intros i Hi. change (0 ≤ i < 4) in Hi.
      assert (i = 0 ∨ i = 1 ∨ i = 2 ∨ i = 3) as [->|[->|[->| ->]]] by lia;
        by vm_compute.
    + exact Hx.
  - exists O2, X2, W2. split; [exact Hrun2|].
    destruct (Hc2 1 0 ltac:(by vm_compute) ltac:(by vm_compute) eq_refl) as (_ & Hx & _).
    by apply Hx.
Defined.

(** * Unimplemented paths and operator dispatch *)

Section Unimplemented.
Context {D : Type} `{!DTypeOps D}.

(** C7.  Whatever the input, [SpMMBcastSumCsr] and [SpMMBcastCmpCsr]
    end in the fatal error "not implemented", leave the output and
    argument buffers as they were and produce no result. *)
Theorem SpMMBcast_unimplemented (op : Op) (cmp : Cmp) (info : BcastInfo)
    (csr : CSRMatrix) (ufeat efeat : Tensor D) (out : list D) (argu arge : list Z) :
  SpMMBcastSumCsr op info csr ufeat efeat out = (Fatal "not implemented", out)
  ∧ SpMMBcastCmpCsr op cmp info csr ufeat efeat out argu arge
    = (Fatal "not implemented", (out, argu, arge))
  ∧ (SpMMBcastSumCsr op info csr ufeat efeat out).1 ≠ Ok ()
  ∧ (SpMMBcastCmpCsr op cmp info csr ufeat efeat out argu arge).1 ≠ Ok ().
Proof. unfold SpMMBcastSumCsr, SpMMBcastCmpCsr. simpl. repeat split; discriminate. Qed.

End Unimplemented.

Lemma SWITCH_OP_other {A} (op : string) (body : Op → result A) :
  op ≠ "add" → op ≠ "mul" → op ≠ "copy_u" → op ≠ "copy_e" →
  SWITCH_OP op body = Fatal ("Unsupported SpMM binary operator: " +:+ op).
Proof.
  intros H1 H2 H3 H4. unfold SWITCH_OP.
  apply String.eqb_neq in H1, H2, H3, H4. by rewrite H1, H2, H3, H4.
Qed.

(** C8.  [SWITCH_OP] runs its body with [Add] for "add", [Mul] for
    "mul", [CopyLhs] for "copy_u" and [CopyRhs] for "copy_e"; for every
    other name it ends in a fatal error that does not depend on the
    body, so no kernel body is run. *)
Theorem SWITCH_OP_dispatch {A} (body : Op → result A) :
  SWITCH_OP "add" body = body Add
  ∧ SWITCH_OP "mul" body = body Mul
  ∧ SWITCH_OP "copy_u" body = body CopyLhs
  ∧ SWITCH_OP "copy_e" body = body CopyRhs
  ∧ ∀ op : string,
      op ∉ ["add"; "mul"; "copy_u"; "copy_e"] →
      SWITCH_OP op body = Fatal ("Unsupported SpMM binary operator: " +:+ op).
Proof.
  repeat split; try reflexivity.
  intros op Hop. apply SWITCH_OP_other; intros ->; apply Hop;
    repeat first [by left | right].
Qed.

Lemma SWITCH_OP_dispatch_witness :
  SWITCH_OP "sub" (λ op, Ok (use_lhs op))
  = Fatal "Unsupported SpMM binary operator: sub".
Proof.
  apply (proj2 (proj2 (proj2 (proj2 (SWITCH_OP_dispatch (λ op, Ok (use_lhs op))))))).
  intros Hin.
  repeat (apply elem_of_cons in Hin as [Hin|Hin]; [discriminate Hin|]).
  by apply elem_of_nil in Hin.
Defined.


(** * SDDMM launch code *)

Lemma ceil_div_quot (a b : Z) :
  0 ≤ a → 0 < b → Z.quot (a + b - 1) b = ceil_div a b.
Proof.
  intros Ha Hb. rewrite Z.quot_div_nonneg by lia. unfold ceil_div.
  pose proof (Z.div_mod (- a) b ltac:(lia)) as Hdm.
  pose proof (Z.mod_pos_bound (- a) b Hb) as Hm.
  symmetry. apply (Z.div_unique _ _ _ (b - 1 - (- a) `mod` b)); lia.
Qed.

Lemma c_div_ok (a b : Z) : b ≠ 0 → c_div a b = Ok (Z.quot a b).
Proof. intros Hb. unfold c_div. by rewrite decide_False. Qed.

Lemma c_mod_ok (a b : Z) : b ≠ 0 → c_mod a b = Ok (Z.rem a b).
Proof. intros Hb. unfold c_mod. by rewrite decide_False. Qed.

Lemma bind_Ok_inv {A B} (m : result A) (f : A → result B) (b : B) :
  m ≫= f = Ok b → ∃ a, m = Ok a ∧ f a = Ok b.
Proof. destruct m as [a| |]; simpl; [eauto|done..]. Qed.

Lemma to_int_small (z : Z) : - 2 ^ 31 ≤ z < 2 ^ 31 → to_int z = z.
Proof. intros Hz. unfold to_int. rewrite Z.mod_small; lia. Qed.

Lemma ceil_div_bounds (a b : Z) : 0 ≤ a → 0 < b → 0 ≤ ceil_div a b ≤ a.
Proof.
  intros Ha Hb. rewrite <- ceil_div_quot by done.
  rewrite Z.quot_div_nonneg by lia. split.
  - apply Z.div_pos; lia.
  - destruct (decide (a = 0)) as [->|Hne].
    + rewrite Z.div_small; lia.
    + apply Z.div_le_upper_bound; [done|]. nia.
Qed.

Section Sddmm.
Context {D : Type} `{!DTypeOps D}.
Variable FindNumThreads : Z → Z → Z.

(** The block and grid computation shared by the COO entry points. *)
Lemma coo_launch_dims (len nnz : Z) {A} (k : Z → Z → Z → result A) :
  let ntx := FindNumThreads len 1024 in
  0 < ntx ≤ 1024 → 0 ≤ len < 2 ^ 31 - 1024 → 0 ≤ nnz < 2 ^ 31 - 1024 →
  (nty ← to_int <$> c_div 1024 ntx;
   nbx ← to_int <$> c_div (len + ntx - 1) ntx;
   nby ← to_int <$> c_div (nnz + nty - 1) nty;
   k nty nbx nby)
  = k (1024 `div` ntx) (ceil_div len ntx) (ceil_div nnz (1024 `div` ntx))
  ∧ 0 < 1024 `div` ntx
  ∧ ntx * (1024 `div` ntx) ≤ 1024.
Proof.
  intros ntx Hntx Hlen Hnnz.
  assert (0 < 1024 `div` ntx ≤ 1024) as Hnty.
  { split; [apply Z.div_str_pos; lia|].
    apply Z.div_le_upper_bound; [lia|nia]. }
  split; [|split; [lia|apply Z.mul_div_le; lia]].
  pose proof (ceil_div_bounds len ntx ltac:(lia) ltac:(lia)).
  pose proof (ceil_div_bounds nnz (1024 `div` ntx) ltac:(lia) ltac:(lia)).
  rewrite (c_div_ok 1024 ntx) by lia. simpl.
  rewrite (Z.quot_div_nonneg 1024 ntx), (to_int_small (1024 `div` ntx)) by lia.
  rewrite (c_div_ok (len + ntx - 1) ntx) by lia. simpl.
  rewrite (ceil_div_quot len ntx), (to_int_small (ceil_div len ntx)) by lia.
  rewrite (c_div_ok _ (1024 `div` ntx)) by lia. simpl.
  rewrite (ceil_div_quot nnz (1024 `div` ntx)) by lia.
  by rewrite to_int_small by lia.
Qed.


End Sddmm.



(** * Operands an operator does not use *)

Section Unused.
Context {D : Type} `{!DTypeOps D}.

(** X22.  The outcome of each of the four SpMM kernels (its result or
    its fault) depends on a feature tensor only if the value operator
    uses it: replacing the tensor of an unused operand by any other
    tensor, or by the null tensor, changes nothing, so no read of it
    takes place.  Of the SDDMM entry points, [SDDMMCoo] under an
    operator that does not reduce over the last dimension takes
    nothing but the two data pointers from its operands: the output
    buffer, the edge map, the number of edges, the three lengths and
    the launch geometry are the same for any two pairs of operands,
    null or not. *)
Theorem unused_operand_not_read (FindNumThreads : Z → Z → Z)
    (op : Op) (cmp : Cmp) (Sop : SddmmOp) (csr : CSRMatrix) (coo : COOMatrix)
    (ufeat ufeat' efeat efeat' : Tensor D) (out : NDArray D) (argu arge : list Z) :
  (use_lhs op = true → ufeat = ufeat') →
  (use_rhs op = true → efeat = efeat') →
  SpMMSumCsr op csr ufeat efeat out = SpMMSumCsr op csr ufeat' efeat' out
  ∧ SpMMSumCoo op coo ufeat efeat out = SpMMSumCoo op coo ufeat' efeat' out
  ∧ SpMMCmpCsr op cmp csr ufeat efeat out argu arge
    = SpMMCmpCsr op cmp csr ufeat' efeat' out argu arge
  ∧ SpMMCmpCoo op cmp coo ufeat efeat out argu arge
    = SpMMCmpCoo op cmp coo ufeat' efeat' out argu arge
  ∧ (reduce_last_dim Sop = false →
     ∀ u u' v v' : Tensor D,
       let but_pointers := λ l : Launch D,
         (k_out l, k_edge_map l, k_E l, k_reduce_size l,
          (k_ufeat_len l, k_vfeat_len l, k_out_len l), (nblks l, nthrs l)) in
       but_pointers <$> SDDMMCoo FindNumThreads Sop coo u v out
       = but_pointers <$> SDDMMCoo FindNumThreads Sop coo u' v' out).
Proof.
  intros Hl Hr. split; [|split; [|split; [|split]]].
  - unfold SpMMSumCsr.
    destruct (use_lhs op), (use_rhs op);
      rewrite ?(Hl eq_refl), ?(Hr eq_refl); reflexivity.
  - unfold SpMMSumCoo.
    destruct (use_lhs op), (use_rhs op);
      rewrite ?(Hl eq_refl), ?(Hr eq_refl); reflexivity.
  - unfold SpMMCmpCsr.
    destruct (use_lhs op), (use_rhs op);
      rewrite ?(Hl eq_refl), ?(Hr eq_refl); reflexivity.
  - unfold SpMMCmpCoo.
    destruct (use_lhs op), (use_rhs op);
      rewrite ?(Hl eq_refl), ?(Hr eq_refl); reflexivity.
  - intros Hred u u' v v'. cbv zeta.
    unfold SDDMMCoo, reduce_dim_of. cbv zeta. rewrite Hred. simpl.
    destruct (c_div 1024 _) as [nty| |]; simpl; [|done..].
    destruct (c_div (feat_dim (shape out) + _ - 1) _) as [nbx| |]; simpl; [|done..].
    by destruct (c_div _ _) as [nby| |].
Qed.

End Unused.

Lemma unused_operand_not_read_witness :
  SpMMSumCsr CopyRhs csr1 None ef1 out1 = SpMMSumCsr CopyRhs csr1 uf1 ef1 out1.
Proof.
  exact (proj1 (unused_operand_not_read sample_FindNumThreads CopyRhs Max sop_rhs
                  csr1 coo1 None uf1 ef1 ef1 out1 arg1 arg1
                  ltac:(simpl; discriminate) ltac:(reflexivity))).
Defined.

(** C6 at a failing input.  The operator [sop_rhs] does not use the
    left operand, and the output has 4 rows of 2 features.  [SDDMMCsr]
    takes the feature width it launches with from the shape of the left
    operand: 2 with the node features [uf1], 5 with a tensor of shape
    [3; 5], 1 with the null tensor.  [SDDMMCoo] launches with the
    width 2 of the output in the three cases. *)
Theorem SDDMMCsr_width_from_unused_operand :
  sddmm_use_lhs sop_rhs = false
  ∧ feat_dim (shape edges_nd1) = 2
  ∧ k_out_len <$> SDDMMCsr sop_rhs csr1 uf1 uf1 edges_nd1 = Ok 2
  ∧ k_out_len <$> SDDMMCsr sop_rhs csr1 uf3 uf1 edges_nd1 = Ok 5
  ∧ k_out_len <$> SDDMMCsr sop_rhs csr1 None uf1 edges_nd1 = Ok 1
  ∧ k_out_len <$> SDDMMCoo sample_FindNumThreads sop_rhs coo1 uf1 uf1 edges_nd1 = Ok 2
  ∧ k_out_len <$> SDDMMCoo sample_FindNumThreads sop_rhs coo1 uf3 uf1 edges_nd1 = Ok 2
  ∧ k_out_len <$> SDDMMCoo sample_FindNumThreads sop_rhs coo1 None uf1 edges_nd1 = Ok 2.
Proof. by vm_compute. Qed.

(** * Source row of an edge on the CSR path of SDDMM *)

Lemma shiftr1_bounds (lo hi : Z) :
  lo < hi → lo ≤ Z.shiftr (lo + hi) 1 < hi.
Proof.
  intros Hlt. rewrite Z.shiftr_div_pow2 by lia. change (2 ^ 1) with 2.
  split.
  - apply Z.div_le_lower_bound; lia.
  - apply Z.div_lt_upper_bound; lia.
Qed.

(** Enough fuel is never used up: more fuel changes nothing. *)
Lemma BinarySearchSrc_loop_fuel (array : list Z) (eid : Z) (fuel fuel' : nat) (lo hi : Z) :
  hi - lo ≤ Z.of_nat fuel → (fuel ≤ fuel')%nat →
  BinarySearchSrc_loop fuel' array eid lo hi = BinarySearchSrc_loop fuel array eid lo hi.
Proof.
  revert fuel' lo hi. induction fuel as [|fuel IH]; intros fuel' lo hi Hf Hle.
  - destruct fuel'; simpl; by rewrite !decide_False by lia.
  - destruct fuel' as [|fuel']; [lia|]. simpl.
    case_decide as Hlt; [|done].
    pose proof (shiftr1_bounds lo hi Hlt).
    destruct (load array (Z.shiftr (lo + hi) 1)) as [a| |]; simpl; [|done..].
    case_decide; apply IH; lia.
Qed.

(** What [BinarySearchSrc] returns on the row offsets of a well-formed
    CSR matrix when it is given the first [len] of them. *)
Lemma BinarySearchSrc_spec (csr : CSRMatrix) (len eid : Z) :
  csr_wf csr = true →
  1 ≤ len ≤ csr_num_rows csr + 1 →
  0 ≤ eid →
  ∃ r, BinarySearchSrc (csr_indptr csr) len eid = Ok r
    ∧ (eid < csr_row_start csr (len - 1) →
       0 ≤ r < len - 1 ∧ csr_row_start csr r ≤ eid < csr_row_end csr r)
    ∧ (eid = csr_row_start csr (len - 1) → r = len - 1)
    ∧ (csr_row_start csr (len - 1) < eid → r = len - 2).
Proof.
  intros Hwf Hlen Heid.
  destruct (csr_wf_unpack csr Hwf) as (Hn & Hplen & H0 & _).
  assert (∀ (fuel : nat) lo hi,
    hi - lo ≤ Z.of_nat fuel → 0 ≤ lo ≤ hi → hi ≤ len - 1 →
    (∀ i, 0 ≤ i < lo → csr_row_start csr i ≤ eid) →
    (hi = len - 1 ∨ eid < csr_row_start csr hi) →
    ∃ h, BinarySearchSrc_loop fuel (csr_indptr csr) eid lo hi = Ok (h, h)
      ∧ 0 ≤ h ≤ len - 1
      ∧ (∀ i, 0 ≤ i < h → csr_row_start csr i ≤ eid)
      ∧ (h = len - 1 ∨ eid < csr_row_start csr h)) as Hloop.
  { induction fuel as [|fuel IH]; intros lo hi Hf Hlo Hhi Hbelow Habove.
    - simpl. rewrite decide_False by lia.
      assert (lo = hi) as -> by lia. exists hi. split; [done|]. split; [lia|done].
    - simpl. case_decide as Hlt; last first.
      { assert (lo = hi) as -> by lia. exists hi. split; [done|]. split; [lia|done]. }
      pose proof (shiftr1_bounds lo hi Hlt) as Hmid.
      set (mid := Z.shiftr (lo + hi) 1) in *.
      rewrite (csr_load_indptr csr mid Hwf) by lia. simpl.
      case_decide as Hcmp.
      + apply IH; [lia|lia|lia| |done].
        intros i Hi. etrans; [|exact Hcmp].
        apply csr_start_mono; [done|lia|lia].
      + apply IH; [lia|lia|lia| |right; lia].
        intros i Hi. apply Hbelow. lia. }
  unfold BinarySearchSrc. cbv zeta.
  destruct (Hloop (Z.to_nat (len - 1 - 0)) 0 (len - 1))
    as (h & Hrun & Hh & Hbelow & Habove); [lia|lia|lia|intros; lia|by left|].
  rewrite Hrun. simpl.
  rewrite (csr_load_indptr csr h Hwf) by lia. simpl.
  case_decide as Heq.
  - (* the offset found is the edge position itself *)
    exists h. split; [done|].
    destruct Habove as [->|Hlt]; [|lia].
    split; [lia|]. split; [done|lia].
  - exists (h - 1). split; [done|].
    destruct Habove as [->|Hlt].
    + assert (csr_row_start csr (len - 1) < eid ∨ eid < csr_row_start csr (len - 1))
        as [Hgt|Hlt] by lia.
      * split; [lia|]. split; [lia|]. intros _. lia.
      * assert (len - 1 ≠ 0) by (intros Hz; rewrite Hz in Hlt; lia).
        pose proof (Hbelow (len - 1 - 1) ltac:(lia)).
        split; [|split; [lia|lia]]. intros _. split; [lia|].
        rewrite csr_row_end_start. replace (len - 1 - 1 + 1) with (len - 1) by lia. lia.
    + assert (h ≠ 0) by (intros Hz; rewrite Hz in Hlt; lia).
      pose proof (Hbelow (h - 1) ltac:(lia)).
      pose proof (csr_start_mono csr h (len - 1) Hwf ltac:(lia) ltac:(lia)).
      split; [|split; [lia|lia]]. intros _. split; [lia|].
      rewrite csr_row_end_start. replace (h - 1 + 1) with h by lia. lia.
Qed.

(** X8.  Given all [num_rows + 1] row offsets, [BinarySearchSrc] finds
    the row of every edge position of a well-formed CSR matrix. *)
Lemma BinarySearchSrc_all_offsets (csr : CSRMatrix) (eid : Z) :
  csr_wf csr = true →
  0 ≤ eid < Z.of_nat (length (csr_indices csr)) →
  ∃ r, BinarySearchSrc (csr_indptr csr) (csr_num_rows csr + 1) eid = Ok r
    ∧ 0 ≤ r < csr_num_rows csr
    ∧ csr_row_start csr r ≤ eid < csr_row_end csr r.
Proof.
  intros Hwf Heid.
  destruct (csr_wf_unpack csr Hwf) as (Hn & _ & _ & Hspan & _).
  destruct (BinarySearchSrc_spec csr (csr_num_rows csr + 1) eid Hwf)
    as (r & Hrun & Hin & _); [lia|lia|].
  replace (csr_num_rows csr + 1 - 1) with (csr_num_rows csr) in Hin by lia.
  exists r. split; [done|]. apply Hin. lia.
Qed.

(** X9.  Given [N = num_rows] as in [SDDMMCsrKernel], the search misses
    the last row: every edge position after the first one of the last row
    is given the row before the last. *)
Lemma SDDMMCsrKernel_src_spec (csr : CSRMatrix) (ty : Z) :
  csr_wf csr = true →
  1 ≤ csr_num_rows csr →
  0 ≤ ty < Z.of_nat (length (csr_indices csr)) →
  ∃ src, SDDMMCsrKernel_src csr ty = Ok src
    ∧ (ty ≤ csr_row_start csr (csr_num_rows csr - 1) →
       csr_row_start csr src ≤ ty < csr_row_end csr src)
    ∧ (csr_row_start csr (csr_num_rows csr - 1) < ty →
       src = csr_num_rows csr - 2
       ∧ csr_row_start csr (csr_num_rows csr - 1) ≤ ty
           < csr_row_end csr (csr_num_rows csr - 1)).
Proof.
  intros Hwf Hn Hty.
  destruct (csr_wf_unpack csr Hwf) as (_ & _ & _ & Hspan & _).
  destruct (BinarySearchSrc_spec csr (csr_num_rows csr) ty Hwf)
    as (r & Hrun & Hlt & Heq & Hgt); [lia|lia|].
  exists r. split; [done|]. split.
  - intros Hle. apply Zle_lt_or_eq in Hle as [Hl|He].
    + by apply Hlt.
    + rewrite (Heq He), csr_row_end_start.
      replace (csr_num_rows csr - 1 + 1) with (csr_num_rows csr) by lia. lia.
  - intros Hl. split; [by apply Hgt|].
    rewrite csr_row_end_start.
    replace (csr_num_rows csr - 1 + 1) with (csr_num_rows csr) by lia. lia.
Qed.

(** C2 at a failing input.  [csr1] has the row offsets [0; 2; 2; 4]:
    the edge position 3 lies in row 2, and [SDDMMCsrKernel] computes
    the source row 1 for it (a row without a single edge). *)
Theorem SDDMMCsrKernel_src_last_row :
  csr_wf csr1 = true
  ∧ csr_row_start csr1 2 ≤ 3 < csr_row_end csr1 2
  ∧ SDDMMCsrKernel_src csr1 3 = Ok 1
  ∧ BinarySearchSrc (csr_indptr csr1) (csr_num_rows csr1 + 1) 3 = Ok 2.
Proof. by vm_compute. Qed.


(** * Index resolver *)

Lemma Numel_cons (x : Z) (sh : list Z) : Numel (x :: sh) = x * Numel sh.
Proof. by apply Numel_head. Qed.

Lemma Numel_pos (sh : list Z) : Forall (λ x, 0 < x) sh → 0 < Numel sh.
Proof.
  induction 1 as [|x sh Hx _ IH]; [done|]. rewrite Numel_cons. lia.
Qed.

Lemma strides_of_length (sh : list Z) : length (strides_of sh) = length sh.
Proof. induction sh as [|x sh IH]; simpl; [done|]. by rewrite IH. Qed.

Lemma strides_of_lookup (sh : list Z) (n : nat) :
  (n < length sh)%nat → strides_of sh !! n = Some (Numel (drop (S n) sh)).
Proof.
  revert n. induction sh as [|x sh IH]; intros n Hn; simpl in *; [lia|].
  destruct n as [|n]; simpl; [by rewrite drop_0|]. apply IH. lia.
Qed.

Lemma Numel_drop (sh : list Z) (n : nat) (x : Z) :
  sh !! n = Some x → Numel (drop n sh) = x * Numel (drop (S n) sh).
Proof.
  revert n. induction sh as [|y sh IH]; intros n Hn; [done|].
  destruct n as [|n]; simpl in *.
  - injection Hn as ->. by rewrite Numel_cons, drop_0.
  - by apply IH.
Qed.

Lemma out_wf_facts (ndim : Z) (osh ost : list Z) :
  out_wf ndim osh ost = true →
  Z.of_nat (length osh) = ndim
  ∧ Z.of_nat (length ost) = ndim
  ∧ (∀ d, 0 ≤ d < ndim → 0 < cell 0 osh d)
  ∧ (∀ d, 0 ≤ d < ndim → cell 0 ost d = tail_numel osh (d + 1))
  ∧ (∀ d, 0 ≤ d < ndim → tail_numel osh d = cell 0 osh d * tail_numel osh (d + 1))
  ∧ (∀ d, 0 ≤ d ≤ ndim → 0 < tail_numel osh d)
  ∧ tail_numel osh ndim = 1
  ∧ tail_numel osh 0 = Numel osh.
Proof.
  unfold out_wf. rewrite !andb_true_iff, !bool_decide_eq_true.
  intros [[Hlen ->] Hpos]. apply Is_true_true_2, forallb_True in Hpos.
  assert (Forall (λ x, 0 < x) osh) as Hpos'.
  { eapply Forall_impl; [exact Hpos|]. intros x Hx. by apply bool_decide_spec in Hx. }
  clear Hpos. rewrite strides_of_length. split; [done|]. split; [done|].
  split; [|split; [|split; [|split; [|split]]]].
  - intros d Hd. rewrite Forall_lookup in Hpos'.
    apply (Hpos' (Z.to_nat d)). apply cell_lookup. lia.
  - intros d Hd. unfold cell, tail_numel. rewrite decide_True by lia.
    rewrite strides_of_lookup by lia. simpl. f_equal. f_equal. lia.
  - intros d Hd. unfold tail_numel.
    rewrite (Numel_drop osh (Z.to_nat d) (cell 0 osh d)) by (apply cell_lookup; lia).
    do 3 f_equal. lia.
  - intros d Hd. unfold tail_numel. apply Numel_pos. by apply Forall_drop.
  - unfold tail_numel. rewrite drop_ge by lia. done.
  - unfold tail_numel. by rewrite drop_0.
Qed.

Lemma operand_wf_facts (ndim : Z) (osh psh pst : list Z) :
  operand_wf ndim osh psh pst = true →
  Z.of_nat (length psh) = ndim
  ∧ Z.of_nat (length pst) = ndim
  ∧ (∀ d, 0 ≤ d < ndim → cell 0 psh d = cell 0 osh d ∨ cell 0 psh d = 1).
Proof.
  unfold operand_wf. rewrite !andb_true_iff, !bool_decide_eq_true.
  intros [[Hl1 Hl2] Hall]. split; [done|]. split; [done|].
  apply Is_true_true_2, forallb_True in Hall. rewrite Forall_forall in Hall.
  intros d Hd. specialize (Hall d). rewrite elem_of_seqZ, bool_decide_spec in Hall.
  apply Hall. lia.
Qed.

(** The accumulation loop of [UnravelRavel] for the operand that is
    not on the fast path. *)
Lemma UnravelRavel_loop (idx ndim : Z) (osh ost psh pst : list Z) :
  out_wf ndim osh ost = true →
  operand_wf ndim osh psh pst = true →
  0 ≤ idx →
  for_loop 0 ndim (λ d p_out,
    o_sh ← load osh d;
    o_st ← load ost d;
    p_sh ← load psh d;
    p_st ← load pst d;
    q ← c_div idx o_st;
    i ← c_mod q o_sh;
    if decide (p_sh > i) then Ok (p_out + i * p_st) else Ok p_out) 0
  = Ok (ravel_min idx ndim osh ost psh pst).
Proof.
  intros Hout Hop Hidx.
  destruct (out_wf_facts _ _ _ Hout) as (Hlo & Hlt & Hpos & Hst & _ & Htpos & _).
  destruct (operand_wf_facts _ _ _ _ Hop) as (Hlp & Hlpt & Hsh).
  unfold ravel_min.
  rewrite (for_loop_pure _ (λ acc d,
             acc + Z.min (coord idx osh ost d) (cell 0 psh d - 1) * cell 0 pst d));
    [by rewrite Z.sub_0_r|].
  intros d acc Hd.
  rewrite (load_in_range 0 osh), (load_in_range 0 ost) by lia. simpl.
  rewrite (load_in_range 0 psh), (load_in_range 0 pst) by lia. simpl.
  pose proof (Hpos d ltac:(lia)) as Hp.
  pose proof (Htpos (d + 1) ltac:(lia)) as Hs. rewrite <- Hst in Hs by lia.
  rewrite c_div_ok by lia. simpl. rewrite c_mod_ok by lia. simpl.
  rewrite Z.quot_div_nonneg by lia.
  rewrite Z.rem_mod_nonneg by (try apply Z.div_pos; lia).
  fold (coord idx osh ost d).
  assert (0 ≤ coord idx osh ost d < cell 0 osh d) as Hc
    by (apply Z.mod_pos_bound; lia).
  destruct (Hsh d ltac:(lia)) as [Heq|Heq]; rewrite Heq; case_decide; f_equal;
    match goal with
    | |- context [Z.min ?a ?b] => destruct (Z.min_spec a b) as [[? ->]|[? ->]]
    end; first [nia | do 2 f_equal; lia].
Qed.

(** For an operand with the shape and the strides of the output the
    sum is the flattened output index itself. *)
Lemma ravel_min_self (idx ndim : Z) (osh ost : list Z) :
  out_wf ndim osh ost = true →
  0 ≤ idx < Numel osh →
  ravel_min idx ndim osh ost osh ost = idx.
Proof.
  intros Hout Hidx.
  destruct (out_wf_facts _ _ _ Hout)
    as (Hlo & Hlt & Hpos & Hst & Hstep & Htpos & Hlast & Hfirst).
  assert (0 ≤ ndim) as Hnd by lia.
  assert (∀ m : nat, Z.of_nat m ≤ ndim →
    foldl (λ acc d,
             acc + Z.min (coord idx osh ost d) (cell 0 osh d - 1) * cell 0 ost d)
          0 (seqZ 0 (Z.of_nat m))
    = idx `div` tail_numel osh (Z.of_nat m) * tail_numel osh (Z.of_nat m)) as Hsum.
  { induction m as [|m IH]; intros Hm.
    - change (Z.of_nat 0) with 0. rewrite Hfirst, Z.div_small by lia. done.
    - rewrite seqZ_S, foldl_app, IH by lia. simpl. rewrite Z.add_0_l.
      set (d := Z.of_nat m). assert (0 ≤ d < ndim) as Hd by lia.
      replace (Z.of_nat (S m)) with (d + 1) by lia.
      pose proof (Hpos d Hd) as Hp. pose proof (Htpos (d + 1) ltac:(lia)) as Hs.
      assert (0 ≤ coord idx osh ost d < cell 0 osh d) as Hc
        by (apply Z.mod_pos_bound; lia).
      rewrite Z.min_l by lia. unfold coord. rewrite (Hst d Hd), (Hstep d Hd).
      set (P := tail_numel osh (d + 1)) in *. set (s := cell 0 osh d) in *.
      rewrite (Z.mul_comm s P), <- Z.div_div by lia.
      pose proof (Z.div_mod (idx `div` P) s ltac:(lia)). nia. }
  unfold ravel_min. rewrite <- (Z2Nat.id ndim) by lia.
  rewrite Hsum by lia. rewrite Z2Nat.id, Hlast by lia.
  rewrite Z.div_1_r. lia.
Qed.

(** C5 at a failing input.  With an output of shape [2; 3], a left
    operand of shape [2; 1] and a right operand of shape [1; 3] (both
    broadcast), the leading strides of the left operand and of the
    output differ, so the code takes the branch that hands [idx] to the
    right operand: at [idx = 4] the right operand, which has 3
    elements, receives 4, where the sum of the claim and of the
    comments of the code is 1.  With a left operand of shape [1; 3],
    whose leading stride equals that of the output, and a right operand
    of the shape of the output, the left operand receives 4 in the same
    way. *)
Theorem UnravelRavel_broadcast_failing_input :
  out_wf 2 [2; 3] [3; 1] = true
  ∧ operand_wf 2 [2; 3] [2; 1] [1; 1] = true
  ∧ operand_wf 2 [2; 3] [1; 3] [3; 1] = true
  ∧ operand_wf 2 [2; 3] [2; 3] [3; 1] = true
  ∧ Numel [1; 3] = 3
  ∧ ravel_min 4 2 [2; 3] [3; 1] [1; 3] [3; 1] = 1
  ∧ UnravelRavel 4 2 [2; 3] [3; 1] [2; 1] [1; 1] [1; 3] [3; 1] 0 0 = Ok (1, 4)
  ∧ UnravelRavel 4 2 [2; 3] [3; 1] [1; 3] [3; 1] [2; 3] [3; 1] 0 0 = Ok (4, 4).
Proof. by vm_compute. Qed.

(** * Further properties of the SpMM kernels *)

Lemma filter_none {A} (P : A → Prop) `{∀ x, Decision (P x)} (l : list A) :
  (∀ x, x ∈ l → ¬ P x) → filter P l = [].
Proof.
  induction l as [|x l IH]; intros Hno; [done|].
  rewrite filter_cons_False by (apply Hno; left).
  apply IH. intros y Hy. apply Hno. by right.
Qed.

Lemma entries_for_coo_fmap (coo : COOMatrix) (c : Z) (l : list Z) :
  entries_for c (coo_nonzero coo <$> l)
  = coo_nonzero coo <$> filter (λ i, cell 0 (coo_col coo) i = c) l.
Proof.
  unfold entries_for. induction l as [|i l IH]; [done|].
  rewrite fmap_cons, !filter_cons. simpl.
  destruct (decide (cell 0 (coo_col coo) i = c)); simpl; by rewrite IH.
Qed.

Section SumMore.
Context {D : Type} `{!DTypeOps D}.

(** [SpMMSumCsr] with the cells it does not write. *)
Lemma SpMMSumCsr_spec_frame (op : Op) (csr : CSRMatrix) (ufeat efeat : Tensor D)
    (out : NDArray D) :
  let dim := feat_dim (shape out) in
  csr_wf csr = true →
  operands_ok op ufeat efeat dim (csr_entries csr) = true →
  0 ≤ dim →
  csr_num_rows csr * dim ≤ Z.of_nat (length (data out)) →
  ∃ Obuf, SpMMSumCsr op csr ufeat efeat out = Ok Obuf
    ∧ length Obuf = length (data out)
    ∧ (∀ r k, 0 ≤ r < csr_num_rows csr → 0 ≤ k < dim →
         cell dzero Obuf (r * dim + k)
         = sum_of (contrib op ufeat efeat dim k <$> csr_row_entries csr r))
    ∧ (∀ i, csr_num_rows csr * dim ≤ i → cell dzero Obuf i = cell dzero (data out) i).
Proof.
  intros dim Hwf Hok Hdim Hlen.
  destruct (csr_wf_unpack csr Hwf) as (Hn & _).
  destruct (SpMMSumCsr_spec op csr ufeat efeat out Hwf Hok Hlen)
    as (Obuf & Hrun & Hl & Hcells).
  exists Obuf. split; [done|]. split; [done|]. split; [done|].
  (* the frame: a second pass over the loops with the frame as invariant *)
  revert Hrun. unfold SpMMSumCsr. cbv zeta. fold dim. intros Hrun.
  pose (Q := λ (_ : Z) (b : list D),
    length b = length (data out)
    ∧ ∀ i, csr_num_rows csr * dim ≤ i → cell dzero b i = cell dzero (data out) i).
  match type of Hrun with for_loop _ _ ?b _ = _ =>
    destruct (for_loop_inv Q 0 (csr_num_rows csr) b (data out))
      as (Obuf' & Hrun' & _ & Hframe) end; [done|by split| |].
  - intros r O1 Hr (Hl1 & Hf1).
    rewrite (csr_load_indptr csr r Hwf) by lia. simpl.
    rewrite (csr_load_indptr csr (r + 1) Hwf) by lia. simpl.
    rewrite <- csr_row_end_start.
    match goal with |- ∃ s', for_loop 0 dim ?b O1 = _ ∧ _ =>
      destruct (for_loop_inv Q 0 dim b O1) as (O2 & Hrun2 & HQ2) end;
      [done|by split| |by exists O2].
    intros k O3 Hk (Hl3 & Hf3).
    rewrite (SpMMSumCsr_cell op csr ufeat efeat dim r k Hwf Hok Hr Hk). simpl.
    assert (0 ≤ r * dim + k < csr_num_rows csr * dim) as Hin by nia.
    rewrite (store_in_range O3) by (rewrite Hl3; lia).
    eexists; split; [done|]. split; [by rewrite length_insert|].
    intros i Hi. rewrite cell_insert_ne by lia. by apply Hf3.
  - rewrite Hrun in Hrun'. by injection Hrun' as <-.
Qed.

(** X1.  [SpMMSumCsr] assigns every cell of the rows [0 .. num_rows-1]
    and no other cell: what the output buffer held in those rows has no
    influence on the result, and the rest of the buffer is left as it
    was. *)
Theorem SpMMSumCsr_overwrites (op : Op) (csr : CSRMatrix) (ufeat efeat : Tensor D)
    (out out' : NDArray D) :
  let dim := feat_dim (shape out) in
  csr_wf csr = true →
  operands_ok op ufeat efeat dim (csr_entries csr) = true →
  0 ≤ dim →
  csr_num_rows csr * dim ≤ Z.of_nat (length (data out)) →
  shape out' = shape out →
  length (data out') = length (data out) →
  (∀ i, csr_num_rows csr * dim ≤ i →
     cell dzero (data out') i = cell dzero (data out) i) →
  ∃ Obuf, SpMMSumCsr op csr ufeat efeat out = Ok Obuf
    ∧ SpMMSumCsr op csr ufeat efeat out' = Ok Obuf
    ∧ ∀ i, csr_num_rows csr * dim ≤ i →
        cell dzero Obuf i = cell dzero (data out) i.
Proof.
  cbv zeta. intros Hwf Hok Hdim Hlen Hsh Hl' Htail.
  destruct (SpMMSumCsr_spec_frame op csr ufeat efeat out Hwf Hok Hdim Hlen)
    as (O1 & Hrun1 & Hl1 & Hc1 & Hf1).
  destruct (SpMMSumCsr_spec_frame op csr ufeat efeat out')
    as (O2 & Hrun2 & Hl2 & Hc2 & Hf2); rewrite ?Hsh, ?Hl'; try done.
  rewrite Hsh in Hc2, Hf2.
  exists O1. split; [done|]. split; [|done].
  rewrite Hrun2. f_equal. apply (cells_eq dzero); [congruence|].
  intros i Hi.
  destruct (decide (i < csr_num_rows csr * feat_dim (shape out))) as [Hlt|Hge].
  - destruct (flat_index (csr_num_rows csr) (feat_dim (shape out)) i)
      as (r & k & Hr & Hk & ->); [done|lia|].
    by rewrite Hc1, Hc2.
  - rewrite Hf1, Hf2 by lia. apply Htail. lia.
Qed.

(** X2.  [SpMMSumCoo] runs to completion on a well-formed COO matrix and
    leaves in [out[c,k]] the sum, accumulated from 0 in the order of
    the nonzeros, of [combine(ufeat[row[i]*dim + k], efeat[eid*dim + k])]
    over the nonzeros [i] with [col[i] = c]; an output row no nonzero
    points to is all 0.  The whole output tensor is zeroed first, so the
    result does not depend on what the buffer held. *)
Theorem SpMMSumCoo_correct (op : Op) (coo : COOMatrix) (ufeat efeat : Tensor D)
    (out out' : NDArray D) (rows : Z) :
  let dim := feat_dim (shape out) in
  let nnz := Z.of_nat (length (coo_row coo)) in
  coo_wf coo = true →
  operands_ok op ufeat efeat dim (coo_entries coo) = true →
  targets_ok rows (coo_entries coo) = true →
  out_ok rows out = true →
  shape out' = shape out →
  length (data out') = length (data out) →
  ∃ Obuf, SpMMSumCoo op coo ufeat efeat out = Ok Obuf
    ∧ SpMMSumCoo op coo ufeat efeat out' = Ok Obuf
    ∧ length Obuf = length (data out)
    ∧ ∀ c k, 0 ≤ c < rows → 0 ≤ k < dim →
        load Obuf (c * dim + k)
        = Ok (sum_of ((λ i,
                combine op
                  (cell dzero (tdata ufeat) (cell 0 (coo_row coo) i * dim + k))
                  (cell dzero (tdata efeat) (coo_eid coo i * dim + k)))
              <$> filter (λ i, cell 0 (coo_col coo) i = c) (seqZ 0 nnz)))
        ∧ ((∀ i, 0 ≤ i < nnz → cell 0 (coo_col coo) i ≠ c) →
           load Obuf (c * dim + k) = Ok dzero).
Proof.
  cbv zeta. intros Hwf Hok Htg Hout Hsh Hl'.
  destruct (out_ok_unpack _ _ Hout) as (Hdim & _ & Hlen).
  destruct (SpMMSumCoo_spec op coo ufeat efeat out rows Hwf Hok Htg Hout)
    as (O1 & Hrun1 & Hl1 & Hc1).
  assert (out_ok rows out' = true) as Hout'.
  { unfold out_ok in *. by rewrite Hsh, Hl'. }
  destruct (SpMMSumCoo_spec op coo ufeat efeat out' rows)
    as (O2 & Hrun2 & Hl2 & Hc2); rewrite ?Hsh; try done.
  rewrite Hsh in Hc2.
  exists O1. split; [done|]. split; [|split; [done|]].
  - rewrite Hrun2. f_equal. apply (cells_eq dzero); [congruence|].
    intros i Hi.
    destruct (flat_index rows (feat_dim (shape out)) i)
      as (r & k & Hr & Hk & ->); [done|lia|].
    by rewrite Hc1, Hc2.
  - intros c k Hc Hk.
    rewrite (load_in_range dzero O1) by (rewrite Hl1; nia).
    rewrite (Hc1 c k Hc Hk). unfold coo_entries.
    rewrite entries_for_coo_fmap, <- list_fmap_compose. split; [done|].
    intros Hnone. rewrite filter_none; [done|].
    intros i Hi. apply elem_of_seqZ in Hi. apply Hnone. lia.
Qed.

End SumMore.

(** * Further properties of the compare kernels *)

(** An element of [filter P l] is an element of [l] that satisfies [P],
    and what comes before it in [l] and satisfies [P] comes before it
    in [filter P l]. *)
Lemma filter_lookup_earlier {A} (P : A → Prop) `{∀ x, Decision (P x)} (l : list A)
    (m : nat) (x : A) :
  filter P l !! m = Some x →
  ∃ n : nat, l !! n = Some x ∧ P x
    ∧ ∀ (n' : nat) y, (n' < n)%nat → l !! n' = Some y → P y →
        ∃ m' : nat, (m' < m)%nat ∧ filter P l !! m' = Some y.
Proof.
  revert m. induction l as [|a l IH]; intros m Hm; [done|].
  rewrite filter_cons in Hm |- *. destruct (decide (P a)) as [Ha|Ha].
  - destruct m as [|m]; simpl in Hm.
    + injection Hm as ->. exists 0%nat. split; [done|]. split; [done|].
      intros n' y Hn'. lia.
    + destruct (IH m Hm) as (n & Hn & Hx & Hearlier).
      exists (S n). split; [done|]. split; [done|].
      intros [|n'] y Hlt Hy HPy; simpl in Hy.
      * injection Hy as ->. exists 0%nat. split; [lia|done].
      * destruct (Hearlier n' y ltac:(lia) Hy HPy) as (m' & Hlt' & Hm').
        exists (S m'). split; [lia|done].
  - destruct (IH m Hm) as (n & Hn & Hx & Hearlier).
    exists (S n). split; [done|]. split; [done|].
    intros [|n'] y Hlt Hy HPy; simpl in Hy.
    + injection Hy as ->. done.
    + apply (Hearlier n' y); [lia|done..].
Qed.

(** ** Lists of steps *)

Lemma run_steps_ext {A St} (f g : A → St → result St) (l : list A) (s : St) :
  (∀ a s, a ∈ l → f a s = g a s) → run_steps f l s = run_steps g l s.
Proof.
  revert s. induction l as [|a l IH]; intros s Hfg; simpl; [done|].
  rewrite (Hfg a s) by left. destruct (g a s) as [s'| |]; simpl; try done.
  apply IH. intros b t Hb. apply Hfg. by right.
Qed.

Lemma run_steps_app {A St} (f : A → St → result St) (l1 l2 : list A) (s : St) :
  run_steps f (l1 ++ l2) s = s' ← run_steps f l1 s; run_steps f l2 s'.
Proof.
  revert s. induction l1 as [|a l1 IH]; intros s; simpl; [done|].
  destruct (f a s) as [s'| |]; simpl; [apply IH|done..].
Qed.

Lemma run_steps_bind {A B St} (f : B → St → result St) (g : A → list B)
    (l : list A) (s : St) :
  run_steps f (l ≫= g) s = run_steps (λ a t, run_steps f (g a) t) l s.
Proof.
  revert s. induction l as [|a l IH]; intros s; [done|].
  rewrite bind_cons, run_steps_app. simpl.
  destruct (run_steps f (g a) s) as [s'| |]; simpl; [apply IH|done..].
Qed.

Lemma run_steps_fmap {A B St} (f : B → St → result St) (h : A → B)
    (l : list A) (s : St) :
  run_steps f (h <$> l) s = run_steps (λ a, f (h a)) l s.
Proof.
  revert s. induction l as [|a l IH]; intros s; simpl; [done|].
  destruct (f (h a) s); simpl; [apply IH|done..].
Qed.

Lemma iterM_run_steps {St} (body : Z → St → result St) (l : list Z) (s : St) :
  iterM body l s = run_steps body l s.
Proof.
  revert s. induction l as [|i l IH]; intros s; simpl; [done|].
  destruct (body i s); simpl; [apply IH|done..].
Qed.

Lemma elem_of_loop_steps (nnz dim : Z) (p : Z * Z) :
  p ∈ loop_steps nnz dim ↔ 0 ≤ p.1 < nnz ∧ 0 ≤ p.2 < dim.
Proof.
  unfold loop_steps. rewrite list_elem_of_bind. split.
  - intros (i & Hp & Hi). apply list_elem_of_bind in Hp as (k & Hp & Hk).
    apply list_elem_of_singleton in Hp as ->.
    apply elem_of_seqZ in Hi, Hk. simpl. lia.
  - intros (Hi & Hk). exists p.1. split; [|apply elem_of_seqZ; lia].
    apply list_elem_of_bind. exists p.2. split; [|apply elem_of_seqZ; lia].
    destruct p. simpl. by apply list_elem_of_singleton.
Qed.

Lemma bind_singleton_fmap {A B} (f : A → B) (l : list A) :
  l ≫= (λ a, [f a]) = f <$> l.
Proof. induction l as [|a l IH]; [done|]. rewrite bind_cons, fmap_cons, IH. done. Qed.

(** The position of a step in the index order. *)
Lemma loop_steps_lookup_from (lo : Z) (len : nat) (dim : Z) (n : nat) (i k : Z) :
  (seqZ lo (Z.of_nat len) ≫= λ i, seqZ 0 dim ≫= λ k, [(i, k)]) !! n = Some (i, k) →
  Z.of_nat n = (i - lo) * dim + k ∧ 0 ≤ k < dim ∧ lo ≤ i.
Proof.
  revert lo n. induction len as [|len IH]; intros lo n Hn; [done|].
  rewrite (seqZ_cons lo) in Hn by lia.
  replace (Z.pred (Z.of_nat (S len))) with (Z.of_nat len) in Hn by lia.
  rewrite bind_cons, bind_singleton_fmap in Hn.
  apply lookup_app_Some in Hn as [Hn|[Hge Hn]].
  - apply list_lookup_fmap_Some in Hn as (k' & Heq & Hk').
    injection Heq as -> ->. apply lookup_seqZ in Hk' as [-> Hlt]. lia.
  - rewrite length_fmap, length_seqZ in Hge, Hn. apply IH in Hn.
    destruct Hn as (Hn & Hk & Hi). split; [nia|lia].
Qed.

(** In the index order, of two steps for one feature index the one of
    the smaller nonzero comes first. *)
Lemma loop_steps_ordered (nnz dim : Z) (n n' : nat) (i i' k : Z) :
  loop_steps nnz dim !! n = Some (i, k) →
  loop_steps nnz dim !! n' = Some (i', k) →
  i' < i → (n' < n)%nat.
Proof.
  unfold loop_steps. intros Hn Hn' Hlt.
  destruct (decide (0 ≤ nnz)) as [Hnnz|Hnnz]; [|by rewrite (seqZ_nil 0 nnz) in Hn by lia].
  rewrite <- (Z2Nat.id nnz) in Hn, Hn' by done.
  apply loop_steps_lookup_from in Hn, Hn'. nia.
Qed.

Section CmpMore.
Context {D : Type} `{!DTypeOps D}.
Implicit Types (op : Op) (cmp : Cmp) (ufeat efeat : Tensor D) (e : nonzero).

(** The argument buffer of an unused operand comes back from
    [SpMMCmpCoo] as it went in. *)
Lemma SpMMCmpCoo_unused_arg op cmp (coo : COOMatrix) ufeat efeat (out : NDArray D)
    (argu arge : list Z) (rows : Z) (Obuf : list D) (argX argW : list Z) :
  let dim := feat_dim (shape out) in
  coo_wf coo = true →
  operands_ok op ufeat efeat dim (coo_entries coo) = true →
  targets_ok rows (coo_entries coo) = true →
  out_ok rows out = true →
  arg_ok (use_lhs op) (rows * dim) argu = true →
  arg_ok (use_rhs op) (rows * dim) arge = true →
  SpMMCmpCoo op cmp coo ufeat efeat out argu arge = Ok (Obuf, argX, argW) →
  (use_lhs op = false → argX = argu) ∧ (use_rhs op = false → argW = arge).
Proof.
  cbv zeta. intros Hwf Hok Htg Hout Hau Hae Hrun.
  destruct (out_ok_unpack _ _ Hout) as (Hdim & _ & _).
  destruct (SpMMCmpCoo_spec op cmp coo ufeat efeat out argu arge rows
              Hwf Hok Htg Hout Hau Hae)
    as (O' & X' & W' & Hrun' & (_ & HlX & HlW) & Hcells & Hframe).
  rewrite Hrun in Hrun'. injection Hrun' as <- <- <-.
  split; intros Hu; apply (cells_eq 0); try done; intros i Hi.
  - destruct (decide (i < rows * feat_dim (shape out))) as [Hlt|Hge].
    + destruct (flat_index rows (feat_dim (shape out)) i)
        as (c & k & Hc & Hk & ->); [done|lia|].
      pose proof (f_equal (λ t, t.1.2) (Hcells c k Hc Hk)) as Hx. simpl in Hx.
      rewrite Hx. by apply cmp_reduce_unused.
    + apply Hframe. lia.
  - destruct (decide (i < rows * feat_dim (shape out))) as [Hlt|Hge].
    + destruct (flat_index rows (feat_dim (shape out)) i)
        as (c & k & Hc & Hk & ->); [done|lia|].
      pose proof (f_equal (λ t, t.2) (Hcells c k Hc Hk)) as Hx. simpl in Hx.
      rewrite Hx. by apply cmp_reduce_unused.
    + apply Hframe. lia.
Qed.

(** One step of the parallel loop: the compare-and-update of one cell
    of the output with one nonzero. *)
Lemma SpMMCmpCoo_step_spec op cmp (coo : COOMatrix) ufeat efeat (dim rows i k : Z)
    (st1 : list D * list Z * list Z) :
  coo_wf coo = true →
  operands_ok op ufeat efeat dim (coo_entries coo) = true →
  targets_ok rows (coo_entries coo) = true →
  0 ≤ i < Z.of_nat (length (coo_row coo)) → 0 ≤ k < dim →
  rows * dim ≤ Z.of_nat (length st1.1.1) →
  arg_ok (use_lhs op) (rows * dim) st1.1.2 = true →
  arg_ok (use_rhs op) (rows * dim) st1.2 = true →
  let tgt := cell 0 (coo_col coo) i in
  ∃ st2,
    SpMMCmpCoo_step op cmp coo ufeat efeat dim (i, k) st1 = Ok st2
    ∧ (length st2.1.1 = length st1.1.1
       ∧ length st2.1.2 = length st1.1.2
       ∧ length st2.2 = length st1.2)
    ∧ 0 ≤ tgt < rows
    ∧ cells3 st2 (tgt * dim + k)
      = cmp_step op cmp ufeat efeat dim k (cells3 st1 (tgt * dim + k))
          (coo_nonzero coo i)
    ∧ (∀ j, j ≠ tgt * dim + k → cells3 st2 j = cells3 st1 j).
Proof.
  intros Hwf Hok Htg Hi Hk Hlen Hax Haw tgt.
  destruct st1 as [[Ob Xb] Wb]. simpl in Hlen, Hax, Haw.
  pose proof (coo_nonzero_in coo i Hi) as Hin.
  destruct (operands_ok_elem op ufeat efeat dim _ _ Hok Hin) as (Hfl & Hfr).
  pose proof (targets_ok_elem rows _ _ Htg Hin) as Ht. simpl in Ht. fold tgt in Ht.
  unfold SpMMCmpCoo_step. cbv zeta. simpl fst. simpl snd.
  rewrite (load_in_range 0 (coo_row coo) i Hi). simpl.
  rewrite (coo_load_col coo i Hwf Hi). simpl.
  rewrite (coo_load_eid coo i Hwf Hi). simpl.
  fold tgt.
  rewrite (Call_contrib op ufeat efeat dim k tgt _ _ Hfl Hfr Hk). simpl.
  change (mkNz tgt (cell 0 (coo_row coo) i) (coo_eid coo i))
    with (coo_nonzero coo i).
  assert (0 ≤ tgt * dim + k < rows * dim) as Hcell by nia.
  assert (0 ≤ tgt * dim + k < Z.of_nat (length Ob)) as HinO by lia.
  assert (use_lhs op = true → 0 ≤ tgt * dim + k < Z.of_nat (length Xb)) as HinX.
  { intros Hu. eapply arg_ok_bound; [apply Hax|done..]. }
  assert (use_rhs op = true → 0 ≤ tgt * dim + k < Z.of_nat (length Wb)) as HinW.
  { intros Hu. eapply arg_ok_bound; [apply Haw|done..]. }
  rewrite (load_in_range dzero Ob) by done. simpl.
  unfold cells3, cmp_step. simpl.
  destruct (cmp_Call cmp (cell dzero Ob (tgt * dim + k))
              (contrib op ufeat efeat dim k (coo_nonzero coo i))) eqn:Hcmp.
  - rewrite (store_in_range Ob) by done. simpl.
    rewrite (cond_store (use_lhs op) Xb) by done. simpl.
    rewrite (cond_store (use_rhs op) Wb) by done. simpl.
    eexists; split; [done|]. simpl.
    split; [by rewrite length_insert, !upd_length|]. split; [done|]. split.
    + by rewrite cell_insert_eq, !cell_upd_used by done.
    + intros j Hj. by rewrite cell_insert_ne, !cell_upd_ne by lia.
  - eexists; split; [done|]. simpl. done.
Qed.

(** A list of steps of the parallel loop, from any state: every cell
    of the output ends as the compare reduction of the nonzeros that
    reach it, in the order of their steps. *)
Lemma SpMMCmpCoo_run_steps_spec op cmp (coo : COOMatrix) ufeat efeat (dim rows : Z)
    (steps : list (Z * Z)) (st1 : list D * list Z * list Z) :
  coo_wf coo = true →
  operands_ok op ufeat efeat dim (coo_entries coo) = true →
  targets_ok rows (coo_entries coo) = true →
  Forall (λ p : Z * Z, 0 ≤ p.1 < Z.of_nat (length (coo_row coo)) ∧ 0 ≤ p.2 < dim)
    steps →
  rows * dim ≤ Z.of_nat (length st1.1.1) →
  arg_ok (use_lhs op) (rows * dim) st1.1.2 = true →
  arg_ok (use_rhs op) (rows * dim) st1.2 = true →
  ∃ st2,
    run_steps (SpMMCmpCoo_step op cmp coo ufeat efeat dim) steps st1 = Ok st2
    ∧ (length st2.1.1 = length st1.1.1
       ∧ length st2.1.2 = length st1.1.2
       ∧ length st2.2 = length st1.2)
    ∧ (∀ c k, 0 ≤ c < rows → 0 ≤ k < dim →
         cells3 st2 (c * dim + k)
         = cmp_reduce op cmp ufeat efeat dim k (cells3 st1 (c * dim + k))
             (coo_nonzero coo <$> hits coo c k steps))
    ∧ (∀ j, ¬ (0 ≤ j < rows * dim) → cells3 st2 j = cells3 st1 j).
Proof.
  intros Hwf Hok Htg Hall. revert st1.
  induction Hall as [|[i k0] steps (Hi & Hk0) Hall IH]; intros st1 Hlen Hax Haw.
  { exists st1. simpl. done. }
  simpl in Hi, Hk0.
  destruct (SpMMCmpCoo_step_spec op cmp coo ufeat efeat dim rows i k0 st1
              Hwf Hok Htg Hi Hk0 Hlen Hax Haw)
    as (st' & Hstep & (HlO & HlX & HlW) & Ht & Hnew & Hold).
  cbv zeta in Ht, Hnew, Hold.
  destruct (IH st') as (st2 & Hrun & (HlO2 & HlX2 & HlW2) & Hcells & Hframe).
  { lia. }
  { apply (arg_ok_mono _ (rows * dim) _ st1.1.2); [done|lia|done]. }
  { apply (arg_ok_mono _ (rows * dim) _ st1.2); [done|lia|done]. }
  exists st2. simpl. rewrite Hstep. simpl.
  split; [done|]. split; [split_and!; congruence|]. split.
  - intros c k Hc Hk. rewrite (Hcells c k Hc Hk). unfold hits.
    rewrite filter_cons. simpl.
    destruct (decide (cell 0 (coo_col coo) i = c ∧ k0 = k)) as [[<- <-]|Hne].
    + simpl. by rewrite Hnew.
    + rewrite Hold; [done|]. intros Heq. apply Hne.
      assert (c = cell 0 (coo_col coo) i) by nia. split; [done|nia].
  - intros j Hj. rewrite (Hframe j Hj). apply Hold. nia.
Qed.

(** [SpMMCmpCoo] with its loop run as a list of steps. *)
Lemma SpMMCmpCoo_steps_spec op cmp (coo : COOMatrix) ufeat efeat (out : NDArray D)
    (argu arge : list Z) (rows : Z) (steps : list (Z * Z)) :
  let dim := feat_dim (shape out) in
  coo_wf coo = true →
  operands_ok op ufeat efeat dim (coo_entries coo) = true →
  targets_ok rows (coo_entries coo) = true →
  out_ok rows out = true →
  arg_ok (use_lhs op) (rows * dim) argu = true →
  arg_ok (use_rhs op) (rows * dim) arge = true →
  Forall (λ p : Z * Z, 0 ≤ p.1 < Z.of_nat (length (coo_row coo)) ∧ 0 ≤ p.2 < dim)
    steps →
  ∃ Obuf argX argW,
    SpMMCmpCoo_steps op cmp coo ufeat efeat out argu arge steps
    = Ok (Obuf, argX, argW)
    ∧ (use_lhs op = false → argX = argu)
    ∧ (use_rhs op = false → argW = arge)
    ∧ (∀ c k, 0 ≤ c < rows → 0 ≤ k < dim →
         cells3 (Obuf, argX, argW) (c * dim + k)
         = cmp_reduce op cmp ufeat efeat dim k
             (cmp_zero cmp, cell 0 argu (c * dim + k), cell 0 arge (c * dim + k))
             (coo_nonzero coo <$> hits coo c k steps)).
Proof.
  intros dim Hwf Hok Htg Hout Hau Hae Hall.
  destruct (out_ok_unpack rows out Hout) as (Hdim & Hnumel & Hlen).
  fold dim in Hdim, Hnumel, Hlen.
  unfold SpMMCmpCoo_steps. cbv zeta. fold dim.
  destruct (fill_loop dzero (cmp_zero cmp) (Numel (shape out)) (data out))
    as (O0 & Hfill & Hl0 & Hz & _); [lia|].
  rewrite Hfill. simpl.
  destruct (SpMMCmpCoo_run_steps_spec op cmp coo ufeat efeat dim rows steps
              (O0, argu, arge) Hwf Hok Htg Hall)
    as ([[Obuf argX] argW] & Hrun & (_ & HlX & HlW) & Hcells & Hframe);
    [simpl; lia|done|done|].
  simpl in HlX, HlW.
  assert (∀ c k, 0 ≤ c < rows → 0 ≤ k < dim →
            cells3 (Obuf, argX, argW) (c * dim + k)
            = cmp_reduce op cmp ufeat efeat dim k
                (cmp_zero cmp, cell 0 argu (c * dim + k), cell 0 arge (c * dim + k))
                (coo_nonzero coo <$> hits coo c k steps)) as Hcells'.
  { intros c k Hc Hk. rewrite (Hcells c k Hc Hk). unfold cells3. simpl.
    by rewrite Hz by nia. }
  exists Obuf, argX, argW. split; [done|].
  split; [|split; [|done]]; intros Hu; apply (cells_eq 0); try done; intros i Hi.
  - destruct (decide (i < rows * dim)) as [Hlt|Hge].
    + destruct (flat_index rows dim i) as (c & k & Hc & Hk & ->); [done|lia|].
      pose proof (f_equal (λ t, t.1.2) (Hcells' c k Hc Hk)) as Hx. simpl in Hx.
      rewrite Hx. by apply cmp_reduce_unused.
    + pose proof (f_equal (λ t, t.1.2) (Hframe i ltac:(lia))) as Hx. done.
  - destruct (decide (i < rows * dim)) as [Hlt|Hge].
    + destruct (flat_index rows dim i) as (c & k & Hc & Hk & ->); [done|lia|].
      pose proof (f_equal (λ t, t.2) (Hcells' c k Hc Hk)) as Hx. simpl in Hx.
      rewrite Hx. by apply cmp_reduce_unused.
    + pose proof (f_equal (λ t, t.2) (Hframe i ltac:(lia))) as Hx. done.
Qed.

(** The loop of [SpMMCmpCoo] as written is the list of steps in index
    order. *)
Lemma SpMMCmpCoo_loop_steps op cmp (coo : COOMatrix) ufeat efeat (out : NDArray D)
    (argu arge : list Z) :
  coo_wf coo = true →
  SpMMCmpCoo op cmp coo ufeat efeat out argu arge
  = SpMMCmpCoo_steps op cmp coo ufeat efeat out argu arge
      (loop_steps (Z.of_nat (length (coo_row coo))) (feat_dim (shape out))).
Proof.
  intros Hwf. unfold SpMMCmpCoo, SpMMCmpCoo_steps. cbv zeta.
  destruct (for_loop 0 (Numel (shape out)) _ (data out)) as [O0| |]; simpl;
    [|done..].
  unfold loop_steps, for_loop. rewrite iterM_run_steps, run_steps_bind.
  rewrite (Z.sub_0_r (Z.of_nat (length (coo_row coo)))).
  apply run_steps_ext. intros i [[Ob Xb] Wb] Hi. apply elem_of_seqZ in Hi.
  rewrite bind_singleton_fmap, run_steps_fmap.
  rewrite (load_in_range 0 (coo_row coo) i) by lia. simpl.
  rewrite (coo_load_col coo i Hwf) by lia. simpl.
  rewrite (coo_load_eid coo i Hwf) by lia. simpl.
  rewrite iterM_run_steps, (Z.sub_0_r (feat_dim (shape out))).
  apply run_steps_ext. intros k [[Ob' Xb'] Wb'] Hk.
  unfold SpMMCmpCoo_step. cbv zeta. simpl fst. simpl snd.
  rewrite (load_in_range 0 (coo_row coo) i) by lia. simpl.
  rewrite (coo_load_col coo i Hwf) by lia. simpl.
  rewrite (coo_load_eid coo i Hwf) by lia. simpl.
  done.
Qed.

(** X3.  [SpMMCmpCoo] under any execution of its parallel loop: any
    order [steps] of the steps [(i, k)] of the loop in which one
    critical section runs at a time; the loop as written, the
    sequential run, is the order [loop_steps].  The order [<] of the
    element type is irreflexive and transitive.  The kernel returns
    normally.  No nonzero with column [c] is strictly better at [k]
    than the value stored in [out[c,k]]; and if one of them is strictly
    better than the identity of the compare operator, the stored value
    is the value of such a nonzero, and the argument entries of the
    operands the value operator uses are [row[i]] and the edge id of
    the nonzero [i] with column [c] whose step was the first in the
    execution to attain it: in the sequential run, the first in index
    order.  The argument buffer of an operand the operator does not
    use is returned as it was passed. *)
Theorem SpMMCmpCoo_semantics op cmp (coo : COOMatrix) ufeat efeat (out : NDArray D)
    (argu arge : list Z) (rows : Z) (steps : list (Z * Z)) :
  let dim := feat_dim (shape out) in
  let nnz := Z.of_nat (length (coo_row coo)) in
  StrictLaws →
  coo_wf coo = true →
  operands_ok op ufeat efeat dim (coo_entries coo) = true →
  targets_ok rows (coo_entries coo) = true →
  out_ok rows out = true →
  arg_ok (use_lhs op) (rows * dim) argu = true →
  arg_ok (use_rhs op) (rows * dim) arge = true →
  steps ≡ₚ loop_steps nnz dim →
  SpMMCmpCoo op cmp coo ufeat efeat out argu arge
  = SpMMCmpCoo_steps op cmp coo ufeat efeat out argu arge (loop_steps nnz dim)
  ∧ (∀ (n n' : nat) i i' k,
       loop_steps nnz dim !! n = Some (i, k) →
       loop_steps nnz dim !! n' = Some (i', k) → i' < i → (n' < n)%nat)
  ∧ ∃ Obuf argX argW,
      SpMMCmpCoo_steps op cmp coo ufeat efeat out argu arge steps
      = Ok (Obuf, argX, argW)
      ∧ (use_lhs op = false → argX = argu)
      ∧ (use_rhs op = false → argW = arge)
      ∧ ∀ c k, 0 ≤ c < rows → 0 ≤ k < dim →
          let val := λ i, contrib op ufeat efeat dim k (coo_nonzero coo i) in
          let in_col := λ i, 0 ≤ i < nnz ∧ cell 0 (coo_col coo) i = c in
          let v := cell dzero Obuf (c * dim + k) in
          (∀ i, in_col i → cmp_Call cmp v (val i) = false)
          ∧ ((∃ i, in_col i ∧ cmp_Call cmp (cmp_zero cmp) (val i) = true) →
               ∃ (n : nat) i,
                 steps !! n = Some (i, k) ∧ in_col i ∧ val i = v
                 ∧ (∀ (n' : nat) i', (n' < n)%nat → steps !! n' = Some (i', k) →
                      in_col i' → val i' ≠ v)
                 ∧ (use_lhs op = true →
                      cell 0 argX (c * dim + k) = cell 0 (coo_row coo) i)
                 ∧ (use_rhs op = true →
                      cell 0 argW (c * dim + k) = coo_eid coo i)).
Proof.
  cbv zeta. intros Hord Hwf Hok Htg Hout Hau Hae Hperm.
  split; [by apply SpMMCmpCoo_loop_steps|]. split.
  { apply loop_steps_ordered. }
  set (dim := feat_dim (shape out)) in *.
  set (nnz := Z.of_nat (length (coo_row coo))) in *.
  assert (∀ p, p ∈ steps ↔ 0 ≤ p.1 < nnz ∧ 0 ≤ p.2 < dim) as Hsteps.
  { intros p. rewrite Hperm. apply elem_of_loop_steps. }
  assert (∀ c k i, i ∈ hits coo c k steps
            ↔ (0 ≤ i < nnz ∧ cell 0 (coo_col coo) i = c) ∧ 0 ≤ k < dim) as Hhits.
  { intros c k i. unfold hits. rewrite list_elem_of_fmap. split.
    - intros ([i' k'] & -> & Hp). apply list_elem_of_filter in Hp as [[Hc Hk'] Hp].
      apply Hsteps in Hp. simpl in *. subst k'. split; [split|]; [lia|done|lia].
    - intros ((Hi & Hc) & Hk). exists (i, k). split; [done|].
      apply list_elem_of_filter. split; [done|]. apply Hsteps. simpl. lia. }
  destruct (SpMMCmpCoo_steps_spec op cmp coo ufeat efeat out argu arge rows steps
              Hwf Hok Htg Hout Hau Hae)
    as (Obuf & argX & argW & Hrun & HuX & HuW & Hcells).
  { apply Forall_forall. intros p Hp. by apply Hsteps. }
  exists Obuf, argX, argW. split; [done|]. split; [done|]. split; [done|].
  intros c k Hc Hk. specialize (Hcells c k Hc Hk). fold dim in Hcells.
  set (a := cell 0 argu (c * dim + k)) in *.
  set (b := cell 0 arge (c * dim + k)) in *.
  destruct (cmp_reduce_char_from op cmp ufeat efeat dim k a b
              (coo_nonzero coo <$> hits coo c k steps) Hord) as (Hub & Hcase).
  cbv zeta in Hub, Hcase. rewrite <- Hcells in Hub, Hcase.
  unfold cells3 in Hub, Hcase. simpl in Hub, Hcase.
  split.
  - intros i Hi. apply Hub, list_elem_of_fmap. exists i. split; [done|].
    by apply Hhits.
  - intros (i0 & Hi0 & Hb0).
    destruct Hcase as [(_ & Hno)|(m & e & Hm & Hval & _ & Hfirst & Hax & Haw)].
    { rewrite Hno in Hb0; [done|]. apply list_elem_of_fmap. exists i0.
      split; [done|]. by apply Hhits. }
    apply list_lookup_fmap_Some in Hm as (i & -> & Hm).
    unfold hits in Hm. apply list_lookup_fmap_Some in Hm as ([i1 k1] & Hi1 & Hm).
    simpl in Hi1. subst i1.
    destruct (filter_lookup_earlier _ _ _ _ Hm) as (n & Hn & (Hci & Hk1) & Hearlier).
    simpl in Hci, Hk1. subst k1.
    pose proof (proj1 (Hsteps (i, k)) (list_elem_of_lookup_2 _ _ _ Hn)) as (Hi & _).
    simpl in Hi.
    exists n, i. split; [done|]. split; [done|]. split; [done|]. split; [|split].
    + intros n' i' Hlt Hn' (Hi' & Hci').
      destruct (Hearlier n' (i', k) Hlt Hn' ltac:(done)) as (m' & Hlt' & Hm').
      apply (Hfirst m' (coo_nonzero coo i') Hlt').
      unfold hits. rewrite <- list_fmap_compose.
      apply list_lookup_fmap_Some. exists (i', k). done.
    + intros Hu. rewrite Hax, Hu. done.
    + intros Hu. rewrite Haw, Hu. done.
Qed.

(** X4.  When the COO matrix lists the nonzeros of the CSR matrix in the
    order of the CSR matrix and both argument tensors are zero-filled
    tensors of the size of the output, the sequential run of
    [SpMMCmpCoo] ends exactly as [SpMMCmpCsr] does: the same values and
    the same argument entries. *)
Theorem SpMMCmp_same_order op cmp (csr : CSRMatrix) (coo : COOMatrix) ufeat efeat
    (out : NDArray D) (argu arge : list Z) :
  let dim := feat_dim (shape out) in
  csr_wf csr = true → coo_wf coo = true →
  coo_entries coo = csr_entries csr →
  operands_ok op ufeat efeat dim (csr_entries csr) = true →
  out_ok (csr_num_rows csr) out = true →
  argu = replicate (Z.to_nat (csr_num_rows csr * dim)) 0 →
  arge = replicate (Z.to_nat (csr_num_rows csr * dim)) 0 →
  ∃ res, SpMMCmpCsr op cmp csr ufeat efeat out argu arge = Ok res
    ∧ SpMMCmpCoo op cmp coo ufeat efeat out argu arge = Ok res.
Proof.
  cbv zeta. intros Hwf Hcwf Hsame Hok Hout Hargu Harge.
  destruct (out_ok_unpack _ _ Hout) as (Hdim & _ & Hlen).
  destruct (csr_wf_unpack csr Hwf) as (Hn & _).
  set (dim := feat_dim (shape out)) in *.
  set (n := csr_num_rows csr * dim) in *.
  assert (0 ≤ n) as Hn0 by (unfold n; nia).
  assert (∀ (used : bool) (l : list Z), l = replicate (Z.to_nat n) 0 →
            arg_ok used n l = true) as Hargok.
  { intros used l ->. destruct used; simpl; [|done].
    apply bool_decide_eq_true. rewrite length_replicate. lia. }
  assert (∀ (l : list Z) i, l = replicate (Z.to_nat n) 0 → cell 0 l i = 0) as Hzero.
  { intros l i ->. unfold cell. case_decide; [|done].
    destruct (replicate (Z.to_nat n) 0 !! Z.to_nat i) as [x|] eqn:Hx; [|done].
    by apply lookup_replicate in Hx as [-> _]. }
  assert (operands_ok op ufeat efeat dim (coo_entries coo) = true) as Hok'
    by (by rewrite Hsame).
  assert (targets_ok (csr_num_rows csr) (coo_entries coo) = true) as Htg
    by (apply targets_ok_csr_perm; by rewrite Hsame).
  destruct (SpMMCmpCsr_spec op cmp csr ufeat efeat out argu arge
              Hwf Hok ltac:(fold dim; lia) (Hargok _ _ Hargu) (Hargok _ _ Harge))
    as (O1 & X1 & W1 & Hrun1 & HlO1 & HlX1 & HlW1 & Hc1 & HuX1 & HuW1).
  destruct (SpMMCmpCoo_spec op cmp coo ufeat efeat out argu arge _
              Hcwf Hok' Htg Hout (Hargok _ _ Hargu) (Hargok _ _ Harge))
    as (O2 & X2 & W2 & Hrun2 & (HlO2 & HlX2 & HlW2) & Hc2 & _).
  destruct (SpMMCmpCoo_unused_arg op cmp coo ufeat efeat out argu arge _
              O2 X2 W2 Hcwf Hok' Htg Hout (Hargok _ _ Hargu) (Hargok _ _ Harge) Hrun2)
    as (HuX2 & HuW2).
  exists (O1, X1, W1). split; [done|]. rewrite Hrun2. f_equal.
  subst n dim. set (dim := feat_dim (shape out)) in *.
  assert (∀ r k, 0 ≤ r < csr_num_rows csr → 0 ≤ k < dim →
            cells3 (O2, X2, W2) (r * dim + k)
            = cmp_reduce op cmp ufeat efeat dim k (cmp_zero cmp, 0, 0)
                (csr_row_entries csr r)) as Hc2'.
  { intros r k Hr Hk. rewrite (Hc2 r k Hr Hk), Hsame, entries_for_csr by done.
    by rewrite !Hzero. }
  assert (length argu = Z.to_nat (csr_num_rows csr * dim)) as Hla
    by (rewrite Hargu; apply length_replicate).
  assert (length arge = Z.to_nat (csr_num_rows csr * dim)) as Hle
    by (rewrite Harge; apply length_replicate).
  f_equal; [f_equal|].
  - apply (cells_eq dzero); [congruence|]. intros i Hi.
    destruct (flat_index (csr_num_rows csr) dim i)
      as (r & k & Hr & Hk & ->); [done|lia|].
    destruct (Hc1 r k Hr Hk) as (-> & _).
    by rewrite <- (Hc2' r k Hr Hk).
  - destruct (use_lhs op) eqn:Hu; [|by rewrite HuX1, HuX2].
    apply (cells_eq 0); [congruence|]. intros i Hi.
    destruct (flat_index (csr_num_rows csr) dim i)
      as (r & k & Hr & Hk & ->); [done|lia|].
    destruct (Hc1 r k Hr Hk) as (_ & Hx & _). rewrite Hx by done.
    by rewrite <- (Hc2' r k Hr Hk).
  - destruct (use_rhs op) eqn:Hu; [|by rewrite HuW1, HuW2].
    apply (cells_eq 0); [congruence|]. intros i Hi.
    destruct (flat_index (csr_num_rows csr) dim i)
      as (r & k & Hr & Hk & ->); [done|lia|].
    destruct (Hc1 r k Hr Hk) as (_ & _ & Hx). rewrite Hx by done.
    by rewrite <- (Hc2' r k Hr Hk).
Qed.

End CmpMore.

(** * Null operands *)

Lemma iterM_Ok_elem {St} (body : Z → St → result St) (l : list Z) (s s' : St) (i : Z) :
  iterM body l s = Ok s' → i ∈ l → ∃ s1 s2, body i s1 = Ok s2.
Proof.
  revert s. induction l as [|j l IH]; intros s Hrun Hi; [by apply elem_of_nil in Hi|].
  simpl in Hrun. apply bind_Ok_inv in Hrun as (s1 & Hj & Hrest).
  apply elem_of_cons in Hi as [->|Hi]; [eauto|]. by apply (IH s1).
Qed.

Lemma for_loop_Ok_elem {St} (body : Z → St → result St) (lo hi : Z) (s s' : St) (i : Z) :
  for_loop lo hi body s = Ok s' → lo ≤ i < hi → ∃ s1 s2, body i s1 = Ok s2.
Proof.
  intros Hrun Hi. apply (iterM_Ok_elem body _ s s' i Hrun).
  apply elem_of_seqZ. lia.
Qed.

Lemma iterM_Fatal_inv {St} (body : Z → St → result St) (l : list Z) (s : St) msg :
  iterM body l s = Fatal msg → ∃ i s1, i ∈ l ∧ body i s1 = Fatal msg.
Proof.
  revert s. induction l as [|j l IH]; intros s Hrun; [done|].
  simpl in Hrun. destruct (body j s) as [s1| |] eqn:Hj; simpl in Hrun; [| |done].
  - destruct (IH s1 Hrun) as (i & s2 & Hi & Hb). exists i, s2. split; [by right|done].
  - injection Hrun as ->. exists j, s. split; [by left|done].
Qed.

Lemma bind_Fatal_inv {A B} (m : result A) (f : A → result B) msg :
  m ≫= f = Fatal msg → m = Fatal msg ∨ ∃ a, m = Ok a ∧ f a = Fatal msg.
Proof. destruct m as [a| |]; simpl; [eauto|intros [= ->]; by left|done]. Qed.

Lemma load_not_Fatal {A} (buf : list A) i msg : load buf i ≠ Fatal msg.
Proof. unfold load. case_decide; [|done]. by destruct (buf !! Z.to_nat i). Qed.

Lemma store_not_Fatal {A} (buf : list A) i x msg : store buf i x ≠ Fatal msg.
Proof. unfold store. by case_decide. Qed.

Lemma deref_not_Fatal {A} (p : ptr A) msg : deref p ≠ Fatal msg.
Proof. destruct p as [[buf off]|]; simpl; [apply load_not_Fatal|done]. Qed.

(** A well-formed CSR matrix with a nonzero has a row that is not
    empty. *)
Lemma csr_nonempty_row (csr : CSRMatrix) :
  csr_wf csr = true → csr_indices csr ≠ [] →
  ∃ r, 0 ≤ r < csr_num_rows csr ∧ csr_row_start csr r < csr_row_end csr r.
Proof.
  intros Hwf Hne.
  destruct (csr_wf_unpack csr Hwf) as (Hn & _ & H0 & Hlast & Hmono & _).
  assert (∀ m : nat, Z.of_nat m ≤ csr_num_rows csr →
    (∃ r, 0 ≤ r < Z.of_nat m ∧ csr_row_start csr r < csr_row_end csr r)
    ∨ csr_row_start csr (Z.of_nat m) = 0) as Hfind.
  { induction m as [|m IH]; intros Hm; [by right|].
    destruct IH as [(r & Hr & Hlt)|Hz]; [lia| |].
    - left. exists r. split; [lia|done].
    - pose proof (Hmono (Z.of_nat m) ltac:(lia)) as Hle.
      rewrite csr_row_end_start in Hle.
      replace (Z.of_nat (S m)) with (Z.of_nat m + 1) by lia.
      destruct (decide (csr_row_start csr (Z.of_nat m + 1) = 0)) as [Hz'|Hnz];
        [by right|].
      left. exists (Z.of_nat m). split; [lia|]. rewrite csr_row_end_start. lia. }
  destruct (Hfind (Z.to_nat (csr_num_rows csr)) ltac:(lia)) as [(r & Hr & Hlt)|Hz].
  - exists r. split; [lia|done].
  - rewrite Z2Nat.id, Hlast in Hz by lia. destruct (csr_indices csr); [done|].
    simpl in Hz. lia.
Qed.

Section NullOperand.
Context {D : Type} `{!DTypeOps D}.

Lemma Call_not_Fatal (op : Op) (l r : ptr D) msg : Call op l r ≠ Fatal msg.
Proof.
  destruct op; simpl; try apply deref_not_Fatal;
    intros [H|(a & _ & [H|(b & _ & H)]%bind_Fatal_inv)]%bind_Fatal_inv;
    try done; by apply deref_not_Fatal in H.
Qed.

(** A used operand behind the null pointer cannot be read. *)
Lemma Call_null (op : Op) (ufeat efeat : Tensor D) (i j : Z) (v : D) :
  (use_lhs op = true ∧ ufeat = None) ∨ (use_rhs op = true ∧ efeat = None) →
  Call op
    (if use_lhs op then (if use_lhs op then data_ptr ufeat else None) +ₚ i else nullptr)
    (if use_rhs op then (if use_rhs op then data_ptr efeat else None) +ₚ j else nullptr)
  ≠ Ok v.
Proof.
  intros [[Hu ->]|[Hu ->]]; destruct op; try done; simpl;
    by destruct (deref _).
Qed.

(** X5.  A null tensor for an operand that the value operator uses: as
    soon as the matrix has a nonzero and the feature width is positive,
    the sum kernels end in a fault, whatever the other arguments
    are. *)
Theorem SpMMSum_null_operand (op : Op) (csr : CSRMatrix) (coo : COOMatrix)
    (ufeat efeat : Tensor D) (out : NDArray D) :
  (use_lhs op = true ∧ ufeat = None) ∨ (use_rhs op = true ∧ efeat = None) →
  0 < feat_dim (shape out) →
  (csr_wf csr = true → csr_indices csr ≠ [] →
     SpMMSumCsr op csr ufeat efeat out = Fault)
  ∧ (coo_row coo ≠ [] → SpMMSumCoo op coo ufeat efeat out = Fault).
Proof.
  intros Hnull Hdim. split.
  - intros Hwf Hne.
    destruct (csr_nonempty_row csr Hwf Hne) as (r & Hr & Hlt).
    destruct (SpMMSumCsr op csr ufeat efeat out) as [Obuf|msg|] eqn:Hrun; [| |done];
      exfalso; unfold SpMMSumCsr in Hrun; cbv zeta in Hrun.
    + destruct (for_loop_Ok_elem _ _ _ _ _ r Hrun Hr) as (s1 & s2 & Hrow).
      rewrite (csr_load_indptr csr r Hwf) in Hrow by lia. simpl in Hrow.
      rewrite (csr_load_indptr csr (r + 1) Hwf) in Hrow by lia. simpl in Hrow.
      destruct (for_loop_Ok_elem _ _ _ _ _ 0 Hrow ltac:(lia)) as (s3 & s4 & Hk).
      apply bind_Ok_inv in Hk as (accum & Hacc & _).
      destruct (for_loop_Ok_elem _ _ _ _ _ (csr_row_start csr r) Hacc)
        as (a1 & a2 & Hj); [rewrite <- csr_row_end_start; lia|].
      apply bind_Ok_inv in Hj as (cid & _ & Hj).
      apply bind_Ok_inv in Hj as (eid & _ & Hj).
      apply bind_Ok_inv in Hj as (v & Hcall & _).
      by apply Call_null in Hcall.
    + apply iterM_Fatal_inv in Hrun as (i & s1 & _ & Hrow).
      apply bind_Fatal_inv in Hrow as [H|(a & _ & Hrow)]; [by apply load_not_Fatal in H|].
      apply bind_Fatal_inv in Hrow as [H|(b & _ & Hrow)]; [by apply load_not_Fatal in H|].
      apply iterM_Fatal_inv in Hrow as (k & s2 & _ & Hk).
      apply bind_Fatal_inv in Hk as [Hacc|(acc & _ & H)]; [|by apply store_not_Fatal in H].
      apply iterM_Fatal_inv in Hacc as (j & a1 & _ & Hj).
      apply bind_Fatal_inv in Hj as [H|(cid & _ & Hj)]; [by apply load_not_Fatal in H|].
      apply bind_Fatal_inv in Hj as [H|(eid & _ & Hj)].
      { destruct (negb _); [by apply deref_not_Fatal in H|done]. }
      apply bind_Fatal_inv in Hj as [H|(v & _ & H)]; [by apply Call_not_Fatal in H|done].
  - intros Hne.
    assert (0 < Z.of_nat (length (coo_row coo))) as Hnnz
      by (destruct (coo_row coo); [done|simpl; lia]).
    destruct (SpMMSumCoo op coo ufeat efeat out) as [Obuf|msg|] eqn:Hrun; [| |done];
      exfalso; unfold SpMMSumCoo in Hrun; cbv zeta in Hrun.
    + apply bind_Ok_inv in Hrun as (O0 & _ & Hrun).
      destruct (for_loop_Ok_elem _ _ _ _ _ 0 Hrun ltac:(lia)) as (s1 & s2 & Hi).
      apply bind_Ok_inv in Hi as (rid & _ & Hi).
      apply bind_Ok_inv in Hi as (cid & _ & Hi).
      apply bind_Ok_inv in Hi as (eid & _ & Hi).
      destruct (for_loop_Ok_elem _ _ _ _ _ 0 Hi ltac:(lia)) as (s3 & s4 & Hk).
      apply bind_Ok_inv in Hk as (v & Hcall & _).
      by apply Call_null in Hcall.
    + apply bind_Fatal_inv in Hrun as [Hfill|(O0 & _ & Hrun)].
      { apply iterM_Fatal_inv in Hfill as (i & s1 & _ & H). by apply store_not_Fatal in H. }
      apply iterM_Fatal_inv in Hrun as (i & s1 & _ & Hi).
      apply bind_Fatal_inv in Hi as [H|(rid & _ & Hi)]; [by apply load_not_Fatal in H|].
      apply bind_Fatal_inv in Hi as [H|(cid & _ & Hi)]; [by apply load_not_Fatal in H|].
      apply bind_Fatal_inv in Hi as [H|(eid & _ & Hi)].
      { destruct (negb _); [by apply deref_not_Fatal in H|done]. }
      apply iterM_Fatal_inv in Hi as (k & s2 & _ & Hk).
      apply bind_Fatal_inv in Hk as [H|(v & _ & Hk)]; [by apply Call_not_Fatal in H|].
      apply bind_Fatal_inv in Hk as [H|(cur & _ & H)]; [by apply load_not_Fatal in H|].
      by apply store_not_Fatal in H.
Qed.

End NullOperand.

(** * The binary search on any array *)

(** X6.  On the first [len >= 1] entries of any array that has them,
    whatever their order, [BinarySearchSrc] reads inside the array only,
    ends, and returns an index between -1 and [len - 1].  With
    [len <= 0] it reads [array[len - 1]] in front of the array. *)
Theorem BinarySearchSrc_range (array : list Z) (len eid : Z) :
  (1 ≤ len ≤ Z.of_nat (length array) →
     ∃ r, BinarySearchSrc array len eid = Ok r ∧ -1 ≤ r ≤ len - 1)
  ∧ (len ≤ 0 → BinarySearchSrc array len eid = Fault).
Proof.
  split.
  - intros Hlen.
    assert (∀ (fuel : nat) lo hi,
      hi - lo ≤ Z.of_nat fuel → 0 ≤ lo ≤ hi → hi ≤ len - 1 →
      ∃ h, BinarySearchSrc_loop fuel array eid lo hi = Ok (h, h) ∧ 0 ≤ h ≤ len - 1)
      as Hloop.
    { induction fuel as [|fuel IH]; intros lo hi Hf Hlo Hhi.
      - simpl. rewrite decide_False by lia.
        assert (lo = hi) as -> by lia. exists hi. split; [done|lia].
      - simpl. case_decide as Hlt; last first.
        { assert (lo = hi) as -> by lia. exists hi. split; [done|lia]. }
        pose proof (shiftr1_bounds lo hi Hlt) as Hmid.
        rewrite (load_in_range 0 array) by lia. simpl.
        case_decide; apply IH; lia. }
    unfold BinarySearchSrc. cbv zeta.
    destruct (Hloop (Z.to_nat (len - 1 - 0)) 0 (len - 1)) as (h & -> & Hh);
      [lia..|]. simpl.
    rewrite (load_in_range 0 array) by lia. simpl.
    case_decide; eexists; (split; [done|lia]).
  - intros Hlen. unfold BinarySearchSrc. cbv zeta.
    replace (Z.to_nat (len - 1 - 0)) with 0%nat by lia. simpl.
    rewrite decide_False by lia. simpl. unfold load. by rewrite decide_False by lia.
Qed.

(** X7.  On a non-decreasing array, searched over its first [len]
    entries: for a key below the last of them [BinarySearchSrc] returns
    the index of the last entry that is at most the key (-1 if there is
    none); for a key equal to the last entry it returns [len - 1]; and
    for a key above the last entry it returns [len - 2], not
    [len - 1]. *)
Theorem BinarySearchSrc_sorted (array : list Z) (len eid : Z) :
  1 ≤ len ≤ Z.of_nat (length array) →
  (∀ i j, 0 ≤ i ≤ j → j < len → cell 0 array i ≤ cell 0 array j) →
  ∃ r, BinarySearchSrc array len eid = Ok r
    ∧ (eid < cell 0 array (len - 1) →
       -1 ≤ r < len - 1
       ∧ (∀ i, 0 ≤ i ≤ r → cell 0 array i ≤ eid)
       ∧ (∀ i, r < i < len → eid < cell 0 array i))
    ∧ (eid = cell 0 array (len - 1) → r = len - 1)
    ∧ (cell 0 array (len - 1) < eid → r = len - 2).
Proof.
  intros Hlen Hsorted.
  assert (∀ (fuel : nat) lo hi,
    hi - lo ≤ Z.of_nat fuel → 0 ≤ lo ≤ hi → hi ≤ len - 1 →
    (∀ i, 0 ≤ i < lo → cell 0 array i ≤ eid) →
    (hi = len - 1 ∨ eid < cell 0 array hi) →
    ∃ h, BinarySearchSrc_loop fuel array eid lo hi = Ok (h, h)
      ∧ 0 ≤ h ≤ len - 1
      ∧ (∀ i, 0 ≤ i < h → cell 0 array i ≤ eid)
      ∧ (h = len - 1 ∨ eid < cell 0 array h)) as Hloop.
  { induction fuel as [|fuel IH]; intros lo hi Hf Hlo Hhi Hbelow Habove.
    - simpl. rewrite decide_False by lia.
      assert (lo = hi) as -> by lia. exists hi. split; [done|]. split; [lia|done].
    - simpl. case_decide as Hlt; last first.
      { assert (lo = hi) as -> by lia. exists hi. split; [done|]. split; [lia|done]. }
      pose proof (shiftr1_bounds lo hi Hlt) as Hmid.
      set (mid := Z.shiftr (lo + hi) 1) in *.
      rewrite (load_in_range 0 array mid) by lia. simpl.
      case_decide as Hcmp.
      + apply IH; [lia|lia|lia| |done].
        intros i Hi. etrans; [|exact Hcmp]. apply Hsorted; lia.
      + apply IH; [lia|lia|lia| |right; lia].
        intros i Hi. apply Hbelow. lia. }
  unfold BinarySearchSrc. cbv zeta.
  destruct (Hloop (Z.to_nat (len - 1 - 0)) 0 (len - 1))
    as (h & Hrun & Hh & Hbelow & Habove); [lia|lia|lia|intros; lia|by left|].
  rewrite Hrun. simpl.
  rewrite (load_in_range 0 array h) by lia. simpl.
  case_decide as Heq.
  - exists h. split; [done|].
    destruct Habove as [->|Hlt]; [|lia].
    split; [lia|]. split; [done|lia].
  - exists (h - 1). split; [done|].
    assert (∀ i, h ≤ i < len → eid < cell 0 array h → eid < cell 0 array i) as Hup.
    { intros i Hi Hlt. pose proof (Hsorted h i ltac:(lia) ltac:(lia)). lia. }
    destruct Habove as [->|Hlt].
    + split; [|split; [lia|]].
      * intros Hlt. split; [lia|]. split.
        -- intros i Hi. apply Hbelow. lia.
        -- intros i Hi. apply Hup; [lia|done].
      * intros Hgt. lia.
    + pose proof (Hup (len - 1) ltac:(lia) Hlt) as Hlast.
      split; [|split; [lia|lia]].
      intros _. split; [lia|]. split.
      * intros i Hi. apply Hbelow. lia.
      * intros i Hi. apply Hup; [lia|done].
Qed.

(** * More on the index resolver *)

Lemma foldl_add_shift (f : Z → Z) (a : Z) (l : list Z) :
  foldl (λ acc d, acc + f d) a l = a + foldl (λ acc d, acc + f d) 0 l.
Proof.
  revert a. induction l as [|d l IH]; intros a; simpl; [lia|].
  rewrite (IH (a + f d)), (IH (0 + f d)). lia.
Qed.

(** The accumulation loop of [UnravelRavel], entered with any value of
    the out-parameter. *)
Lemma UnravelRavel_loop_from (idx ndim a : Z) (osh ost psh pst : list Z) :
  out_wf ndim osh ost = true →
  operand_wf ndim osh psh pst = true →
  0 ≤ idx →
  for_loop 0 ndim (λ d p_out,
    o_sh ← load osh d;
    o_st ← load ost d;
    p_sh ← load psh d;
    p_st ← load pst d;
    q ← c_div idx o_st;
    i ← c_mod q o_sh;
    if decide (p_sh > i) then Ok (p_out + i * p_st) else Ok p_out) a
  = Ok (a + ravel_min idx ndim osh ost psh pst).
Proof.
  intros Hout Hop Hidx.
  destruct (out_wf_facts _ _ _ Hout) as (Hlo & Hlt & Hpos & Hst & _ & Htpos & _).
  destruct (operand_wf_facts _ _ _ _ Hop) as (Hlp & Hlpt & Hsh).
  unfold ravel_min.
  rewrite (for_loop_pure _ (λ acc d,
             acc + Z.min (coord idx osh ost d) (cell 0 psh d - 1) * cell 0 pst d));
    [by rewrite Z.sub_0_r, foldl_add_shift|].
  intros d acc Hd.
  rewrite (load_in_range 0 osh), (load_in_range 0 ost) by lia. simpl.
  rewrite (load_in_range 0 psh), (load_in_range 0 pst) by lia. simpl.
  pose proof (Hpos d ltac:(lia)) as Hp.
  pose proof (Htpos (d + 1) ltac:(lia)) as Hs. rewrite <- Hst in Hs by lia.
  rewrite c_div_ok by lia. simpl. rewrite c_mod_ok by lia. simpl.
  rewrite Z.quot_div_nonneg by lia.
  rewrite Z.rem_mod_nonneg by (try apply Z.div_pos; lia).
  fold (coord idx osh ost d).
  assert (0 ≤ coord idx osh ost d < cell 0 osh d) as Hc
    by (apply Z.mod_pos_bound; lia).
  destruct (Hsh d ltac:(lia)) as [Heq|Heq]; rewrite Heq; case_decide; f_equal;
    match goal with
    | |- context [Z.min ?a ?b] => destruct (Z.min_spec a b) as [[? ->]|[? ->]]
    end; first [nia | do 2 f_equal; lia].
Qed.

(** X10.  [UnravelRavel] adds to the out-parameter of the operand it
    walks and overwrites the other one: entered with the values [a] and
    [b], it leaves [(idx, b + sum)] when the leading strides of the left
    operand and of the output are equal, and [(a + sum, idx)]
    otherwise, where [sum] is the sum over the dimensions of
    [min(coord_d, shape[d] - 1) * stride[d]] for the operand walked. *)
Theorem UnravelRavel_accumulates (idx ndim a b : Z)
    (out_shape out_stride lhs_shape lhs_stride rhs_shape rhs_stride : list Z) :
  1 ≤ ndim →
  out_wf ndim out_shape out_stride = true →
  operand_wf ndim out_shape lhs_shape lhs_stride = true →
  operand_wf ndim out_shape rhs_shape rhs_stride = true →
  0 ≤ idx < Numel out_shape →
  UnravelRavel idx ndim out_shape out_stride lhs_shape lhs_stride
    rhs_shape rhs_stride a b
  = Ok (if decide (cell 0 out_stride 0 = cell 0 lhs_stride 0)
        then (idx, b + ravel_min idx ndim out_shape out_stride rhs_shape rhs_stride)
        else (a + ravel_min idx ndim out_shape out_stride lhs_shape lhs_stride, idx)).
Proof.
  intros Hnd Hout Hl Hr Hidx.
  destruct (out_wf_facts _ _ _ Hout) as (Hlo & Hlt & _).
  destruct (operand_wf_facts _ _ _ _ Hl) as (_ & Hllt & _).
  unfold UnravelRavel.
  rewrite (load_in_range 0 out_stride), (load_in_range 0 lhs_stride) by lia. simpl.
  case_decide.
  - rewrite (UnravelRavel_loop_from idx ndim b out_shape out_stride rhs_shape rhs_stride)
      by (done || lia). done.
  - rewrite (UnravelRavel_loop_from idx ndim a out_shape out_stride lhs_shape lhs_stride)
      by (done || lia). done.
Qed.

(** The extents of an operand are positive. *)
Lemma operand_extent_pos (ndim : Z) (osh ost psh pst : list Z) (d : Z) :
  out_wf ndim osh ost = true →
  operand_wf ndim osh psh pst = true →
  0 ≤ d < ndim → 0 < cell 0 psh d.
Proof.
  intros Hout Hop Hd.
  destruct (out_wf_facts _ _ _ Hout) as (_ & _ & Hpos & _).
  destruct (operand_wf_facts _ _ _ _ Hop) as (_ & _ & Hsh).
  pose proof (Hpos d Hd). destruct (Hsh d Hd); lia.
Qed.

(** For an operand with row-major contiguous strides the sum is an
    index into the operand. *)
Lemma ravel_min_bounds (idx ndim : Z) (osh ost psh : list Z) :
  out_wf ndim osh ost = true →
  operand_wf ndim osh psh (strides_of psh) = true →
  0 ≤ idx →
  0 ≤ ravel_min idx ndim osh ost psh (strides_of psh) < Numel psh.
Proof.
  intros Hout Hop Hidx.
  destruct (out_wf_facts _ _ _ Hout) as (Hlo & Hlt & Hpos & Hst & _ & Htpos & _).
  destruct (operand_wf_facts _ _ _ _ Hop) as (Hlp & _ & Hsh).
  assert (0 ≤ ndim) as Hnd by lia.
  assert (∀ d, 0 ≤ d < ndim →
            cell 0 (strides_of psh) d = tail_numel psh (d + 1)) as Hpst.
  { intros d Hd. unfold cell, tail_numel. rewrite decide_True by lia.
    rewrite strides_of_lookup by lia. simpl. do 2 f_equal. lia. }
  assert (∀ d, 0 ≤ d < ndim →
            tail_numel psh d = cell 0 psh d * tail_numel psh (d + 1)) as Hstep.
  { intros d Hd. unfold tail_numel.
    rewrite (Numel_drop psh (Z.to_nat d) (cell 0 psh d)) by (apply cell_lookup; lia).
    do 3 f_equal. lia. }
  assert (∀ d, 0 ≤ d ≤ ndim → 0 < tail_numel psh d) as Hppos.
  { intros d Hd. unfold tail_numel. apply Numel_pos, Forall_drop.
    apply Forall_lookup. intros n x Hn.
    pose proof (lookup_lt_Some _ _ _ Hn) as Hlt'.
    pose proof (operand_extent_pos ndim osh ost psh _ (Z.of_nat n) Hout Hop ltac:(lia))
      as Hx.
    unfold cell in Hx. rewrite decide_True, Nat2Z.id, Hn in Hx by lia. done. }
  assert (∀ m : nat, Z.of_nat m ≤ ndim →
    let s := foldl (λ acc d,
               acc + Z.min (coord idx osh ost d) (cell 0 psh d - 1)
                     * cell 0 (strides_of psh) d) 0 (seqZ 0 (Z.of_nat m)) in
    0 ≤ s ∧ s + tail_numel psh (Z.of_nat m) ≤ tail_numel psh 0) as Hsum.
  { induction m as [|m IH]; intros Hm; cbv zeta.
    - change (Z.of_nat 0) with 0. simpl. lia.
    - rewrite seqZ_S, foldl_app. simpl. rewrite Z.add_0_l.
      destruct (IH ltac:(lia)) as (IH0 & IH1). cbv zeta in IH0, IH1.
      set (s := foldl _ 0 (seqZ 0 (Z.of_nat m))) in *.
      set (d := Z.of_nat m) in *. assert (0 ≤ d < ndim) as Hd by lia.
      replace (Z.of_nat (S m)) with (d + 1) by lia.
      pose proof (Hpos d Hd) as Hp.
      pose proof (Hppos (d + 1) ltac:(lia)) as Hs.
      pose proof (operand_extent_pos ndim osh ost psh _ d Hout Hop Hd) as Hx.
      assert (0 ≤ coord idx osh ost d < cell 0 osh d) as Hc
        by (apply Z.mod_pos_bound; lia).
      rewrite (Hpst d Hd). rewrite (Hstep d Hd) in IH1.
      destruct (Z.min_spec (coord idx osh ost d) (cell 0 psh d - 1))
        as [[? ->]|[? ->]]; nia. }
  unfold ravel_min. destruct (Hsum (Z.to_nat ndim) ltac:(lia)) as (H0 & H1).
  cbv zeta in H0, H1. rewrite Z2Nat.id in H0, H1 by lia.
  assert (tail_numel psh ndim = 1) as Hlast
    by (unfold tail_numel; rewrite drop_ge by lia; done).
  assert (tail_numel psh 0 = Numel psh) as Hfirst
    by (unfold tail_numel; by rewrite drop_0).
  lia.
Qed.

(** X11.  For operands with row-major contiguous strides, the index
    that the loop of [UnravelRavel] computes lies inside its operand:
    the right operand's when the leading strides of the left operand
    and of the output are equal, the left operand's otherwise.  The
    other operand receives [idx]. *)
Theorem UnravelRavel_in_bounds (idx ndim : Z)
    (out_shape out_stride lhs_shape rhs_shape : list Z) :
  1 ≤ ndim →
  out_wf ndim out_shape out_stride = true →
  operand_wf ndim out_shape lhs_shape (strides_of lhs_shape) = true →
  operand_wf ndim out_shape rhs_shape (strides_of rhs_shape) = true →
  0 ≤ idx < Numel out_shape →
  ∃ l r, UnravelRavel idx ndim out_shape out_stride lhs_shape (strides_of lhs_shape)
           rhs_shape (strides_of rhs_shape) 0 0 = Ok (l, r)
    ∧ (cell 0 out_stride 0 = cell 0 (strides_of lhs_shape) 0 →
         l = idx ∧ 0 ≤ r < Numel rhs_shape)
    ∧ (cell 0 out_stride 0 ≠ cell 0 (strides_of lhs_shape) 0 →
         r = idx ∧ 0 ≤ l < Numel lhs_shape).
Proof.
  intros Hnd Hout Hl Hr Hidx.
  destruct (out_wf_facts _ _ _ Hout) as (Hlo & Hlt & _).
  destruct (operand_wf_facts _ _ _ _ Hl) as (_ & Hllt & _).
  pose proof (ravel_min_bounds idx ndim out_shape out_stride lhs_shape
                Hout Hl ltac:(lia)) as Hbl.
  pose proof (ravel_min_bounds idx ndim out_shape out_stride rhs_shape
                Hout Hr ltac:(lia)) as Hbr.
  unfold UnravelRavel.
  rewrite (load_in_range 0 out_stride), (load_in_range 0 (strides_of lhs_shape)) by lia.
  simpl. case_decide as Hfast.
  - rewrite (UnravelRavel_loop_from idx ndim 0 out_shape out_stride rhs_shape
               (strides_of rhs_shape)) by (done || lia).
    simpl. eexists _, _. split; [done|]. split; [intros _; split; [done|lia]|done].
  - rewrite (UnravelRavel_loop_from idx ndim 0 out_shape out_stride lhs_shape
               (strides_of lhs_shape)) by (done || lia).
    simpl. eexists _, _. split; [done|]. split; [done|intros _; split; [done|lia]].
Qed.

(** The sum does not see the coordinates along the dimensions in which
    the operand has extent 1. *)
Lemma ravel_min_broadcast (idx idx' ndim : Z) (osh ost psh pst : list Z) :
  out_wf ndim osh ost = true →
  (∀ d, 0 ≤ d < ndim → cell 0 psh d ≠ 1 →
        coord idx osh ost d = coord idx' osh ost d) →
  ravel_min idx ndim osh ost psh pst = ravel_min idx' ndim osh ost psh pst.
Proof.
  intros Hout Hsame.
  destruct (out_wf_facts _ _ _ Hout) as (_ & _ & Hpos & _).
  unfold ravel_min.
  assert (∀ l a, (∀ d, d ∈ l → 0 ≤ d < ndim) →
    foldl (λ acc d, acc + Z.min (coord idx osh ost d) (cell 0 psh d - 1)
                          * cell 0 pst d) a l
    = foldl (λ acc d, acc + Z.min (coord idx' osh ost d) (cell 0 psh d - 1)
                            * cell 0 pst d) a l) as Hfold.
  { induction l as [|d l IH]; intros a Hl; simpl; [done|].
    assert (0 ≤ d < ndim) as Hd by (apply Hl; left).
    rewrite IH by (intros; apply Hl; by right). f_equal. f_equal. f_equal.
    destruct (decide (cell 0 psh d = 1)) as [->|Hne]; [|by rewrite Hsame].
    pose proof (Hpos d Hd).
    assert (0 ≤ coord idx osh ost d) by (apply Z.mod_pos_bound; lia).
    assert (0 ≤ coord idx' osh ost d) by (apply Z.mod_pos_bound; lia).
    lia. }
  apply Hfold. intros d Hd. apply elem_of_seqZ in Hd. lia.
Qed.

(** X12.  Broadcasting: two output positions whose coordinates agree in
    every dimension in which the operand walked by [UnravelRavel] has
    an extent other than 1 are given the same index into that
    operand. *)
Theorem UnravelRavel_broadcast (idx idx' ndim : Z)
    (out_shape out_stride lhs_shape lhs_stride rhs_shape rhs_stride : list Z) :
  1 ≤ ndim →
  out_wf ndim out_shape out_stride = true →
  operand_wf ndim out_shape lhs_shape lhs_stride = true →
  operand_wf ndim out_shape rhs_shape rhs_stride = true →
  0 ≤ idx < Numel out_shape → 0 ≤ idx' < Numel out_shape →
  let walked := if decide (cell 0 out_stride 0 = cell 0 lhs_stride 0)
                then rhs_shape else lhs_shape in
  (∀ d, 0 ≤ d < ndim → cell 0 walked d ≠ 1 →
        coord idx out_shape out_stride d = coord idx' out_shape out_stride d) →
  ∃ l r l' r',
    UnravelRavel idx ndim out_shape out_stride lhs_shape lhs_stride
      rhs_shape rhs_stride 0 0 = Ok (l, r)
    ∧ UnravelRavel idx' ndim out_shape out_stride lhs_shape lhs_stride
        rhs_shape rhs_stride 0 0 = Ok (l', r')
    ∧ (if decide (cell 0 out_stride 0 = cell 0 lhs_stride 0)
       then r = r' else l = l').
Proof.
  cbv zeta. intros Hnd Hout Hl Hr Hidx Hidx' Hsame.
  destruct (out_wf_facts _ _ _ Hout) as (Hlo & Hlt & _).
  destruct (operand_wf_facts _ _ _ _ Hl) as (_ & Hllt & _).
  unfold UnravelRavel.
  rewrite (load_in_range 0 out_stride), (load_in_range 0 lhs_stride) by lia. simpl.
  case_decide as Hfast.
  - rewrite !(UnravelRavel_loop_from _ ndim 0 out_shape out_stride rhs_shape rhs_stride)
      by (done || lia).
    simpl. eexists _, _, _, _. split; [done|]. split; [done|].
    by rewrite (ravel_min_broadcast idx idx' ndim out_shape out_stride rhs_shape
                  rhs_stride Hout Hsame).
  - rewrite !(UnravelRavel_loop_from _ ndim 0 out_shape out_stride lhs_shape lhs_stride)
      by (done || lia).
    simpl. eexists _, _, _, _. split; [done|]. split; [done|].
    by rewrite (ravel_min_broadcast idx idx' ndim out_shape out_stride lhs_shape
                  lhs_stride Hout Hsame).
Qed.

(** * When the fast path of the index resolver is exact *)

(** Extents that are those of the output or 1, with the same product:
    the same extents. *)
Lemma same_extents (os ls : list Z) :
  Forall2 (λ o l, 0 < o ∧ (l = o ∨ l = 1)) os ls →
  0 < Numel ls ≤ Numel os ∧ (Numel ls = Numel os → ls = os).
Proof.
  induction 1 as [|o l os ls [Ho Hl] _ (IHb & IHe)]; [by vm_compute|].
  rewrite !Numel_cons. destruct Hl as [->| ->].
  - split; [nia|]. intros Heq. f_equal. apply IHe. nia.
  - split; [nia|]. intros Heq. assert (o = 1) as -> by nia. f_equal. apply IHe. lia.
Qed.

Lemma operand_Forall2 (ndim : Z) (osh ost psh pst : list Z) :
  out_wf ndim osh ost = true →
  operand_wf ndim osh psh pst = true →
  Forall2 (λ o l, 0 < o ∧ (l = o ∨ l = 1)) osh psh.
Proof.
  intros Hout Hop.
  destruct (out_wf_facts _ _ _ Hout) as (Hlo & _ & Hpos & _).
  destruct (operand_wf_facts _ _ _ _ Hop) as (Hlp & _ & Hsh).
  apply Forall2_same_length_lookup. split; [lia|].
  intros n o l Ho Hl. pose proof (lookup_lt_Some _ _ _ Ho) as Hn.
  pose proof (Hpos (Z.of_nat n) ltac:(lia)) as Hp.
  pose proof (Hsh (Z.of_nat n) ltac:(lia)) as Hs.
  unfold cell in Hp, Hs. destruct (decide (0 ≤ Z.of_nat n)); [|lia].
  rewrite Nat2Z.id in Hp, Hs. rewrite Ho in Hp, Hs. rewrite Hl in Hs. done.
Qed.

(** X13.  The test [out_stride[0] == lhs_stride[0]] of [UnravelRavel],
    for a left operand with row-major contiguous strides.  When it
    holds, the left operand has the extents of the output in every
    dimension but the first; so if its first extent is that of the
    output, the index [idx] it is given is the index the sum gives, and
    if its first extent is 1 where the output's is not, every [idx]
    past the first slice of the output is given to it unchanged and
    lies outside the operand. *)
Theorem UnravelRavel_fast_path (idx ndim : Z)
    (out_shape out_stride lhs_shape rhs_shape rhs_stride : list Z) :
  1 ≤ ndim →
  out_wf ndim out_shape out_stride = true →
  operand_wf ndim out_shape lhs_shape (strides_of lhs_shape) = true →
  operand_wf ndim out_shape rhs_shape rhs_stride = true →
  0 ≤ idx < Numel out_shape →
  cell 0 out_stride 0 = cell 0 (strides_of lhs_shape) 0 →
  ∃ r, UnravelRavel idx ndim out_shape out_stride lhs_shape (strides_of lhs_shape)
         rhs_shape rhs_stride 0 0 = Ok (idx, r)
    ∧ drop 1 lhs_shape = drop 1 out_shape
    ∧ (cell 0 lhs_shape 0 = cell 0 out_shape 0 →
         ravel_min idx ndim out_shape out_stride lhs_shape (strides_of lhs_shape) = idx)
    ∧ (cell 0 lhs_shape 0 ≠ cell 0 out_shape 0 →
         Numel lhs_shape = cell 0 out_stride 0
         ∧ (cell 0 out_stride 0 ≤ idx → Numel lhs_shape ≤ idx)).
Proof.
  intros Hnd Hout Hl Hr Hidx Hfast.
  pose proof (operand_Forall2 _ _ _ _ _ Hout Hl) as Hall.
  destruct (out_wf_facts _ _ _ Hout) as (Hlo & Hlt & Hpos & Hst & _).
  destruct (operand_wf_facts _ _ _ _ Hl) as (Hll & Hllt & Hsh).
  exists (ravel_min idx ndim out_shape out_stride rhs_shape rhs_stride).
  split.
  { unfold UnravelRavel.
    rewrite (load_in_range 0 out_stride), (load_in_range 0 (strides_of lhs_shape)) by lia.
    simpl. rewrite decide_True by done.
    rewrite (UnravelRavel_loop idx ndim out_shape out_stride rhs_shape rhs_stride)
      by (done || lia). done. }
  destruct out_shape as [|o osh]; [simpl in Hlo; lia|].
  destruct lhs_shape as [|l lsh]; [simpl in Hll; lia|].
  apply Forall2_cons in Hall as [[Ho Hl0] Htail].
  destruct (same_extents osh lsh Htail) as (Hb & He).
  assert (cell 0 out_stride 0 = Numel osh) as Host.
  { rewrite (Hst 0) by lia. unfold tail_numel. done. }
  assert (cell 0 (strides_of (l :: lsh)) 0 = Numel lsh) as Hlst by done.
  assert (lsh = osh) as -> by (apply He; lia).
  split; [done|]. split.
  - intros Heq. change (cell 0 (l :: osh) 0) with l in Heq.
    change (cell 0 (o :: osh) 0) with o in Heq. subst l.
    assert (out_stride = strides_of (o :: osh)) as ->.
    { unfold out_wf in Hout. rewrite !andb_true_iff, !bool_decide_eq_true in Hout.
      by destruct Hout as [[_ ?] _]. }
    by apply ravel_min_self.
  - intros Hne. change (cell 0 (l :: osh) 0) with l in Hne.
    change (cell 0 (o :: osh) 0) with o in Hne.
    destruct Hl0 as [->| ->]; [done|].
    rewrite Numel_cons, Host. split; lia.
Qed.

(** * The operators side by side *)

Section Operators.
Context {D : Type} `{!DTypeOps D}.

(** Operands that are in order for an operator using both are in order
    for every operator. *)
Lemma operands_ok_weaken (op : Op) (ufeat efeat : Tensor D) (dim : Z)
    (es : list nonzero) :
  operands_ok Add ufeat efeat dim es = true →
  operands_ok op ufeat efeat dim es = true.
Proof.
  unfold operands_ok. intros Hall.
  apply Is_true_true_2, forallb_True in Hall.
  apply Is_true_true_1, forallb_True. eapply Forall_impl; [exact Hall|].
  intros e He. apply Is_true_true_1, andb_true_iff in He as [Hl Hr].
  apply Is_true_true_2. simpl in Hl, Hr. by destruct op; simpl; rewrite ?Hl, ?Hr.
Qed.

(** The sum of sums, for an addition that is associative and
    commutative and has 0 as its identity. *)
Lemma sum_of_dadd (f g : nonzero → D) (es : list nonzero) :
  SumLaws → (∀ x : D, dadd dzero x = x) →
  sum_of ((λ e, dadd (f e) (g e)) <$> es)
  = dadd (sum_of (f <$> es)) (sum_of (g <$> es)).
Proof.
  intros [Hassoc Hcomm] Hzero. unfold sum_of.
  assert (∀ a b : D,
    foldl dadd (dadd a b) ((λ e, dadd (f e) (g e)) <$> es)
    = dadd (foldl dadd a (f <$> es)) (foldl dadd b (g <$> es))) as Hgen.
  { induction es as [|e es IH]; intros a b; simpl; [done|].
    rewrite <- IH. f_equal.
    rewrite !Hassoc. f_equal. rewrite <- !Hassoc. f_equal. apply Hcomm. }
  rewrite <- Hgen. by rewrite Hzero.
Qed.

(** X14.  With an exact addition, what [SpMMSumCsr] computes with the
    operator [Add] is, cell by cell, the sum of what it computes with
    [CopyLhs] and with [CopyRhs] on the same arguments. *)
Theorem SpMMSumCsr_add_splits (csr : CSRMatrix) (ufeat efeat : Tensor D)
    (out : NDArray D) :
  let dim := feat_dim (shape out) in
  SumLaws → (∀ x : D, dadd dzero x = x) →
  csr_wf csr = true →
  operands_ok Add ufeat efeat dim (csr_entries csr) = true →
  csr_num_rows csr * dim ≤ Z.of_nat (length (data out)) →
  ∃ Oadd Olhs Orhs,
    SpMMSumCsr Add csr ufeat efeat out = Ok Oadd
    ∧ SpMMSumCsr CopyLhs csr ufeat efeat out = Ok Olhs
    ∧ SpMMSumCsr CopyRhs csr ufeat efeat out = Ok Orhs
    ∧ ∀ i, 0 ≤ i < csr_num_rows csr * dim →
        cell dzero Oadd i = dadd (cell dzero Olhs i) (cell dzero Orhs i).
Proof.
  cbv zeta. intros Hsum Hzero Hwf Hok Hlen.
  destruct (SpMMSumCsr_spec Add csr ufeat efeat out Hwf Hok Hlen)
    as (Oadd & Hra & _ & Hca).
  destruct (SpMMSumCsr_spec CopyLhs csr ufeat efeat out Hwf
              (operands_ok_weaken CopyLhs _ _ _ _ Hok) Hlen)
    as (Olhs & Hrl & _ & Hcl).
  destruct (SpMMSumCsr_spec CopyRhs csr ufeat efeat out Hwf
              (operands_ok_weaken CopyRhs _ _ _ _ Hok) Hlen)
    as (Orhs & Hrr & _ & Hcr).
  exists Oadd, Olhs, Orhs. repeat (split; [done|]).
  intros i Hi.
  destruct (decide (0 ≤ feat_dim (shape out))) as [Hdim|Hdim]; last first.
  { destruct (csr_wf_unpack csr Hwf) as (Hn & _). nia. }
  destruct (flat_index (csr_num_rows csr) (feat_dim (shape out)) i)
    as (r & k & Hr & Hk & ->); [done..|].
  rewrite (Hca r k Hr Hk), (Hcl r k Hr Hk), (Hcr r k Hr Hk).
  by rewrite <- (sum_of_dadd _ _ _ Hsum Hzero).
Qed.

(** X15.  [SpMMCmpCsr] does not look at what its output tensors hold:
    run on two sets of output tensors of the same shape it leaves the
    same value in every cell of the output rows, and the same argument
    entries for the operands the value operator uses. *)
Theorem SpMMCmpCsr_overwrites (op : Op) (cmp : Cmp) (csr : CSRMatrix)
    (ufeat efeat : Tensor D) (out out' : NDArray D) (argu arge argu' arge' : list Z) :
  let dim := feat_dim (shape out) in
  let n := csr_num_rows csr * dim in
  csr_wf csr = true →
  operands_ok op ufeat efeat dim (csr_entries csr) = true →
  shape out' = shape out →
  n ≤ Z.of_nat (length (data out)) → n ≤ Z.of_nat (length (data out')) →
  arg_ok (use_lhs op) n argu = true → arg_ok (use_rhs op) n arge = true →
  arg_ok (use_lhs op) n argu' = true → arg_ok (use_rhs op) n arge' = true →
  ∃ Obuf argX argW Obuf' argX' argW',
    SpMMCmpCsr op cmp csr ufeat efeat out argu arge = Ok (Obuf, argX, argW)
    ∧ SpMMCmpCsr op cmp csr ufeat efeat out' argu' arge' = Ok (Obuf', argX', argW')
    ∧ ∀ i, 0 ≤ i < n →
        cell dzero Obuf i = cell dzero Obuf' i
        ∧ (use_lhs op = true → cell 0 argX i = cell 0 argX' i)
        ∧ (use_rhs op = true → cell 0 argW i = cell 0 argW' i).
Proof.
  cbv zeta. intros Hwf Hok Hsh Hlen Hlen' Hau Hae Hau' Hae'.
  destruct (SpMMCmpCsr_spec op cmp csr ufeat efeat out argu arge Hwf Hok Hlen Hau Hae)
    as (O1 & X1 & W1 & Hrun1 & _ & _ & _ & Hc1 & _).
  destruct (SpMMCmpCsr_spec op cmp csr ufeat efeat out' argu' arge' Hwf)
    as (O2 & X2 & W2 & Hrun2 & _ & _ & _ & Hc2 & _); rewrite ?Hsh; try done.
  rewrite Hsh in Hc2.
  exists O1, X1, W1, O2, X2, W2. split; [done|]. split; [done|].
  intros i Hi.
  destruct (decide (0 ≤ feat_dim (shape out))) as [Hdim|Hdim]; last first.
  { destruct (csr_wf_unpack csr Hwf) as (Hn & _). nia. }
  destruct (flat_index (csr_num_rows csr) (feat_dim (shape out)) i)
    as (r & k & Hr & Hk & ->); [done..|].
  destruct (Hc1 r k Hr Hk) as (Ho1 & Hx1 & Hw1).
  destruct (Hc2 r k Hr Hk) as (Ho2 & Hx2 & Hw2).
  split; [by rewrite Ho1, Ho2|]. split; intros Hu.
  - by rewrite (Hx1 Hu), (Hx2 Hu).
  - by rewrite (Hw1 Hu), (Hw2 Hu).
Qed.

End Operators.

Lemma SpMMSumCsr_add_splits_witness :
  ∃ Oadd Olhs Orhs,
    SpMMSumCsr Add csr1 uf1 ef1 out1 = Ok Oadd
    ∧ SpMMSumCsr CopyLhs csr1 uf1 ef1 out1 = Ok Olhs
    ∧ SpMMSumCsr CopyRhs csr1 uf1 ef1 out1 = Ok Orhs
    ∧ cell 0 Oadd 1 = cell 0 Olhs 1 + cell 0 Orhs 1.
Proof.
  destruct (SpMMSumCsr_add_splits csr1 uf1 ef1 out1)
    as (Oadd & Olhs & Orhs & Ha & Hl & Hr & Hcells).
  - exact Z_SumLaws.
  - intros x. simpl. lia.
  - reflexivity.
  - reflexivity.
  - by vm_compute.
  - exists Oadd, Olhs, Orhs. repeat (split; [done|]).
    exact (Hcells 1 ltac:(by vm_compute)).
Defined.

Lemma SpMMCmpCsr_overwrites_witness :
  ∃ Obuf argX argW Obuf' argX' argW',
    SpMMCmpCsr Add Max csr1 uf1 ef1 out1 arg1 arg1 = Ok (Obuf, argX, argW)
    ∧ SpMMCmpCsr Add Max csr1 uf1 ef1 out1z argz argz = Ok (Obuf', argX', argW')
    ∧ cell 0 argX 2 = cell 0 argX' 2.
Proof.
  destruct (SpMMCmpCsr_overwrites Add Max csr1 uf1 ef1 out1 out1z arg1 arg1 argz argz)
    as (O1 & X1 & W1 & O2 & X2 & W2 & Hrun & Hrun' & Hcells); try reflexivity.
  exists O1, X1, W1, O2, X2, W2. split; [exact Hrun|]. split; [exact Hrun'|].
  exact (proj1 (proj2 (Hcells 2 ltac:(by vm_compute))) eq_refl).
Defined.

(** * SDDMM device code *)

(** ** Strided loops *)

Lemma strided_loop_strided {St} (body : Z → St → result St) (fuel : nat)
    (bound stride i : Z) (s : St) :
  0 < stride → bound - i ≤ Z.of_nat fuel →
  strided_loop fuel bound stride body i s
  = iterM body (strided fuel bound stride i) s.
Proof.
  intros Hs. revert i s. induction fuel as [|fuel IH]; intros i s Hf; simpl.
  - by rewrite !decide_False by lia.
  - case_decide; [|done]. simpl. destruct (body i s) as [s'| |]; simpl; [|done..].
    apply IH. lia.
Qed.

(** Enough fuel is never used up: more fuel changes nothing. *)
Lemma strided_loop_fuel {St} (body : Z → St → result St) (fuel fuel' : nat)
    (bound stride i : Z) (s : St) :
  0 < stride → bound - i ≤ Z.of_nat fuel → (fuel ≤ fuel')%nat →
  strided_loop fuel' bound stride body i s = strided_loop fuel bound stride body i s.
Proof.
  intros Hs. revert fuel' i s. induction fuel as [|fuel IH]; intros fuel' i s Hf Hle.
  - destruct fuel'; simpl; by rewrite !decide_False by lia.
  - destruct fuel' as [|fuel']; [lia|]. simpl. case_decide; [|done].
    destruct (body i s) as [s'| |]; simpl; [|done..]. apply IH; lia.
Qed.

Lemma elem_of_strided (fuel : nat) (bound stride i x : Z) :
  0 < stride → bound - i ≤ Z.of_nat fuel →
  x ∈ strided fuel bound stride i ↔ i ≤ x < bound ∧ (x - i) `mod` stride = 0.
Proof.
  intros Hs. revert i. induction fuel as [|fuel IH]; intros i Hf; simpl.
  - rewrite decide_False by lia. split; [by intros ?%elem_of_nil|lia].
  - case_decide as Hlt; [|split; [by intros ?%elem_of_nil|lia]].
    rewrite elem_of_cons, IH by lia.
    replace (x - (i + stride)) with (x - i + (-1) * stride) by lia.
    rewrite Z_mod_plus_full. split.
    + intros [->|[Hx Hm]].
      * rewrite Z.sub_diag, Z.mod_0_l by lia. lia.
      * split; [lia|done].
    + intros [Hx Hm]. destruct (decide (x = i)) as [->|Hne]; [by left|right].
      split; [|done]. apply Z.mod_divide in Hm as [q Hq]; [|lia].
      assert (1 ≤ q) by nia. nia.
Qed.

(** ** Lists of writes *)

Lemma apply_writes_app {A} (ws1 ws2 : list (Z * A)) (buf : list A) :
  apply_writes (ws1 ++ ws2) buf = apply_writes ws2 (apply_writes ws1 buf).
Proof. unfold apply_writes. by rewrite foldl_app. Qed.

Lemma length_apply_writes {A} (ws : list (Z * A)) (buf : list A) :
  length (apply_writes ws buf) = length buf.
Proof.
  revert buf. induction ws as [|w ws IH]; intros buf; [done|].
  change (apply_writes (w :: ws) buf)
    with (apply_writes ws (<[Z.to_nat w.1 := w.2]> buf)).
  by rewrite IH, length_insert.
Qed.

(** A cell no write addresses keeps its content. *)
Lemma apply_writes_other {A} (ws : list (Z * A)) (buf : list A) (c : Z) :
  (∀ w, w ∈ ws → 0 ≤ w.1 ∧ w.1 ≠ c) →
  load (apply_writes ws buf) c = load buf c.
Proof.
  revert buf. induction ws as [|w ws IH]; intros buf Hws; [done|].
  change (apply_writes (w :: ws) buf)
    with (apply_writes ws (<[Z.to_nat w.1 := w.2]> buf)).
  rewrite IH by (intros; apply Hws; by right).
  destruct (Hws w ltac:(by left)) as [H0 Hne].
  unfold load. case_decide; [|done].
  rewrite list_lookup_insert_ne; [done|lia].
Qed.

(** A cell that every write addressing it gives the value [v]. *)
Lemma apply_writes_at {A} (ws : list (Z * A)) (buf : list A) (c : Z) (v : A) :
  (∀ w, w ∈ ws → 0 ≤ w.1 < Z.of_nat (length buf)) →
  (c, v) ∈ ws →
  (∀ v', (c, v') ∈ ws → v' = v) →
  load (apply_writes ws buf) c = Ok v.
Proof.
  induction ws as [|w ws IH] using rev_ind; intros Hrange Hin Hsame;
    [by apply elem_of_nil in Hin|].
  rewrite apply_writes_app.
  change (apply_writes [w] (apply_writes ws buf))
    with (<[Z.to_nat w.1 := w.2]> (apply_writes ws buf)).
  destruct (Hrange w) as [Hw0 Hw1]; [apply elem_of_app; right; by left|].
  destruct (decide (w.1 = c)) as [Heq|Hne].
  - assert (w.2 = v) as <-.
    { apply Hsame. apply elem_of_app. right. destruct w as [c' v']. simpl in *.
      subst c'. by left. }
    unfold load. rewrite decide_True by lia. subst c.
    rewrite list_lookup_insert_eq; [done|]. rewrite length_apply_writes. lia.
  - assert (load (apply_writes ws buf) c = Ok v) as Hc.
    { apply IH.
      - intros w' Hw'. apply Hrange, elem_of_app. by left.
      - apply elem_of_app in Hin as [Hin|Hin%list_elem_of_singleton]; [done|].
        subst w. done.
      - intros v' Hv'. apply Hsame, elem_of_app. by left. }
    apply load_Ok in Hc as Hc'. destruct Hc' as [Hc0 _].
    unfold load in *. rewrite decide_True in * by lia.
    rewrite list_lookup_insert_ne; [done|lia].
Qed.

(** A loop whose iterations are lists of writes is the list of all
    their writes. *)
Lemma iterM_apply_writes {A} (body : Z → list A → result (list A))
    (W : Z → list (Z * A)) (l : list Z) (buf : list A) :
  (∀ i b, i ∈ l → length b = length buf → body i b = Ok (apply_writes (W i) b)) →
  iterM body l buf = Ok (apply_writes (l ≫= W) buf).
Proof.
  revert buf. induction l as [|i l IH]; intros buf Hbody; [done|].
  rewrite bind_cons, apply_writes_app. simpl.
  rewrite (Hbody i buf) by (done || by left). simpl. apply IH.
  intros j b Hj Hb. apply Hbody; [by right|].
  by rewrite Hb, length_apply_writes.
Qed.

Lemma run_threads_apply_writes {A} (kernel : ThreadCtx → list A → result (list A))
    (W : ThreadCtx → list (Z * A)) (schedule : list ThreadCtx) (buf : list A) :
  (∀ tc b, tc ∈ schedule → length b = length buf →
           kernel tc b = Ok (apply_writes (W tc) b)) →
  run_threads kernel schedule buf = Ok (apply_writes (schedule ≫= W) buf).
Proof.
  revert buf. induction schedule as [|tc l IH]; intros buf Hbody; [done|].
  rewrite bind_cons, apply_writes_app. simpl.
  rewrite (Hbody tc buf) by (done || by left). simpl. apply IH.
  intros j b Hj Hb. apply Hbody; [by right|].
  by rewrite Hb, length_apply_writes.
Qed.

(** ** Threads of a launch *)

Lemma to_uint_small (z : Z) : 0 ≤ z < 2 ^ 32 → to_uint z = z.
Proof. intros Hz. unfold to_uint. by rewrite Z.mod_small. Qed.

Lemma to_Idx_small (T : IdxType) (z : Z) : - 2 ^ 31 ≤ z < 2 ^ 31 → to_Idx T z = z.
Proof. intros Hz. destruct T; simpl; [by apply to_int_small|done]. Qed.

Lemma elem_of_grid_threads (nblks nthrs : dim3) (tc : ThreadCtx) :
  tc ∈ grid_threads nblks nthrs
  ↔ gridDim tc = nblks ∧ blockDim tc = nthrs
    ∧ 0 ≤ dim_x (blockIdx tc) < dim_x nblks
    ∧ 0 ≤ dim_y (blockIdx tc) < dim_y nblks
    ∧ 0 ≤ dim_x (threadIdx tc) < dim_x nthrs
    ∧ 0 ≤ dim_y (threadIdx tc) < dim_y nthrs.
Proof.
  unfold grid_threads. split.
  - intros (by_ & (bx & (ty & (tx & Heq & Htx)%list_elem_of_bind & Hty)%list_elem_of_bind
                      & Hbx)%list_elem_of_bind & Hby)%list_elem_of_bind.
    apply list_elem_of_singleton in Heq as ->. simpl.
    apply elem_of_seqZ in Htx, Hty, Hbx, Hby. repeat split; lia.
  - destruct tc as [g b [bx by_] [tx ty]]. simpl.
    intros (-> & -> & Hbx & Hby & Htx & Hty).
    apply list_elem_of_bind. exists by_. split; [|apply elem_of_seqZ; lia].
    apply list_elem_of_bind. exists bx. split; [|apply elem_of_seqZ; lia].
    apply list_elem_of_bind. exists ty. split; [|apply elem_of_seqZ; lia].
    apply list_elem_of_bind. exists tx. split; [|apply elem_of_seqZ; lia].
    by apply list_elem_of_singleton.
Qed.

Lemma geometry_ok_unpack (nblks nthrs : dim3) :
  geometry_ok nblks nthrs = true →
  0 < dim_x nblks ∧ 0 < dim_y nblks ∧ 0 < dim_x nthrs ∧ 0 < dim_y nthrs
  ∧ dim_x nblks * dim_x nthrs < 2 ^ 31 ∧ dim_y nblks * dim_y nthrs < 2 ^ 31.
Proof.
  unfold geometry_ok. rewrite !andb_true_iff, !bool_decide_eq_true. tauto.
Qed.

(** The first position of a thread lies below its stride, and the
    conversions of both are exact. *)
Lemma thread_geometry (nblks nthrs : dim3) (tc : ThreadCtx) :
  geometry_ok nblks nthrs = true →
  tc ∈ grid_threads nblks nthrs →
  0 ≤ first_x tc < stride_x tc ∧ stride_x tc < 2 ^ 31
  ∧ 0 ≤ first_y tc < stride_y tc ∧ stride_y tc < 2 ^ 31.
Proof.
  intros (Hgx & Hgy & Hbx & Hby & Hx & Hy)%geometry_ok_unpack
         (Hg & Hb & Hix & Hiy & Htx & Hty)%elem_of_grid_threads.
  unfold first_x, first_y, stride_x, stride_y. rewrite Hg, Hb.
  repeat split; nia.
Qed.

(** The thread of a grid that visits the position [p] along one axis. *)
Lemma axis_cover (g b p : Z) :
  0 < g → 0 < b → 0 ≤ p →
  ∃ bi ti, 0 ≤ bi < g ∧ 0 ≤ ti < b
    ∧ bi * b + ti ≤ p ∧ (p - (bi * b + ti)) `mod` (b * g) = 0.
Proof.
  intros Hg Hb Hp.
  pose proof (Z.mod_pos_bound p (b * g) ltac:(nia)) as Hr.
  set (r := p `mod` (b * g)) in *.
  pose proof (Z.mod_pos_bound r b Hb) as Hti.
  pose proof (Z.div_mod r b ltac:(lia)) as Hdm.
  exists (r `div` b), (r `mod` b). split; [|split; [done|]].
  - split; [apply Z.div_pos; lia|]. apply Z.div_lt_upper_bound; lia.
  - replace (r `div` b * b + r `mod` b) with r by lia.
    split; [apply Z.mod_le; nia|].
    unfold r. rewrite Zminus_mod_idemp_r, Z.sub_diag. apply Z.mod_0_l. nia.
Qed.

(** Two threads of a grid with the same first positions are one
    thread. *)
Lemma thread_first_inj (nblks nthrs : dim3) (tc tc' : ThreadCtx) :
  geometry_ok nblks nthrs = true →
  tc ∈ grid_threads nblks nthrs → tc' ∈ grid_threads nblks nthrs →
  first_x tc = first_x tc' → first_y tc = first_y tc' → tc = tc'.
Proof.
  intros (Hgx & Hgy & Hbx & Hby & _)%geometry_ok_unpack
         (Hg & Hb & Hix & Hiy & Htx & Hty)%elem_of_grid_threads
         (Hg' & Hb' & Hix' & Hiy' & Htx' & Hty')%elem_of_grid_threads.
  unfold first_x, first_y. rewrite Hb, Hb'.
  destruct tc as [g b [bx by_] [tx ty]], tc' as [g' b' [bx' by_'] [tx' ty']].
  simpl in *. subst g b g' b'. intros Hx Hy.
  assert (bx = bx') by nia. assert (by_ = by_') by nia.
  subst bx' by_'. f_equal. f_equal; lia.
Qed.

(** ** Writes of a thread and of a grid *)

Lemma elem_of_thread_writes {A} (E out_len : Z) (w : Z → Z → Z * A)
    (nblks nthrs : dim3) (tc : ThreadCtx) (x : Z * A) :
  geometry_ok nblks nthrs = true →
  tc ∈ grid_threads nblks nthrs →
  x ∈ thread_writes E out_len w tc
  ↔ ∃ ty tx, x = w ty tx
      ∧ (first_y tc ≤ ty < E ∧ (ty - first_y tc) `mod` stride_y tc = 0)
      ∧ (first_x tc ≤ tx < out_len ∧ (tx - first_x tc) `mod` stride_x tc = 0).
Proof.
  intros Hgeo Htc.
  destruct (thread_geometry _ _ _ Hgeo Htc) as (Hfx & _ & Hfy & _).
  unfold thread_writes. rewrite list_elem_of_bind. split.
  - intros (ty & (tx & ->%list_elem_of_singleton & Htx)%list_elem_of_bind & Hty).
    apply elem_of_strided in Htx, Hty; [|lia..]. eauto.
  - intros (ty & tx & -> & Hty & Htx). exists ty.
    split; [|apply elem_of_strided; [lia..|done]].
    apply list_elem_of_bind. exists tx.
    split; [by apply list_elem_of_singleton|apply elem_of_strided; [lia..|done]].
Qed.

(** The cells of a buffer after all threads of a grid have carried out
    their writes, in any order: every position of every edge has been
    written, and nothing else has. *)
Lemma grid_writes_cells {A} (E out_len : Z) (w : Z → Z → Z * A)
    (nblks nthrs : dim3) (schedule : list ThreadCtx) (buf : list A) :
  geometry_ok nblks nthrs = true →
  schedule ≡ₚ grid_threads nblks nthrs →
  (∀ ty tx, 0 ≤ ty < E → 0 ≤ tx < out_len →
            0 ≤ (w ty tx).1 < Z.of_nat (length buf)) →
  (∀ ty tx ty' tx', 0 ≤ ty < E → 0 ≤ tx < out_len → 0 ≤ ty' < E → 0 ≤ tx' < out_len →
            (w ty tx).1 = (w ty' tx').1 → ty = ty' ∧ tx = tx') →
  (∀ ty tx, 0 ≤ ty < E → 0 ≤ tx < out_len →
     load (apply_writes (schedule ≫= thread_writes E out_len w) buf) (w ty tx).1
     = Ok (w ty tx).2)
  ∧ (∀ c, (∀ ty tx, 0 ≤ ty < E → 0 ≤ tx < out_len → c ≠ (w ty tx).1) →
     load (apply_writes (schedule ≫= thread_writes E out_len w) buf) c = load buf c).
Proof.
  intros Hgeo Hperm Hrange Hinj.
  pose proof (geometry_ok_unpack _ _ Hgeo) as (Hgx & Hgy & Hbx & Hby & _).
  assert (∀ x, x ∈ schedule ≫= thread_writes E out_len w →
            ∃ ty tx, x = w ty tx ∧ 0 ≤ ty < E ∧ 0 ≤ tx < out_len) as Hall.
  { intros x (tc & Hx & Htc)%list_elem_of_bind. rewrite Hperm in Htc.
    destruct (thread_geometry _ _ _ Hgeo Htc) as (Hfx & _ & Hfy & _).
    apply (elem_of_thread_writes _ _ _ _ _ _ _ Hgeo Htc) in Hx
      as (ty & tx & -> & Hty & Htx).
    exists ty, tx. split; [done|lia]. }
  split.
  - intros ty tx Hty Htx. apply apply_writes_at.
    + intros x (ty' & tx' & -> & Hty' & Htx')%Hall. by apply Hrange.
    + destruct (axis_cover (dim_x nblks) (dim_x nthrs) tx) as (bx & tix & ? & ? & ? & ?);
        [lia..|].
      destruct (axis_cover (dim_y nblks) (dim_y nthrs) ty) as (by_ & tiy & ? & ? & ? & ?);
        [lia..|].
      set (tc := mkThreadCtx nblks nthrs (mkDim3 bx by_) (mkDim3 tix tiy)).
      assert (tc ∈ grid_threads nblks nthrs) as Htc
        by (apply elem_of_grid_threads; simpl; done).
      apply list_elem_of_bind. exists tc. split; [|by rewrite Hperm].
      apply (elem_of_thread_writes _ _ _ _ _ _ _ Hgeo Htc).
      exists ty, tx. split; [by destruct (w ty tx)|].
      unfold first_x, first_y, stride_x, stride_y. simpl. split; (split; [lia|done]).
    + intros v' (ty' & tx' & Heq & Hty' & Htx')%Hall.
      destruct (Hinj ty tx ty' tx') as [-> ->]; [done..|by rewrite <- Heq|].
      by rewrite <- Heq.
  - intros c Hc. apply apply_writes_other.
    intros x (ty & tx & -> & Hty & Htx)%Hall.
    split; [by apply Hrange|]. intros Heq. by apply (Hc ty tx).
Qed.

(** The writes of two threads of a grid do not meet. *)
Lemma thread_writes_disjoint {A} (E out_len : Z) (w : Z → Z → Z * A)
    (nblks nthrs : dim3) (tc tc' : ThreadCtx) (x x' : Z * A) :
  geometry_ok nblks nthrs = true →
  (∀ ty tx ty' tx', 0 ≤ ty < E → 0 ≤ tx < out_len → 0 ≤ ty' < E → 0 ≤ tx' < out_len →
            (w ty tx).1 = (w ty' tx').1 → ty = ty' ∧ tx = tx') →
  tc ∈ grid_threads nblks nthrs → tc' ∈ grid_threads nblks nthrs →
  x ∈ thread_writes E out_len w tc → x' ∈ thread_writes E out_len w tc' →
  x.1 = x'.1 → tc = tc'.
Proof.
  intros Hgeo Hinj Htc Htc' Hx Hx' Heq.
  destruct (thread_geometry _ _ _ Hgeo Htc) as (Hfx & _ & Hfy & _).
  destruct (thread_geometry _ _ _ Hgeo Htc') as (Hfx' & _ & Hfy' & _).
  apply (elem_of_thread_writes _ _ _ _ _ _ _ Hgeo Htc) in Hx
    as (ty & tx & -> & [Hty Hmy] & [Htx Hmx]).
  apply (elem_of_thread_writes _ _ _ _ _ _ _ Hgeo Htc') in Hx'
    as (ty' & tx' & -> & [Hty' Hmy'] & [Htx' Hmx']).
  destruct (Hinj ty tx ty' tx') as [<- <-]; [lia..|done|].
  apply elem_of_grid_threads in Htc as Hg. destruct Hg as (Hg & Hb & _).
  apply elem_of_grid_threads in Htc' as Hg'. destruct Hg' as (Hg' & Hb' & _).
  assert (stride_x tc' = stride_x tc) as Hsx
    by (unfold stride_x; by rewrite Hg, Hb, Hg', Hb').
  assert (stride_y tc' = stride_y tc) as Hsy
    by (unfold stride_y; by rewrite Hg, Hb, Hg', Hb').
  rewrite Hsx in *. rewrite Hsy in *.
  apply (thread_first_inj nblks nthrs); [done..| |].
  - apply Z.mod_divide in Hmx as [q Hq]; [|lia].
    apply Z.mod_divide in Hmx' as [q' Hq']; [|lia].
    assert (q = q') by nia. nia.
  - apply Z.mod_divide in Hmy as [q Hq]; [|lia].
    apply Z.mod_divide in Hmy' as [q' Hq']; [|lia].
    assert (q = q') by nia. nia.
Qed.

(** ** The two kernels *)

Lemma covers_load (a : option (list Z)) (n i : Z) :
  covers a n = true → 0 ≤ i < n →
  match a with
  | Some l => load l i = Ok (cell 0 l i)
  | None => True
  end.
Proof.
  destruct a as [l|]; simpl; [|done]. intros Hn%bool_decide_eq_true Hi.
  apply load_in_range. lia.
Qed.

Lemma NoDup_fmap_seqZ_inj (f : Z → Z) (n i j : Z) :
  NoDup (f <$> seqZ 0 n) → 0 ≤ i < n → 0 ≤ j < n → f i = f j → i = j.
Proof.
  intros Hnd Hi Hj Heq.
  assert ((f <$> seqZ 0 n) !! Z.to_nat i = Some (f i)) as Hli.
  { rewrite list_lookup_fmap, lookup_seqZ_lt by lia. simpl. do 2 f_equal. lia. }
  assert ((f <$> seqZ 0 n) !! Z.to_nat j = Some (f i)) as Hlj.
  { rewrite list_lookup_fmap, lookup_seqZ_lt by lia. simpl. rewrite Heq.
    do 2 f_equal. lia. }
  pose proof (NoDup_lookup _ _ _ _ Hnd Hli Hlj). lia.
Qed.

(** Cells [eid * out_len + tx] with different edge ids or different
    feature positions are different cells. *)
Lemma edge_cell_inj (edge_map : option (list Z)) (E out_len ty tx ty' tx' : Z) :
  NoDup (edge_id edge_map <$> seqZ 0 E) →
  0 ≤ ty < E → 0 ≤ tx < out_len → 0 ≤ ty' < E → 0 ≤ tx' < out_len →
  edge_id edge_map ty * out_len + tx = edge_id edge_map ty' * out_len + tx' →
  ty = ty' ∧ tx = tx'.
Proof.
  intros Hnd Hty Htx Hty' Htx' Heq.
  assert (edge_id edge_map ty = edge_id edge_map ty') as He by nia.
  split; [by apply (NoDup_fmap_seqZ_inj (edge_id edge_map) E)|]. rewrite He in Heq. lia.
Qed.

Section DeviceProofs.
Context {D : Type} `{!DTypeOps D}.
Variable BCall : ptr D → ptr D → Z → Z → result D.

Lemma is_ok_ok_or (r : result D) : is_ok r = true → r = Ok (ok_or dzero r).
Proof. by destruct r. Qed.

(** The inner loop as a list of writes. *)
Lemma feature_loop_writes (T : IdxType) (lhsoff rhsoff : ptr D) (outoff reduce_size : Z)
    (ubcast_off vbcast_off : option (list Z)) (out_len tx0 sx : Z)
    (b : list D) (val : Z → D) :
  0 < sx → 0 ≤ tx0 →
  covers ubcast_off out_len = true → covers vbcast_off out_len = true →
  (∀ x, 0 ≤ x < out_len →
     BCall (ptr_shift lhsoff (bcast_add T ubcast_off x * reduce_size))
           (ptr_shift rhsoff (bcast_add T vbcast_off x * reduce_size))
           reduce_size reduce_size = Ok (val x)) →
  (0 < out_len → 0 ≤ outoff ∧ outoff + out_len ≤ Z.of_nat (length b)) →
  feature_loop BCall T lhsoff rhsoff outoff reduce_size ubcast_off vbcast_off
    out_len tx0 sx b
  = Ok (apply_writes
          (strided (Z.to_nat (out_len - tx0)) out_len sx tx0
             ≫= λ x, [(outoff + x, val x)]) b).
Proof.
  intros Hsx Htx0 Hub Hvb Hcall Hoff. unfold feature_loop.
  rewrite strided_loop_strided by lia.
  apply iterM_apply_writes. intros x b' Hx Hb'.
  apply elem_of_strided in Hx as [Hx _]; [|lia..].
  destruct Hoff as [Hoff Hlen]; [lia|].
  assert (match ubcast_off with
          | Some off => to_Idx T <$> load off x
          | None => Ok (to_Idx T x)
          end = Ok (bcast_add T ubcast_off x)) as ->.
  { pose proof (covers_load ubcast_off out_len x Hub ltac:(lia)) as Hl.
    destruct ubcast_off as [off|]; [by rewrite Hl|done]. }
  simpl.
  assert (match vbcast_off with
          | Some off => to_Idx T <$> load off x
          | None => Ok (to_Idx T x)
          end = Ok (bcast_add T vbcast_off x)) as ->.
  { pose proof (covers_load vbcast_off out_len x Hvb ltac:(lia)) as Hl.
    destruct vbcast_off as [off|]; [by rewrite Hl|done]. }
  simpl. rewrite (Hcall x) by lia. simpl.
  rewrite store_in_range by lia. done.
Qed.

Lemma coo_kernel_ok_unpack (T : IdxType) (Op : SddmmOp)
    (ufeat vfeat : option (list D)) (out : list D)
    (row col : list Z) (edge_map : option (list Z))
    (E reduce_size : Z) (ubcast_off vbcast_off : option (list Z))
    (ufeat_len vfeat_len out_len : Z) :
  coo_kernel_ok BCall T Op ufeat vfeat out row col edge_map E reduce_size
    ubcast_off vbcast_off ufeat_len vfeat_len out_len = true →
  E ≤ Z.of_nat (length row) ∧ E ≤ Z.of_nat (length col)
  ∧ covers edge_map E = true
  ∧ covers ubcast_off out_len = true ∧ covers vbcast_off out_len = true
  ∧ NoDup (edge_id edge_map <$> seqZ 0 E)
  ∧ ∀ ty, 0 ≤ ty < E →
      (0 ≤ edge_id edge_map ty
       ∧ (edge_id edge_map ty + 1) * out_len ≤ Z.of_nat (length out))
      ∧ ∀ tx, 0 ≤ tx < out_len →
          BCall
            (operand_ptr T (sddmm_use_lhs Op) ufeat
               (cell 0 row ty * ufeat_len * reduce_size) reduce_size ubcast_off tx)
            (operand_ptr T (sddmm_use_rhs Op) vfeat
               (cell 0 col ty * vfeat_len * reduce_size) reduce_size vbcast_off tx)
            reduce_size reduce_size
          = Ok (coo_write BCall T Op ufeat vfeat row col edge_map reduce_size
                  ubcast_off vbcast_off ufeat_len vfeat_len out_len ty tx).2.
Proof.
  unfold coo_kernel_ok. rewrite !andb_true_iff, !bool_decide_eq_true.
  intros [[[[[[? ?] ?] ?] ?] ?] Hall]. repeat (split; [done|]).
  intros ty Hty. apply Is_true_true_2, forallb_True in Hall.
  rewrite Forall_forall in Hall. specialize (Hall ty ltac:(apply elem_of_seqZ; lia)).
  apply Is_true_true_1, andb_true_iff in Hall as [Hr%bool_decide_eq_true Hcalls].
  split; [done|]. intros tx Htx. apply Is_true_true_2, forallb_True in Hcalls.
  rewrite Forall_forall in Hcalls.
  specialize (Hcalls tx ltac:(apply elem_of_seqZ; lia)).
  apply Is_true_true_1 in Hcalls. by apply is_ok_ok_or.
Qed.

Lemma edge_id_load (edge_map : option (list Z)) (E ty : Z) :
  covers edge_map E = true → 0 ≤ ty < E →
  match edge_map with
  | Some _ => deref (edge_map +ₚ ty)
  | None => Ok ty
  end = Ok (edge_id edge_map ty).
Proof.
  intros Hc Hty. pose proof (covers_load edge_map E ty Hc Hty) as Hl.
  destruct edge_map as [m|]; [exact Hl|done].
Qed.

(** One thread of [SDDMMCooKernel] as a list of writes. *)
Lemma SDDMMCooKernel_writes (T : IdxType) (Op : SddmmOp) (tc : ThreadCtx)
    (ufeat vfeat : option (list D)) (out b : list D)
    (row col : list Z) (edge_map : option (list Z))
    (N M E reduce_size : Z) (ubcast_off vbcast_off : option (list Z))
    (ufeat_len vfeat_len out_len : Z) (nblks nthrs : dim3) :
  geometry_ok nblks nthrs = true →
  coo_kernel_ok BCall T Op ufeat vfeat out row col edge_map E reduce_size
    ubcast_off vbcast_off ufeat_len vfeat_len out_len = true →
  tc ∈ grid_threads nblks nthrs →
  length b = length out →
  SDDMMCooKernel BCall T Op tc ufeat vfeat b row col edge_map N M E reduce_size
    ubcast_off vbcast_off ufeat_len vfeat_len out_len
  = Ok (apply_writes
          (thread_writes E out_len
             (coo_write BCall T Op ufeat vfeat row col edge_map reduce_size
                ubcast_off vbcast_off ufeat_len vfeat_len out_len) tc) b).
Proof.
  intros Hgeo Hok Htc Hb.
  destruct (thread_geometry _ _ _ Hgeo Htc) as (Hfx & Hsx & Hfy & Hsy).
  destruct (coo_kernel_ok_unpack _ _ _ _ _ _ _ _ _ _ _ _ _ _ _ Hok)
    as (Hrow & Hcol & Hem & Hub & Hvb & Hnd & Hcells).
  unfold SDDMMCooKernel. cbv zeta.
  fold (first_x tc) (first_y tc) (stride_x tc) (stride_y tc).
  rewrite !to_uint_small by lia.
  rewrite !to_Idx_small, !to_int_small by lia.
  rewrite strided_loop_strided by lia.
  unfold thread_writes. apply iterM_apply_writes. intros ty b' Hty Hb'.
  apply elem_of_strided in Hty as [Hty _]; [|lia..].
  destruct (Hcells ty ltac:(lia)) as (Heid & Hcalls).
  unfold _ldg. simpl.
  rewrite (load_in_range 0 row), (load_in_range 0 col) by lia. simpl.
  rewrite (edge_id_load edge_map E ty) by (done || lia). simpl.
  rewrite (feature_loop_writes T _ _ _ _ _ _ _ _ _ _
             (λ tx, (coo_write BCall T Op ufeat vfeat row col edge_map reduce_size
                       ubcast_off vbcast_off ufeat_len vfeat_len out_len ty tx).2));
    [done|lia|lia|done|done| |].
  - intros x Hx. by apply Hcalls.
  - intros Hpos. rewrite Hb', Hb. nia.
Qed.

(** X16.  One thread of [SDDMMCooKernel] in a launch whose arguments
    are in order, started on any buffer of the size of [out]: it ends,
    what it does to the buffer is the list of its writes (for every
    edge position and feature position it visits, the value of
    [BinaryOp::Call] into the cell [eid * out_len + tx]), and no cell
    it writes is written by another thread of the grid. *)
Theorem SDDMMCooKernel_thread (T : IdxType) (Op : SddmmOp) (tc : ThreadCtx)
    (ufeat vfeat : option (list D)) (out b : list D)
    (row col : list Z) (edge_map : option (list Z))
    (N M E reduce_size : Z) (ubcast_off vbcast_off : option (list Z))
    (ufeat_len vfeat_len out_len : Z) (nblks nthrs : dim3) :
  let w := coo_write BCall T Op ufeat vfeat row col edge_map reduce_size
             ubcast_off vbcast_off ufeat_len vfeat_len out_len in
  geometry_ok nblks nthrs = true →
  coo_kernel_ok BCall T Op ufeat vfeat out row col edge_map E reduce_size
    ubcast_off vbcast_off ufeat_len vfeat_len out_len = true →
  tc ∈ grid_threads nblks nthrs →
  length b = length out →
  SDDMMCooKernel BCall T Op tc ufeat vfeat b row col edge_map N M E reduce_size
    ubcast_off vbcast_off ufeat_len vfeat_len out_len
  = Ok (apply_writes (thread_writes E out_len w tc) b)
  ∧ ∀ tc' x x', tc' ∈ grid_threads nblks nthrs → tc' ≠ tc →
      x ∈ thread_writes E out_len w tc → x' ∈ thread_writes E out_len w tc' →
      x.1 ≠ x'.1.
Proof.
  cbv zeta. intros Hgeo Hok Htc Hb. split; [by apply (SDDMMCooKernel_writes _ _ _ _ _ out _ _ _ _ _ _ _ _ _ _ _ _ _ nblks nthrs)|].
  destruct (coo_kernel_ok_unpack _ _ _ _ _ _ _ _ _ _ _ _ _ _ _ Hok)
    as (_ & _ & _ & _ & _ & Hnd & _).
  intros tc' x x' Htc' Hne Hx Hx' Heq. apply Hne. symmetry.
  apply (thread_writes_disjoint E out_len
           (coo_write BCall T Op ufeat vfeat row col edge_map reduce_size
              ubcast_off vbcast_off ufeat_len vfeat_len out_len)
           nblks nthrs tc tc' x x'); try done.
  intros ty tx ty' tx' Hty Htx Hty' Htx' Hc. by apply (edge_cell_inj edge_map E out_len).
Qed.

(** X17.  A launch of [SDDMMCooKernel] under any sequential schedule of
    the threads of its grid, for any grid without an empty dimension:
    the launch ends; for every edge position [ty] below [E] and every
    feature position [tx] below [out_len] the cell
    [out[eid * out_len + tx]] holds the value of [BinaryOp::Call] on
    the operand pointers [ufeat + row[ty] * ufeat_len * reduce_size +
    lhs_add * reduce_size] and [vfeat + col[ty] * vfeat_len *
    reduce_size + rhs_add * reduce_size]; every other cell is
    untouched. *)
Theorem SDDMMCooKernel_grid (T : IdxType) (Op : SddmmOp)
    (ufeat vfeat : option (list D)) (out : list D)
    (row col : list Z) (edge_map : option (list Z))
    (N M E reduce_size : Z) (ubcast_off vbcast_off : option (list Z))
    (ufeat_len vfeat_len out_len : Z) (nblks nthrs : dim3)
    (schedule : list ThreadCtx) :
  geometry_ok nblks nthrs = true →
  coo_kernel_ok BCall T Op ufeat vfeat out row col edge_map E reduce_size
    ubcast_off vbcast_off ufeat_len vfeat_len out_len = true →
  schedule ≡ₚ grid_threads nblks nthrs →
  ∃ out',
    run_threads (λ tc o,
      SDDMMCooKernel BCall T Op tc ufeat vfeat o row col edge_map N M E reduce_size
        ubcast_off vbcast_off ufeat_len vfeat_len out_len) schedule out = Ok out'
    ∧ length out' = length out
    ∧ (∀ ty tx, 0 ≤ ty < E → 0 ≤ tx < out_len →
         load out' (edge_id edge_map ty * out_len + tx)
         = BCall
             (operand_ptr T (sddmm_use_lhs Op) ufeat
                (cell 0 row ty * ufeat_len * reduce_size) reduce_size ubcast_off tx)
             (operand_ptr T (sddmm_use_rhs Op) vfeat
                (cell 0 col ty * vfeat_len * reduce_size) reduce_size vbcast_off tx)
             reduce_size reduce_size)
    ∧ (∀ c, (∀ ty tx, 0 ≤ ty < E → 0 ≤ tx < out_len →
               c ≠ edge_id edge_map ty * out_len + tx) →
         load out' c = load out c).
Proof.
  intros Hgeo Hok Hperm.
  destruct (coo_kernel_ok_unpack _ _ _ _ _ _ _ _ _ _ _ _ _ _ _ Hok)
    as (_ & _ & _ & _ & _ & Hnd & Hcells).
  set (w := coo_write BCall T Op ufeat vfeat row col edge_map reduce_size
              ubcast_off vbcast_off ufeat_len vfeat_len out_len).
  eexists. split.
  { apply (run_threads_apply_writes _ (thread_writes E out_len w)).
    intros tc b Htc Hb. rewrite Hperm in Htc.
    by apply (SDDMMCooKernel_writes _ _ _ _ _ out _ _ _ _ _ _ _ _ _ _ _ _ _ nblks nthrs). }
  split; [apply length_apply_writes|].
  destruct (grid_writes_cells E out_len w nblks nthrs schedule out Hgeo Hperm)
    as (Hat & Hother).
  - intros ty tx Hty Htx. destruct (Hcells ty Hty) as (Hr & _). simpl. nia.
  - intros ty tx ty' tx' Hty Htx Hty' Htx' Hc.
    by apply (edge_cell_inj edge_map E out_len).
  - split.
    + intros ty tx Hty Htx. destruct (Hcells ty Hty) as (_ & Hcall).
      rewrite (Hcall tx Htx). apply (Hat ty tx Hty Htx).
    + intros c Hc. apply Hother. intros ty tx Hty Htx. by apply Hc.
Qed.

End DeviceProofs.

Section CsrDeviceProofs.
Context {D : Type} `{!DTypeOps D}.
Variable BCall : ptr D → ptr D → Z → Z → result D.

Lemma csr_kernel_ok_unpack (T : IdxType) (Op : SddmmOp)
    (ufeat vfeat : option (list D)) (out : list D)
    (indptr indices : list Z) (edge_map : option (list Z))
    (N E reduce_size : Z) (ubcast_off vbcast_off : option (list Z))
    (ufeat_len vfeat_len out_len : Z) :
  csr_kernel_ok BCall T Op ufeat vfeat out indptr indices edge_map N E reduce_size
    ubcast_off vbcast_off ufeat_len vfeat_len out_len = true →
  E ≤ Z.of_nat (length indices)
  ∧ covers edge_map E = true
  ∧ covers ubcast_off out_len = true ∧ covers vbcast_off out_len = true
  ∧ NoDup (edge_id edge_map <$> seqZ 0 E)
  ∧ ∀ ty, 0 ≤ ty < E →
      BinarySearchSrc indptr (to_Idx T N) ty = Ok (csr_src T indptr N ty)
      ∧ (0 ≤ edge_id edge_map ty
         ∧ (edge_id edge_map ty + 1) * out_len ≤ Z.of_nat (length out))
      ∧ ∀ tx, 0 ≤ tx < out_len →
          BCall
            (operand_ptr T (sddmm_use_lhs Op) ufeat
               (csr_src T indptr N ty * ufeat_len) reduce_size ubcast_off tx)
            (operand_ptr T (sddmm_use_rhs Op) vfeat
               (cell 0 indices ty * vfeat_len) reduce_size vbcast_off tx)
            reduce_size reduce_size
          = Ok (csr_write BCall T Op ufeat vfeat indptr indices edge_map N reduce_size
                  ubcast_off vbcast_off ufeat_len vfeat_len out_len ty tx).2.
Proof.
  unfold csr_kernel_ok. rewrite !andb_true_iff, !bool_decide_eq_true.
  intros [[[[[? ?] ?] ?] ?] Hall]. repeat (split; [done|]).
  intros ty Hty. apply Is_true_true_2, forallb_True in Hall.
  rewrite Forall_forall in Hall. specialize (Hall ty ltac:(apply elem_of_seqZ; lia)).
  apply Is_true_true_1 in Hall. rewrite !andb_true_iff in Hall.
  destruct Hall as [[Hsrc Hr%bool_decide_eq_true] Hcalls].
  split.
  { unfold csr_src. by destruct (BinarySearchSrc indptr (to_Idx T N) ty). }
  split; [done|]. intros tx Htx. apply Is_true_true_2, forallb_True in Hcalls.
  rewrite Forall_forall in Hcalls.
  specialize (Hcalls tx ltac:(apply elem_of_seqZ; lia)).
  apply Is_true_true_1 in Hcalls. by apply is_ok_ok_or.
Qed.

(** One thread of [SDDMMCsrKernel] as a list of writes. *)
Lemma SDDMMCsrKernel_writes (T : IdxType) (Op : SddmmOp) (tc : ThreadCtx)
    (ufeat vfeat : option (list D)) (out b : list D)
    (indptr indices : list Z) (edge_map : option (list Z))
    (N M E reduce_size : Z) (ubcast_off vbcast_off : option (list Z))
    (ufeat_len vfeat_len out_len : Z) (nblks nthrs : dim3) :
  geometry_ok nblks nthrs = true →
  csr_kernel_ok BCall T Op ufeat vfeat out indptr indices edge_map N E reduce_size
    ubcast_off vbcast_off ufeat_len vfeat_len out_len = true →
  tc ∈ grid_threads nblks nthrs →
  length b = length out →
  SDDMMCsrKernel BCall T Op tc ufeat vfeat b indptr indices edge_map N M E reduce_size
    ubcast_off vbcast_off ufeat_len vfeat_len out_len
  = Ok (apply_writes
          (thread_writes E out_len
             (csr_write BCall T Op ufeat vfeat indptr indices edge_map N reduce_size
                ubcast_off vbcast_off ufeat_len vfeat_len out_len) tc) b).
Proof.
  intros Hgeo Hok Htc Hb.
  destruct (thread_geometry _ _ _ Hgeo Htc) as (Hfx & Hsx & Hfy & Hsy).
  destruct (csr_kernel_ok_unpack _ _ _ _ _ _ _ _ _ _ _ _ _ _ _ _ Hok)
    as (Hind & Hem & Hub & Hvb & Hnd & Hcells).
  unfold SDDMMCsrKernel. cbv zeta.
  fold (first_x tc) (first_y tc) (stride_x tc) (stride_y tc).
  rewrite !to_uint_small by lia.
  rewrite !(to_Idx_small T (first_y tc)), !(to_Idx_small T (stride_y tc)) by lia.
  rewrite strided_loop_strided by lia.
  unfold thread_writes. apply iterM_apply_writes. intros ty b' Hty Hb'.
  apply elem_of_strided in Hty as [Hty _]; [|lia..].
  destruct (Hcells ty ltac:(lia)) as (Hsrc & Heid & Hcalls).
  rewrite Hsrc. unfold _ldg. simpl.
  rewrite (load_in_range 0 indices) by lia. simpl.
  assert ((if match edge_map with Some _ => true | None => false end
           then deref (edge_map +ₚ ty) else Ok ty) = Ok (edge_id edge_map ty)) as ->.
  { rewrite <- (edge_id_load edge_map E ty) by (done || lia). by destruct edge_map. }
  simpl.
  rewrite (feature_loop_writes BCall T _ _ _ _ _ _ _ _ _ _
             (λ tx, (csr_write BCall T Op ufeat vfeat indptr indices edge_map N
                       reduce_size ubcast_off vbcast_off ufeat_len vfeat_len out_len
                       ty tx).2));
    [done|lia|lia|done|done| |].
  - intros x Hx. by apply Hcalls.
  - intros Hpos. rewrite Hb', Hb. nia.
Qed.

(** X18.  A launch of [SDDMMCsrKernel] under any sequential schedule of
    the threads of its grid, for any grid without an empty dimension:
    the launch ends; for every edge position [ty] below [E] and every
    feature position [tx] below [out_len] the cell
    [out[eid * out_len + tx]] holds the value of [BinaryOp::Call] on
    the operand pointers [ufeat + src * ufeat_len + lhs_add *
    reduce_size] and [vfeat + indices[ty] * vfeat_len + rhs_add *
    reduce_size], where [src] is what [BinarySearchSrc(indptr, N, ty)]
    returns; every other cell is untouched; and no cell is written by
    two threads. *)
Theorem SDDMMCsrKernel_grid (T : IdxType) (Op : SddmmOp)
    (ufeat vfeat : option (list D)) (out : list D)
    (indptr indices : list Z) (edge_map : option (list Z))
    (N M E reduce_size : Z) (ubcast_off vbcast_off : option (list Z))
    (ufeat_len vfeat_len out_len : Z) (nblks nthrs : dim3)
    (schedule : list ThreadCtx) :
  let w := csr_write BCall T Op ufeat vfeat indptr indices edge_map N reduce_size
             ubcast_off vbcast_off ufeat_len vfeat_len out_len in
  geometry_ok nblks nthrs = true →
  csr_kernel_ok BCall T Op ufeat vfeat out indptr indices edge_map N E reduce_size
    ubcast_off vbcast_off ufeat_len vfeat_len out_len = true →
  schedule ≡ₚ grid_threads nblks nthrs →
  ∃ out',
    run_threads (λ tc o,
      SDDMMCsrKernel BCall T Op tc ufeat vfeat o indptr indices edge_map N M E
        reduce_size ubcast_off vbcast_off ufeat_len vfeat_len out_len) schedule out
    = Ok out'
    ∧ length out' = length out
    ∧ (∀ ty tx, 0 ≤ ty < E → 0 ≤ tx < out_len →
         ∃ src, BinarySearchSrc indptr (to_Idx T N) ty = Ok src
           ∧ load out' (edge_id edge_map ty * out_len + tx)
             = BCall
                 (operand_ptr T (sddmm_use_lhs Op) ufeat
                    (src * ufeat_len) reduce_size ubcast_off tx)
                 (operand_ptr T (sddmm_use_rhs Op) vfeat
                    (cell 0 indices ty * vfeat_len) reduce_size vbcast_off tx)
                 reduce_size reduce_size)
    ∧ (∀ c, (∀ ty tx, 0 ≤ ty < E → 0 ≤ tx < out_len →
               c ≠ edge_id edge_map ty * out_len + tx) →
         load out' c = load out c)
    ∧ (∀ tc tc' x x', tc ∈ schedule → tc' ∈ schedule → tc ≠ tc' →
         x ∈ thread_writes E out_len w tc → x' ∈ thread_writes E out_len w tc' →
         x.1 ≠ x'.1).
Proof.
  cbv zeta. intros Hgeo Hok Hperm.
  destruct (csr_kernel_ok_unpack _ _ _ _ _ _ _ _ _ _ _ _ _ _ _ _ Hok)
    as (_ & _ & _ & _ & Hnd & Hcells).
  set (w := csr_write BCall T Op ufeat vfeat indptr indices edge_map N reduce_size
              ubcast_off vbcast_off ufeat_len vfeat_len out_len).
  assert (∀ ty tx ty' tx', 0 ≤ ty < E → 0 ≤ tx < out_len → 0 ≤ ty' < E →
            0 ≤ tx' < out_len → (w ty tx).1 = (w ty' tx').1 → ty = ty' ∧ tx = tx')
    as Hinj.
  { intros ty tx ty' tx' Hty Htx Hty' Htx' Hc.
    by apply (edge_cell_inj edge_map E out_len). }
  eexists. split.
  { apply (run_threads_apply_writes _ (thread_writes E out_len w)).
    intros tc b Htc Hb. rewrite Hperm in Htc.
    by apply (SDDMMCsrKernel_writes _ _ _ _ _ out _ _ _ _ _ _ _ _ _ _ _ _ _ nblks nthrs). }
  split; [apply length_apply_writes|].
  destruct (grid_writes_cells E out_len w nblks nthrs schedule out Hgeo Hperm)
    as (Hat & Hother); [|done|].
  { intros ty tx Hty Htx. destruct (Hcells ty Hty) as (_ & Hr & _). simpl. nia. }
  split; [|split].
  - intros ty tx Hty Htx. destruct (Hcells ty Hty) as (Hsrc & _ & Hcall).
    exists (csr_src T indptr N ty). split; [done|].
    rewrite (Hcall tx Htx). apply (Hat ty tx Hty Htx).
  - intros c Hc. apply Hother. intros ty tx Hty Htx. by apply Hc.
  - intros tc tc' x x' Htc Htc' Hne Hx Hx' Heq. apply Hne.
    rewrite Hperm in Htc, Htc'.
    by apply (thread_writes_disjoint E out_len w nblks nthrs tc tc' x x').
Qed.

End CsrDeviceProofs.

(** ** Entry points and kernels together *)

Lemma ceil_div_pos (a b : Z) :
  0 < a → 0 < b → 1 ≤ ceil_div a b ∧ ceil_div a b * b < a + b.
Proof.
  intros Ha Hb. rewrite <- ceil_div_quot by lia.
  rewrite Z.quot_div_nonneg by lia.
  pose proof (Z.div_mod (a + b - 1) b ltac:(lia)) as Hdm.
  pose proof (Z.mod_pos_bound (a + b - 1) b Hb) as Hm.
  split; [|nia]. apply Z.div_le_lower_bound; lia.
Qed.

Lemma ceil_div_zero (b : Z) : 0 < b → ceil_div 0 b = 0.
Proof. intros Hb. unfold ceil_div. simpl. by rewrite Z.div_0_l by lia. Qed.

(** A grid with an empty dimension has no thread. *)
Lemma grid_threads_empty (nblks nthrs : dim3) :
  dim_x nblks ≤ 0 ∨ dim_y nblks ≤ 0 → grid_threads nblks nthrs = [].
Proof.
  intros Hempty. destruct (grid_threads nblks nthrs) as [|tc l] eqn:Hg; [done|].
  assert (tc ∈ grid_threads nblks nthrs) as Htc by (rewrite Hg; by left).
  apply elem_of_grid_threads in Htc. lia.
Qed.

Lemma data_ptr_null {A} (t : Tensor A) :
  (if IsNullArray t then None else data_ptr t) = data_ptr t.
Proof. by destruct t. Qed.

Lemma edge_map_null (d : option (list Z)) :
  (if IsNullArray d then None else d) = d.
Proof. by destruct d. Qed.

Section Launches.
Context {D : Type} `{!DTypeOps D}.
Variable BCall : ptr D → ptr D → Z → Z → result D.
Variable FindNumThreads : Z → Z → Z.

(** X19.  [SDDMMCoo] with a positive feature width and the launch it
    makes, under any sequential schedule of the threads of the grid it
    computes; [FindNumThreads] is taken to return a number from 1 to
    1024.  The grid is [(ceil(len / ntx), ceil(nnz / nty))], not
    clamped.  When there is a nonzero and [gridDim.y] is within the
    limit of the device, 65535, the launch is accepted and ends; for
    every nonzero [i] and every feature position [k] of the output the
    cell [out[eid_i * len + k]] holds the value of [BinaryOp::Call] on
    the pointers [ufeat + row[i] * len * reduce_dim + k * reduce_dim]
    and [vfeat + col[i] * len * reduce_dim + k * reduce_dim]; every
    other cell of [out] is untouched.  With no nonzero, or with so many
    that [gridDim.y] exceeds 65535, the device refuses the launch, no
    thread runs and [out] is as it was. *)
Theorem SDDMMCoo_launch (T : IdxType) (Op : SddmmOp) (coo : COOMatrix)
    (ufeat vfeat : Tensor D) (out : NDArray D) (l : Launch D)
    (schedule : list ThreadCtx) :
  let len := feat_dim (shape out) in
  let nnz := Z.of_nat (length (coo_row coo)) in
  let rd := k_reduce_size l in
  let ntx := FindNumThreads len 1024 in
  let nty := 1024 `div` ntx in
  0 < ntx ≤ 1024 →
  0 < len < 2 ^ 31 - 1024 →
  nnz < 2 ^ 31 - 1024 →
  SDDMMCoo FindNumThreads Op coo ufeat vfeat out = Ok l →
  coo_kernel_ok BCall T Op (data_ptr ufeat) (data_ptr vfeat) (data out)
    (coo_row coo) (coo_col coo) (coo_data coo) nnz rd None None len len len = true →
  schedule ≡ₚ grid_threads (nblks l) (nthrs l) →
  nblks l = mkDim3 (ceil_div len ntx) (ceil_div nnz nty)
  ∧ nthrs l = mkDim3 ntx nty
  ∧ ∃ out',
      launch_SDDMMCooKernel BCall T Op coo l schedule = Ok out'
      ∧ length out' = length (data out)
      ∧ (0 < nnz → dim_y (nblks l) ≤ 65535 →
           (∀ i k, 0 ≤ i < nnz → 0 ≤ k < len →
              load out' (coo_eid coo i * len + k)
              = BCall
                  (operand_ptr T (sddmm_use_lhs Op) (data_ptr ufeat)
                     (cell 0 (coo_row coo) i * len * rd) rd None k)
                  (operand_ptr T (sddmm_use_rhs Op) (data_ptr vfeat)
                     (cell 0 (coo_col coo) i * len * rd) rd None k)
                  rd rd)
           ∧ (∀ c, (∀ i k, 0 ≤ i < nnz → 0 ≤ k < len →
                      c ≠ coo_eid coo i * len + k) →
                load out' c = load (data out) c))
      ∧ (nnz = 0 ∨ 65535 < dim_y (nblks l) → out' = data out).
Proof.
  cbv zeta. intros Hntx Hlen Hnnz Hrun Hok Hperm.
  unfold SDDMMCoo in Hrun. cbv zeta in Hrun.
  apply bind_Ok_inv in Hrun as (rd & Hrd & Hrun).
  match type of Hrun with
  | context [Ok (mkLaunch ?a ?b ?c ?d ?e ?f ?g ?h ?i ?j ?k0 ?m ?n _ _)] =>
      destruct (coo_launch_dims FindNumThreads (feat_dim (shape out))
                  (Z.of_nat (length (coo_row coo)))
                  (λ nty nbx nby,
                     Ok (mkLaunch a b c d e f g h i j k0 m n (mkDim3 nbx nby)
                           (mkDim3 (FindNumThreads (feat_dim (shape out)) 1024) nty)))
                  Hntx ltac:(lia) ltac:(lia)) as (Hrun' & Hnty & Hprod)
  end.
  rewrite Hrun' in Hrun. injection Hrun as <-. clear Hrun'.
  unfold launch_SDDMMCooKernel. simpl in *.
  rewrite !data_ptr_null, edge_map_null.
  set (len := feat_dim (shape out)) in *.
  set (nnz := Z.of_nat (length (coo_row coo))) in *.
  set (ntx := FindNumThreads len 1024) in *.
  set (nty := 1024 `div` ntx) in *.
  split; [done|]. split; [done|].
  assert (nty ≤ 1024) as Hnty' by nia.
  destruct (ceil_div_pos len ntx ltac:(lia) ltac:(lia)) as [Hbx1 Hbx2].
  destruct (decide (0 < nnz ∧ ceil_div nnz nty ≤ 65535)) as [[Hnnz0 Hby]|Hrefused].
  - destruct (ceil_div_pos nnz nty ltac:(lia) ltac:(lia)) as [Hby1 Hby2].
    assert (launch_accepted (mkDim3 (ceil_div len ntx) (ceil_div nnz nty))
              (mkDim3 ntx nty) = true) as ->.
    { unfold launch_accepted. simpl. rewrite !andb_true_iff, !bool_decide_eq_true.
      repeat split; lia. }
    assert (geometry_ok (mkDim3 (ceil_div len ntx) (ceil_div nnz nty))
              (mkDim3 ntx nty) = true) as Hgeo.
    { unfold geometry_ok. simpl. rewrite !andb_true_iff, !bool_decide_eq_true.
      repeat split; lia. }
    destruct (SDDMMCooKernel_grid BCall T Op (data_ptr ufeat) (data_ptr vfeat)
                (data out) (coo_row coo) (coo_col coo) (coo_data coo)
                (coo_num_rows coo) (coo_num_cols coo) nnz rd None None len len len
                _ _ schedule Hgeo Hok Hperm)
      as (out' & Hrun & Hl & Hcells & Hframe).
    exists out'. split; [exact Hrun|]. split; [done|]. split.
    + intros _ _. split.
      * intros i k Hi Hk. apply (Hcells i k Hi Hk).
      * intros c Hc. apply Hframe. intros ty tx Hty Htx. by apply Hc.
    + intros [?|?]; lia.
  - assert (launch_accepted (mkDim3 (ceil_div len ntx) (ceil_div nnz nty))
              (mkDim3 ntx nty) = false) as ->.
    { unfold launch_accepted. simpl. rewrite !andb_false_iff, !bool_decide_eq_false.
      left. left. left. right.
      destruct (decide (0 < nnz)) as [Hpos|Hzero]; [lia|].
      assert (nnz = 0) as -> by lia. rewrite ceil_div_zero by lia. lia. }
    exists (data out). split; [done|]. split; [done|]. split; [|done].
    intros Hpos Hy. lia.
Qed.

(** X20.  [SDDMMCsr] and the kernel it launches, for a well-formed
    matrix with at least one row and one nonzero and a positive
    feature width, under any sequential schedule of the threads of
    the grid: the launch ends and every cell [out[eid * len + tx]] of
    an edge position [ty] holds the value of [BinaryOp::Call] on the
    pointers [ufeat + src * len + tx * reduce_dim] and
    [vfeat + indices[ty] * len + tx * reduce_dim].  For the positions
    up to the first one of the last row, [src] is the row of the
    position; for every later position of the last row it is the row
    before the last. *)
Theorem SDDMMCsr_launch (T : IdxType) (Op : SddmmOp) (csr : CSRMatrix)
    (ufeat vfeat : Tensor D) (out : NDArray D) (l : Launch D)
    (schedule : list ThreadCtx) :
  let N := csr_num_rows csr in
  let E := Z.of_nat (length (csr_indices csr)) in
  let len := k_out_len l in
  let rd := k_reduce_size l in
  csr_wf csr = true →
  1 ≤ N < 2 ^ 31 → 0 < E < 2 ^ 31 →
  SDDMMCsr Op csr ufeat vfeat out = Ok l →
  0 < len →
  csr_kernel_ok BCall T Op (data_ptr ufeat) (data_ptr vfeat) (data out)
    (csr_indptr csr) (csr_indices csr) (csr_data csr) N E rd None None len len len
    = true →
  schedule ≡ₚ grid_threads (nblks l) (nthrs l) →
  ∃ out',
    launch_SDDMMCsrKernel BCall T Op csr l schedule = Ok out'
    ∧ length out' = length (data out)
    ∧ ∀ ty tx, 0 ≤ ty < E → 0 ≤ tx < len →
        ∃ src,
          load out' (csr_eid csr ty * len + tx)
          = BCall
              (operand_ptr T (sddmm_use_lhs Op) (data_ptr ufeat) (src * len) rd None tx)
              (operand_ptr T (sddmm_use_rhs Op) (data_ptr vfeat)
                 (cell 0 (csr_indices csr) ty * len) rd None tx)
              rd rd
          ∧ (ty ≤ csr_row_start csr (N - 1) →
               0 ≤ src < N ∧ csr_row_start csr src ≤ ty < csr_row_end csr src)
          ∧ (csr_row_start csr (N - 1) < ty →
               src = N - 2
               ∧ csr_row_start csr (N - 1) ≤ ty < csr_row_end csr (N - 1)).
Proof.
  cbv zeta. intros Hwf HN HE Hrun Hlen Hok Hperm.
  unfold SDDMMCsr in Hrun. cbv zeta in Hrun.
  apply bind_Ok_inv in Hrun as (ush & Hush & Hrun).
  apply bind_Ok_inv in Hrun as (rd & Hrd & Hrun).
  injection Hrun as <-. unfold launch_SDDMMCsrKernel. simpl in *.
  rewrite !data_ptr_null, edge_map_null.
  set (len := feat_dim ush) in *.
  set (E := Z.of_nat (length (csr_indices csr))) in *.
  assert (launch_accepted (mkDim3 E 1)
            (mkDim3 1 (if decide (128 < len) then 128 else len)) = true) as ->.
  { unfold launch_accepted. simpl. rewrite !andb_true_iff, !bool_decide_eq_true.
    case_decide; repeat split; lia. }
  assert (geometry_ok (mkDim3 E 1) (mkDim3 1 (if decide (128 < len) then 128 else len))
          = true) as Hgeo.
  { unfold geometry_ok. simpl. rewrite !andb_true_iff, !bool_decide_eq_true.
    case_decide; repeat split; lia. }
  destruct (SDDMMCsrKernel_grid BCall T Op (data_ptr ufeat) (data_ptr vfeat)
              (data out) (csr_indptr csr) (csr_indices csr) (csr_data csr)
              (csr_num_rows csr) (csr_num_cols csr) E rd None None len len len
              _ _ schedule Hgeo Hok Hperm)
    as (out' & Hrun & Hl & Hcells & _).
  exists out'. split; [exact Hrun|]. split; [done|].
  intros ty tx Hty Htx. destruct (Hcells ty tx Hty Htx) as (src & Hsrc & Hload).
  exists src. split; [exact Hload|].
  rewrite to_Idx_small in Hsrc by lia.
  destruct (csr_wf_unpack csr Hwf) as (_ & _ & _ & Hspan & _).
  destruct (BinarySearchSrc_spec csr (csr_num_rows csr) ty Hwf)
    as (r & Hr & Hlt & Heq & Hgt); [lia|lia|].
  rewrite Hr in Hsrc. injection Hsrc as <-. split.
  - intros Hle. apply Zle_lt_or_eq in Hle as [Hlt'|He].
    + destruct (Hlt Hlt') as [? ?]. split; [lia|done].
    + rewrite (Heq He), csr_row_end_start.
      replace (csr_num_rows csr - 1 + 1) with (csr_num_rows csr) by lia.
      fold E in Hspan. split; lia.
  - intros Hl'. split; [by apply Hgt|].
    rewrite csr_row_end_start.
    replace (csr_num_rows csr - 1 + 1) with (csr_num_rows csr) by lia.
    fold E in Hspan. lia.
Qed.

End Launches.

(** * Broadcast entry points of SDDMM *)

(** The product loop [for (i = 1; i < ndim; ++i) len *= shape[i]] over
    a shape that has the [ndim] dimensions. *)
Lemma shape_product_loop (sh : list Z) (ndim : Z) :
  ndim ≤ Z.of_nat (length sh) →
  for_loop 1 ndim (λ i acc, x ← load sh i; Ok (acc * x)) 1
  = Ok (Numel (take (Z.to_nat (ndim - 1)) (drop 1 sh))).
Proof.
  intros Hlen.
  rewrite (for_loop_pure _ (λ acc i, acc * cell 0 sh i)); last first.
  { intros i acc Hi. by rewrite (load_in_range 0 sh i) by lia. }
  f_equal.
  assert (∀ n : nat, (1 + n ≤ length sh)%nat →
    foldl (λ acc i, acc * cell 0 sh i) 1 (seqZ 1 (Z.of_nat n))
    = Numel (take n (drop 1 sh))) as Hn.
  { induction n as [|n IH]; intros Hl; [done|].
    rewrite seqZ_S, foldl_app, IH by lia. simpl.
    assert (drop 1 sh !! n = Some (cell 0 sh (1 + Z.of_nat n))) as Hx.
    { rewrite lookup_drop. replace (1 + n)%nat with (Z.to_nat (1 + Z.of_nat n)) by lia.
      apply cell_lookup. lia. }
    rewrite (take_S_r _ _ _ Hx). unfold Numel. rewrite foldl_app. done. }
  destruct (decide (1 ≤ ndim)) as [H1|H1].
  - rewrite <- (Hn (Z.to_nat (ndim - 1))) by lia. do 2 f_equal. lia.
  - rewrite seqZ_nil by lia. replace (Z.to_nat (ndim - 1)) with 0%nat by lia. done.
Qed.

(** The same loop over a shape that lacks one of the dimensions reads
    past the end of the shape. *)
Lemma shape_product_loop_short (sh : list Z) (ndim : Z) :
  2 ≤ ndim → Z.of_nat (length sh) < ndim →
  for_loop 1 ndim (λ i acc, x ← load sh i; Ok (acc * x)) 1 = Fault.
Proof.
  intros Hnd Hlen. unfold for_loop.
  set (m := Z.max 1 (Z.of_nat (length sh))).
  replace (ndim - 1) with ((m - 1) + (ndim - m)) by lia.
  rewrite seqZ_app, iterM_app by lia.
  rewrite (iterM_pure _ (λ acc i, acc * cell 0 sh i)); last first.
  { intros i acc Hi%elem_of_seqZ. by rewrite (load_in_range 0 sh i) by lia. }
  simpl. replace (1 + (m - 1)) with m by lia.
  rewrite seqZ_cons by lia. simpl.
  unfold load. case_decide; [|done].
  by rewrite lookup_ge_None_2 by lia.
Qed.

Section Bcast.
Context {D : Type} `{!DTypeOps D}.
Variable FindNumThreads : Z → Z → Z.

(** X21.  The broadcast entry points of SDDMM.  The lengths they hand
    to the kernel are the products of the extents 1, ..., [ndim - 1] of
    the three shapes of the broadcast descriptor, where [ndim] is the
    number of dimensions of its output shape, and the offset arrays are
    those of the descriptor; an operand shape with fewer dimensions
    than the output shape is read past its end.  A null [ufeat] does
    not stop them: its [ctx] is read as that of any array, and for an
    operator that does not reduce over the last dimension the CSR entry
    point returns a launch whatever [ufeat] is, with the null pointer
    for the left operand when [ufeat] is the null array. *)
Theorem SDDMMBcast_lengths (Op : SddmmOp) (info : BcastInfo) (coo : COOMatrix)
    (csr : CSRMatrix) (ufeat vfeat : Tensor D) (out : NDArray D) :
  let ndim := Z.of_nat (length (out_shape info)) in
  let tail (sh : list Z) := Numel (take (Z.to_nat (ndim - 1)) (drop 1 sh)) in
  (2 ≤ ndim →
     Z.of_nat (length (lhs_shape info)) < ndim
     ∨ Z.of_nat (length (rhs_shape info)) < ndim →
     SDDMMBcastCoo FindNumThreads Op info coo ufeat vfeat out = Fault
     ∧ SDDMMBcastCsr Op info csr ufeat vfeat out = Fault)
  ∧ (ndim ≤ Z.of_nat (length (lhs_shape info)) →
     ndim ≤ Z.of_nat (length (rhs_shape info)) →
     ∀ l, SDDMMBcastCoo FindNumThreads Op info coo ufeat vfeat out = Ok l
          ∨ SDDMMBcastCsr Op info csr ufeat vfeat out = Ok l →
       k_out_len l = tail (out_shape info)
       ∧ k_ufeat_len l = tail (lhs_shape info)
       ∧ k_vfeat_len l = tail (rhs_shape info)
       ∧ k_ubcast_off l = Some (lhs_offset info)
       ∧ k_vbcast_off l = Some (rhs_offset info))
  ∧ (reduce_last_dim Op = false →
     ndim ≤ Z.of_nat (length (lhs_shape info)) →
     ndim ≤ Z.of_nat (length (rhs_shape info)) →
     ∃ l, SDDMMBcastCsr Op info csr ufeat vfeat out = Ok l
       ∧ k_reduce_size l = 1
       ∧ k_E l = Z.of_nat (length (csr_indices csr))
       ∧ k_N l = csr_num_rows csr
       ∧ k_ufeat l = data_ptr ufeat).
Proof.
  cbv zeta. split; [|split].
  - intros Hnd Hshort.
    unfold SDDMMBcastCoo, SDDMMBcastCsr. cbv zeta.
    destruct (shape_of ufeat) as [sh| |] eqn:Hsh; [|by destruct ufeat..]. simpl.
    destruct (decide (Z.of_nat (length (lhs_shape info))
                      < Z.of_nat (length (out_shape info)))) as [Hl|Hl].
    + by rewrite (shape_product_loop_short (lhs_shape info)) by lia.
    + rewrite (shape_product_loop (lhs_shape info)) by lia. simpl.
      by rewrite (shape_product_loop_short (rhs_shape info)) by lia.
  - intros Hl Hr l Hrun.
    assert (feat_dim (out_shape info)
            = Numel (take (Z.to_nat (Z.of_nat (length (out_shape info)) - 1))
                          (drop 1 (out_shape info)))) as Hout.
    { unfold feat_dim, Numel. by rewrite take_ge by (rewrite length_drop; lia). }
    destruct Hrun as [Hrun|Hrun].
    + unfold SDDMMBcastCoo in Hrun. cbv zeta in Hrun.
      apply bind_Ok_inv in Hrun as (sh & _ & Hrun).
      rewrite (shape_product_loop (lhs_shape info)) in Hrun by lia. simpl in Hrun.
      rewrite (shape_product_loop (rhs_shape info)) in Hrun by lia. simpl in Hrun.
      apply bind_Ok_inv in Hrun as (rd & _ & Hrun).
      apply bind_Ok_inv in Hrun as (nty & _ & Hrun).
      apply bind_Ok_inv in Hrun as (nbx & _ & Hrun).
      apply bind_Ok_inv in Hrun as (nby & _ & Hrun).
      injection Hrun as <-. simpl. by rewrite <- Hout.
    + unfold SDDMMBcastCsr in Hrun. cbv zeta in Hrun.
      apply bind_Ok_inv in Hrun as (sh & _ & Hrun).
      rewrite (shape_product_loop (lhs_shape info)) in Hrun by lia. simpl in Hrun.
      rewrite (shape_product_loop (rhs_shape info)) in Hrun by lia. simpl in Hrun.
      apply bind_Ok_inv in Hrun as (rd & _ & Hrun).
      injection Hrun as <-. simpl. by rewrite <- Hout.
  - intros Hred Hl Hr.
    unfold SDDMMBcastCsr, reduce_dim_of. cbv zeta. rewrite Hred.
    destruct (shape_of ufeat) as [sh| |] eqn:Hsh; [|by destruct ufeat..]. simpl.
    rewrite (shape_product_loop (lhs_shape info)) by lia. simpl.
    rewrite (shape_product_loop (rhs_shape info)) by lia. simpl.
    eexists. split; [done|]. simpl. by destruct ufeat.
Qed.

End Bcast.

(** * Examples *)

Lemma cell_beyond {A} (d : A) (buf : list A) (i : Z) :
  Z.of_nat (length buf) ≤ i → cell d buf i = d.
Proof.
  intros Hi. unfold cell. case_decide; [|done].
  by rewrite lookup_ge_None_2 by lia.
Qed.

Lemma SpMMSumCsr_overwrites_witness :
  ∃ Obuf, SpMMSumCsr Add csr1 uf1 ef1 out1 = Ok Obuf
    ∧ SpMMSumCsr Add csr1 uf1 ef1 out1z = Ok Obuf.
Proof.
  destruct (SpMMSumCsr_overwrites Add csr1 uf1 ef1 out1 out1z)
    as (Obuf & Hrun & Hrun' & _).
  - reflexivity.
  - reflexivity.
  - by vm_compute.
  - by vm_compute.
  - reflexivity.
  - reflexivity.
  - intros i Hi. change (6 ≤ i) in Hi.
    rewrite !cell_beyond by (simpl; lia). done.
  - exists Obuf. split; [exact Hrun|exact Hrun'].
Defined.

Lemma SpMMSumCoo_correct_witness :
  ∃ Obuf, SpMMSumCoo Add coo1 uf1 ef1 out1 = Ok Obuf
    ∧ load Obuf (1 * 2 + 0) = Ok 0.
Proof.
  destruct (SpMMSumCoo_correct Add coo1 uf1 ef1 out1 out1z 3)
    as (Obuf & Hrun & _ & _ & Hcells); try reflexivity.
  exists Obuf. split; [exact Hrun|].
  apply (proj2 (Hcells 1 0 ltac:(lia) ltac:(by vm_compute))).
  intros i Hi. change (0 ≤ i < 4) in Hi.
  assert (i = 0 ∨ i = 1 ∨ i = 2 ∨ i = 3) as [->|[->|[->| ->]]] by lia; by vm_compute.
Defined.

Lemma SpMMCmpCoo_semantics_witness :
  let steps :=
    reverse (loop_steps (Z.of_nat (length (coo_row coo1))) (feat_dim (shape out1))) in
  ∃ Obuf argX argW,
    SpMMCmpCoo_steps CopyLhs Max coo1 uf1 ef1 out1 arg1 arg1 steps
    = Ok (Obuf, argX, argW)
    ∧ argW = arg1.
Proof.
  intros steps.
  destruct (SpMMCmpCoo_semantics CopyLhs Max coo1 uf1 ef1 out1 arg1 arg1 3 steps)
    as (_ & _ & Obuf & argX & argW & Hrun & _ & HW & _); try reflexivity.
  - exact Z_StrictLaws.
  - apply reverse_Permutation.
  - exists Obuf, argX, argW. split; [exact Hrun|]. by apply HW.
Defined.

Lemma SpMMCmp_same_order_witness :
  ∃ res, SpMMCmpCsr Add Max csr1 uf1 ef1 out1 argz argz = Ok res
    ∧ SpMMCmpCoo Add Max coo1s uf1 ef1 out1 argz argz = Ok res.
Proof.
  apply (SpMMCmp_same_order Add Max csr1 coo1s uf1 ef1 out1 argz argz);
    reflexivity.
Defined.

Lemma SpMMSum_null_operand_witness :
  SpMMSumCsr Add csr1 None ef1 out1 = Fault
  ∧ SpMMSumCoo Add coo1 None ef1 out1 = Fault.
Proof.
  destruct (SpMMSum_null_operand Add csr1 coo1 None ef1 out1) as [Hcsr Hcoo].
  - left. split; reflexivity.
  - by vm_compute.
  - split; [apply Hcsr|apply Hcoo]; try reflexivity; discriminate.
Defined.

Lemma BinarySearchSrc_range_witness :
  (∃ r, BinarySearchSrc [5; 1; 4; 1] 4 3 = Ok r ∧ -1 ≤ r ≤ 3)
  ∧ BinarySearchSrc [5; 1; 4; 1] 0 3 = Fault.
Proof.
  destruct (BinarySearchSrc_range [5; 1; 4; 1] 4 3) as [Hok _].
  destruct (BinarySearchSrc_range [5; 1; 4; 1] 0 3) as [_ Hfault].
  split; [apply Hok; simpl; lia|apply Hfault; lia].
Defined.

Lemma BinarySearchSrc_sorted_witness :
  BinarySearchSrc [0; 2; 2; 4] 4 5 = Ok 2
  ∧ BinarySearchSrc [0; 2; 2; 4] 4 3 = Ok 2
  ∧ BinarySearchSrc [0; 2; 2; 4] 4 (-1) = Ok (-1).
Proof.
  assert (∀ i j, 0 ≤ i ≤ j → j < 4 → cell 0 [0; 2; 2; 4] i ≤ cell 0 [0; 2; 2; 4] j)
    as Hsorted.
  { intros i j Hi Hj.
    assert (i = 0 ∨ i = 1 ∨ i = 2 ∨ i = 3) as [->|[->|[->| ->]]] by lia;
      assert (j = 0 ∨ j = 1 ∨ j = 2 ∨ j = 3) as [->|[->|[->| ->]]] by lia;
      (by vm_compute) || lia. }
  split; [|split].
  - destruct (BinarySearchSrc_sorted [0; 2; 2; 4] 4 5 ltac:(simpl; lia) Hsorted)
      as (r & Hrun & _ & _ & Hgt).
    rewrite Hrun. f_equal. apply Hgt. by vm_compute.
  - destruct (BinarySearchSrc_sorted [0; 2; 2; 4] 4 3 ltac:(simpl; lia) Hsorted)
      as (r & Hrun & Hlt & _).
    rewrite Hrun. f_equal.
    destruct (Hlt ltac:(by vm_compute)) as (Hr & Hle & Hgt).
    assert (r = -1 ∨ r = 0 ∨ r = 1 ∨ r = 2) as [->|[->|[->| ->]]] by lia.
    + specialize (Hgt 0 ltac:(lia)). by vm_compute in Hgt.
    + specialize (Hgt 1 ltac:(lia)). by vm_compute in Hgt.
    + specialize (Hgt 2 ltac:(lia)). by vm_compute in Hgt.
    + done.
  - destruct (BinarySearchSrc_sorted [0; 2; 2; 4] 4 (-1) ltac:(simpl; lia) Hsorted)
      as (r & Hrun & Hlt & _).
    rewrite Hrun. f_equal.
    destruct (Hlt ltac:(by vm_compute)) as (Hr & Hle & Hgt).
    assert (r = -1 ∨ r = 0 ∨ r = 1 ∨ r = 2) as [->|[->|[->| ->]]] by lia.
    + done.
    + specialize (Hle 0 ltac:(lia)). by vm_compute in Hle.
    + specialize (Hle 0 ltac:(lia)). by vm_compute in Hle.
    + specialize (Hle 0 ltac:(lia)). by vm_compute in Hle.
Defined.

Lemma BinarySearchSrc_all_offsets_witness :
  ∃ r, BinarySearchSrc (csr_indptr csr1) (csr_num_rows csr1 + 1) 3 = Ok r
    ∧ 0 ≤ r < 3.
Proof.
  destruct (BinarySearchSrc_all_offsets csr1 3) as (r & Hrun & Hr & _).
  - reflexivity.
  - by vm_compute.
  - exists r. split; [exact Hrun|exact Hr].
Defined.

Lemma SDDMMCsrKernel_src_spec_witness :
  ∃ src, SDDMMCsrKernel_src csr1 3 = Ok src ∧ src = 1.
Proof.
  destruct (SDDMMCsrKernel_src_spec csr1 3) as (src & Hrun & _ & Hlast).
  - reflexivity.
  - by vm_compute.
  - by vm_compute.
  - exists src. split; [exact Hrun|]. apply Hlast. by vm_compute.
Defined.

Lemma UnravelRavel_accumulates_witness :
  UnravelRavel 4 2 [2; 3] [3; 1] [2; 1] [1; 1] [2; 3] [3; 1] 10 20 = Ok (11, 4).
Proof.
  exact (UnravelRavel_accumulates 4 2 10 20 [2; 3] [3; 1] [2; 1] [1; 1] [2; 3] [3; 1]
           ltac:(lia) eq_refl eq_refl eq_refl ltac:(by vm_compute)).
Defined.

Lemma UnravelRavel_in_bounds_witness :
  ∃ l r, UnravelRavel 4 2 [2; 3] [3; 1] [2; 1] [1; 1] [1; 3] [3; 1] 0 0 = Ok (l, r)
    ∧ 0 ≤ l < 2.
Proof.
  destruct (UnravelRavel_in_bounds 4 2 [2; 3] [3; 1] [2; 1] [1; 3]
              ltac:(lia) eq_refl eq_refl eq_refl ltac:(by vm_compute))
    as (l & r & Hrun & _ & Hslow).
  exists l, r. split; [exact Hrun|].
  exact (proj2 (Hslow ltac:(by vm_compute))).
Defined.

Lemma UnravelRavel_broadcast_witness :
  ∃ l r l' r',
    UnravelRavel 3 2 [2; 3] [3; 1] [2; 1] [1; 1] [2; 3] [3; 1] 0 0 = Ok (l, r)
    ∧ UnravelRavel 5 2 [2; 3] [3; 1] [2; 1] [1; 1] [2; 3] [3; 1] 0 0 = Ok (l', r')
    ∧ l = l'.
Proof.
  destruct (UnravelRavel_broadcast 3 5 2 [2; 3] [3; 1] [2; 1] [1; 1] [2; 3] [3; 1]
              ltac:(lia) eq_refl eq_refl eq_refl ltac:(by vm_compute)
              ltac:(by vm_compute))
    as (l & r & l' & r' & Hrun & Hrun' & Heq).
  - intros d Hd Hne. assert (d = 0 ∨ d = 1) as [->| ->] by lia; [done|].
    by vm_compute in Hne.
  - exists l, r, l', r'. split; [exact Hrun|]. split; [exact Hrun'|exact Heq].
Defined.

Lemma UnravelRavel_fast_path_witness :
  ∃ r, UnravelRavel 4 2 [2; 3] [3; 1] [1; 3] [3; 1] [2; 3] [3; 1] 0 0 = Ok (4, r)
    ∧ Numel [1; 3] ≤ 4.
Proof.
  destruct (UnravelRavel_fast_path 4 2 [2; 3] [3; 1] [1; 3] [2; 3] [3; 1]
              ltac:(lia) eq_refl eq_refl eq_refl ltac:(by vm_compute) eq_refl)
    as (r & Hrun & _ & _ & Hbroadcast).
  exists r. split; [exact Hrun|].
  apply (proj2 (Hbroadcast ltac:(by vm_compute))). by vm_compute.
Defined.

Lemma SDDMMCooKernel_thread_witness :
  let tc := mkThreadCtx (mkDim3 1 2) (mkDim3 2 1) (mkDim3 0 1) (mkDim3 1 0) in
  SDDMMCooKernel sample_dot Idx64 sop_both tc nodes1 nodes1 edges_out1
    (coo_row coo1) (coo_col coo1) (coo_data coo1) 3 3 4 1 None None 2 2 2
  = Ok [0; 40; 0; 400; 0; 0; 0; 0].
Proof.
  cbv zeta.
  destruct (SDDMMCooKernel_thread sample_dot Idx64 sop_both
              (mkThreadCtx (mkDim3 1 2) (mkDim3 2 1) (mkDim3 0 1) (mkDim3 1 0))
              nodes1 nodes1 edges_out1 edges_out1
              (coo_row coo1) (coo_col coo1) (coo_data coo1) 3 3 4 1 None None 2 2 2
              (mkDim3 1 2) (mkDim3 2 1)) as [Hrun _].
  - reflexivity.
  - by vm_compute.
  - apply elem_of_grid_threads. simpl. repeat split; (done || lia).
  - reflexivity.
  - rewrite Hrun. by vm_compute.
Defined.

Lemma SDDMMCooKernel_grid_witness :
  ∃ out',
    run_threads (λ tc o,
      SDDMMCooKernel sample_dot Idx64 sop_both tc nodes1 nodes1 o
        (coo_row coo1) (coo_col coo1) (coo_data coo1) 3 3 4 1 None None 2 2 2)
      (reverse (grid_threads (mkDim3 1 2) (mkDim3 2 1))) edges_out1 = Ok out'
    ∧ load out' 7 = Ok 40000.
Proof.
  destruct (SDDMMCooKernel_grid sample_dot Idx64 sop_both nodes1 nodes1 edges_out1
              (coo_row coo1) (coo_col coo1) (coo_data coo1) 3 3 4 1 None None 2 2 2
              (mkDim3 1 2) (mkDim3 2 1)
              (reverse (grid_threads (mkDim3 1 2) (mkDim3 2 1))))
    as (out' & Hrun & _ & Hcells & _).
  - reflexivity.
  - by vm_compute.
  - apply reverse_Permutation.
  - exists out'. split; [exact Hrun|].
    exact (Hcells 0 1 ltac:(lia) ltac:(lia)).
Defined.

Lemma SDDMMCsrKernel_grid_witness :
  ∃ out',
    run_threads (λ tc o,
      SDDMMCsrKernel sample_dot Idx64 sop_both tc nodes1 nodes1 o
        (csr_indptr csr1) (csr_indices csr1) (csr_data csr1) 3 3 4 1 None None 2 2 2)
      (reverse (grid_threads (mkDim3 4 1) (mkDim3 1 2))) edges_out1 = Ok out'
    ∧ load out' (3 * 2 + 0) = Ok 1000.
Proof.
  destruct (SDDMMCsrKernel_grid sample_dot Idx64 sop_both nodes1 nodes1 edges_out1
              (csr_indptr csr1) (csr_indices csr1) (csr_data csr1) 3 3 4 1 None None
              2 2 2 (mkDim3 4 1) (mkDim3 1 2)
              (reverse (grid_threads (mkDim3 4 1) (mkDim3 1 2))))
    as (out' & Hrun & _ & Hcells & _).
  - reflexivity.
  - by vm_compute.
  - apply reverse_Permutation.
  - exists out'. split; [exact Hrun|].
    destruct (Hcells 3 0 ltac:(lia) ltac:(lia)) as (src & Hsrc & Hload).
    vm_compute in Hsrc. injection Hsrc as <-. exact Hload.
Defined.

Lemma SDDMMCoo_launch_witness :
  ∃ out',
    launch_SDDMMCooKernel sample_dot Idx64 sop_both coo1 launch_coo1
      (grid_threads (mkDim3 1 1) (mkDim3 2 512)) = Ok out'
    ∧ load out' 7 = Ok 40000.
Proof.
  destruct (SDDMMCoo_launch sample_dot sample_FindNumThreads Idx64 sop_both coo1
              uf1 uf1 edges_nd1 launch_coo1
              (grid_threads (mkDim3 1 1) (mkDim3 2 512)))
    as (_ & _ & out' & Hrun & _ & Hcells & _).
  - by vm_compute.
  - by vm_compute.
  - by vm_compute.
  - reflexivity.
  - by vm_compute.
  - reflexivity.
  - exists out'. split; [exact Hrun|].
    destruct (Hcells ltac:(by vm_compute) ltac:(by vm_compute)) as [Hwritten _].
    exact (Hwritten 0 1 ltac:(by vm_compute) ltac:(by vm_compute)).
Defined.

Lemma SDDMMCsr_launch_witness :
  ∃ out',
    launch_SDDMMCsrKernel sample_dot Idx64 sop_both csr1 launch_csr1
      (grid_threads (mkDim3 4 1) (mkDim3 1 2)) = Ok out'
    ∧ load out' (3 * 2 + 0) = Ok 1000.
Proof.
  destruct (SDDMMCsr_launch sample_dot Idx64 sop_both csr1 uf1 uf1 edges_nd1
              launch_csr1 (grid_threads (mkDim3 4 1) (mkDim3 1 2)))
    as (out' & Hrun & _ & Hcells).
  - reflexivity.
  - by vm_compute.
  - by vm_compute.
  - reflexivity.
  - by vm_compute.
  - by vm_compute.
  - reflexivity.
  - exists out'. split; [exact Hrun|].
    destruct (Hcells 3 0 ltac:(by vm_compute) ltac:(by vm_compute))
      as (src & Hload & _ & Hlast).
    destruct (Hlast ltac:(by vm_compute)) as [-> _]. exact Hload.
Defined.

Lemma SDDMMBcast_lengths_witness :
  SDDMMBcastCoo sample_FindNumThreads sop_both info_short coo1 uf1 uf1 edges_nd1
  = Fault
  ∧ SDDMMBcastCsr sop_both info_short csr1 uf1 uf1 edges_nd1 = Fault.
Proof.
  apply (proj1 (SDDMMBcast_lengths sample_FindNumThreads sop_both info_short
                  coo1 csr1 uf1 uf1 edges_nd1)).
  - by vm_compute.
  - right. by vm_compute.
Defined.
